(** * The streaming chunk splitter of [chunk.cpp]

    A shallow embedding of [chunk.cpp]: its computational core
    ([ChunkBuffer], [BufferPool], [Chunker] and [compute_sha512]) and the
    callers of the [Chunker] (the [stream_*] helpers and [main]), together
    with the properties its specification states about the core and further
    properties of the whole program. The help screen ([print_help] and the
    branch of [main] for a call without arguments) is left out.

    Conventions of the embedding:
    - a [size_t] is a [Z] in [0, 2^64); every arithmetic operation of the
      source on [size_t] is followed by [size_t], the reduction modulo 2^64;
    - a [char] array is a [list byte]; [std::unique_ptr<ChunkBuffer>] is an
      [option ChunkBuffer], [None] being the null pointer;
    - the program state the methods act on is a pair of the [Chunker] object
      and the [World] (buffer pool, file system, standard streams, heap
      accounting); methods are computations of the monad [M];
    - a computation ends in an [outcome]: normal return, a thrown
      [std::runtime_error], [std::terminate], or undefined behaviour;
    - what the program cannot decide itself (the SHA-512 function of OpenSSL,
      failures of the EVP calls, the wall clock, whether an output file opens
      and how much of a chunk it takes) is read from an environment [Env],
      indexed by the number of attempts to finalise a chunk made so far; what
      the callers read from the machine (input files, the output of the
      converters, Parquet tables, [mkdir]) and what the commands they start
      do to its files is read from a [Host];
    - an input, file or pipe, is a stream that ends, fails or goes on for
      ever; a loop of the source that may not end is a function with a budget
      of iterations, and the outcome of a run that is out of budget is
      [Diverge]: the source does not return when every budget runs out. *)

From Stdlib Require Import ZArith Lia List String Ascii Strings.Byte HexadecimalString.
From stdpp Require Import base numbers list strings gmap pretty.

Local Open Scope Z_scope.

(** ** 1. Constants *)

Definition size_t_modulus : Z := 2 ^ 64.

(** Conversion to [size_t]: unsigned 64-bit wrap-around. *)
Definition size_t (z : Z) : Z := z mod size_t_modulus.

Definition CHUNK_BASE_SIZE : Z := size_t (5 * 1024 * 1024).
Definition CHUNK_VARIANCE : Z := size_t (5 * 1024).
Definition CHUNK_LIMIT : Z := size_t (CHUNK_BASE_SIZE + CHUNK_VARIANCE).
Definition NUM_BUFFERS : Z := 100.

(** ** 2. Outcomes *)

Inductive outcome (A : Type) : Type :=
| Ret (a : A)              (* normal return *)
| Throw (what : string)    (* std::runtime_error(what) propagates *)
| Terminate                (* std::terminate: exception out of a destructor *)
| Undefined                (* undefined behaviour: null or out-of-bounds access *)
| Diverge.                 (* the loop budget of the model ran out *)
Arguments Ret {A} a.
Arguments Throw {A} what.
Arguments Terminate {A}.
Arguments Undefined {A}.
Arguments Diverge {A}.

(** An outcome that is not a normal return, at another result type. *)
Definition propagate {A B : Type} (o : outcome A) : outcome B :=
  match o with
  | Ret _ => Undefined
  | Throw what => Throw what
  | Terminate => Terminate
  | Undefined => Undefined
  | Diverge => Diverge
  end.

(** ** 3. The environment *)

Inductive EVP_failure : Type :=
| EVP_MD_CTX_new_failed
| EVP_DigestInit_ex_failed
| EVP_DigestUpdate_failed
| EVP_DigestFinal_ex_failed.

Record Env : Type := mkEnv {
  (** the bytes [EVP_DigestFinal_ex] leaves in [hash], [hashLen] being the
      length of the list *)
  EVP_sha512 : list byte → list byte;
  (** the EVP call that fails during the n-th finalisation, if any *)
  EVP_fault : nat → option EVP_failure;
  (** [std::time(nullptr)] as read during the n-th finalisation *)
  std_time : nat → Z;
  (** [ofs.is_open()] after opening the file of that name for writing *)
  ofs_is_open : nat → string → bool;
  (** how many bytes of the chunk reach that file when [ofs.write] or
      [ofs.close] falls short during the n-th finalisation (a full disk, an
      I/O error); [None] when all of them do *)
  ofs_short : nat → string → option nat
}.

(** What the file of a chunk holds after [ofs.write] and [ofs.close]. *)
Definition ofs_stored (E : Env) (n : nat) (fname : string) (bytes : list byte) : list byte :=
  match ofs_short E n fname with
  | None => bytes
  | Some k => take k bytes
  end.

(** ** 4. [compute_sha512] *)

(** [oss << std::hex << std::nouppercase << n] for a non-negative [int]. *)
Definition ostream_hex (n : Z) : string :=
  NilZero.string_of_uint (N.to_hex_uint (Z.to_N n)).

Definition uchar (b : byte) : Z := Z.of_N (Byte.to_N b).

Fixpoint hex_of_hash (hash : list byte) : string :=
  match hash with
  | [] => EmptyString
  | h :: rest =>
      ostream_hex (Z.shiftr (Z.land (uchar h) 0xF0) 4)
      +:+ ostream_hex (Z.land (uchar h) 0x0F)
      +:+ hex_of_hash rest
  end.

Definition compute_sha512 (E : Env) (n : nat) (bytes : list byte) : outcome string :=
  match EVP_fault E n with
  | Some EVP_MD_CTX_new_failed => Throw "Failed to create EVP_MD_CTX"
  | Some EVP_DigestInit_ex_failed => Throw "Failed to init SHA-512"
  | Some EVP_DigestUpdate_failed => Throw "Failed to update SHA-512"
  | Some EVP_DigestFinal_ex_failed => Throw "Failed to finalize SHA-512"
  | None => Ret (hex_of_hash (EVP_sha512 E bytes))
  end.

(** ** 5. [ChunkBuffer] *)

Record ChunkBuffer : Type := mkChunkBuffer {
  data : list byte;
  capacity : Z;
  used : Z
}.

(** [new char[cap]] leaves the bytes indeterminate; the model fills them with
    zeroes. No theorem below depends on the initial content. *)
Definition ChunkBuffer_ctor (cap : Z) : ChunkBuffer :=
  {| data := replicate (Z.to_nat cap) x00; capacity := cap; used := 0 |}.

Definition clear (b : ChunkBuffer) : ChunkBuffer :=
  {| data := data b; capacity := capacity b; used := 0 |}.

(** ** 6. [BufferPool] *)

Record BufferPool : Type := mkBufferPool {
  bufferSize_ : Z;
  freeBuffers_ : list ChunkBuffer
}.

(** The constructor's loop: [bufferCount] times [emplace_back]. *)
Fixpoint emplace_buffers (count : nat) (bufferSize : Z) (free : list ChunkBuffer)
  : list ChunkBuffer :=
  match count with
  | O => free
  | S count' => emplace_buffers count' bufferSize (free ++ [ChunkBuffer_ctor bufferSize])
  end.

Definition BufferPool_ctor (bufferCount bufferSize : Z) : BufferPool :=
  {| bufferSize_ := bufferSize;
     freeBuffers_ := emplace_buffers (Z.to_nat bufferCount) bufferSize [] |}.

(** [v.back()] together with [v.pop_back()]; [None] on an empty vector. *)
Fixpoint pop_back {A : Type} (v : list A) : option (list A * A) :=
  match v with
  | [] => None
  | x :: v' =>
      match pop_back v' with
      | None => Some ([], x)
      | Some (front, back) => Some (x :: front, back)
      end
  end.

Definition acquireBuffer (p : BufferPool) : outcome ChunkBuffer * BufferPool :=
  match pop_back (freeBuffers_ p) with
  | None => (Throw "No free chunk buffers available!", p)
  | Some (rest, buf) =>
      (Ret (clear buf), {| bufferSize_ := bufferSize_ p; freeBuffers_ := rest |})
  end.

Definition releaseBuffer (buf : option ChunkBuffer) (p : BufferPool)
  : outcome unit * BufferPool :=
  match buf with
  | None => (Undefined, p)
  | Some b =>
      (Ret tt, {| bufferSize_ := bufferSize_ p;
                  freeBuffers_ := freeBuffers_ p ++ [clear b] |})
  end.

(** ** 7. The world and the state monad *)

(** One entry per chunk handed to the finaliser, in flush order. The source
    keeps no such list; it is the history of what [flushCurrentBuffer] did,
    kept so that properties of the emitted sequence can be stated. *)
Record Flushed : Type := mkFlushed {
  fl_name : string;        (* the output file name *)
  fl_digest : string;      (* hashVal *)
  fl_time : Z;             (* now *)
  fl_bytes : list byte;    (* the first dataLen bytes of the buffer *)
  fl_written : bool;       (* whether the file opened and was written *)
  fl_stored : list byte    (* what the write leaves in a file that opened *)
}.

Record World : Type := mkWorld {
  pool : BufferPool;                 (* the pool the Chunkers refer to *)
  files : gmap string (list byte);   (* content of the files, by name *)
  cout : list string;
  cerr : list string;
  attempts : nat;                    (* finalisations attempted: index into Env *)
  heap_new : nat;                    (* ChunkBuffers allocated (make_unique) *)
  heap_delete : nat;                 (* ChunkBuffers deallocated (~unique_ptr) *)
  flushed : list Flushed
}.

Record Chunker : Type := mkChunker {
  outputDir_ : string;
  currentBuffer_ : option ChunkBuffer
}.

Definition State : Type := Chunker * World.

Definition M (A : Type) : Type := State → outcome A * State.

Definition ret {A : Type} (a : A) : M A := λ st, (Ret a, st).

Definition bind {A B : Type} (m : M A) (k : A → M B) : M B :=
  λ st, match m st with
        | (Ret a, st') => k a st'
        | (o, st') => (propagate o, st')
        end.

Definition fail {A : Type} (o : outcome A) : M A := λ st, (o, st).

Declare Scope chunk_scope.
Delimit Scope chunk_scope with chunk.
Notation "x <- m ;; k" := (bind m (λ x, k))
  (at level 100, m at next level, k at level 200, right associativity) : chunk_scope.
Notation "m ;; k" := (bind m (λ _, k))
  (at level 100, k at level 200, right associativity) : chunk_scope.
Local Open Scope chunk_scope.

Definition with_pool (p : BufferPool) (w : World) : World :=
  mkWorld p (files w) (cout w) (cerr w) (attempts w) (heap_new w) (heap_delete w) (flushed w).

Definition with_attempt (w : World) : World :=
  mkWorld (pool w) (files w) (cout w) (cerr w) (S (attempts w)) (heap_new w) (heap_delete w)
          (flushed w).

(** [~unique_ptr<ChunkBuffer>] (also the release of the old pointee by a move
    assignment): deletes the buffer if the pointer is not null. *)
Definition unique_ptr_dtor (ptr : option ChunkBuffer) (w : World) : World :=
  match ptr with
  | None => w
  | Some _ =>
      mkWorld (pool w) (files w) (cout w) (cerr w) (attempts w) (heap_new w)
              (S (heap_delete w)) (flushed w)
  end.

Definition newline : string := String (ascii_of_nat 10) EmptyString.

(** Reading [n] bytes through a pointer to the array [src]. *)
Definition read_bytes (src : list byte) (n : Z) : option (list byte) :=
  if (0 <=? n) && (n <=? Z.of_nat (length src)) then Some (take (Z.to_nat n) src)
  else None.

(** [std::memcpy(dst + dst_off, src + src_off, n)]; [None] when a range leaves
    its array. *)
Definition memcpy (dst : list byte) (dst_off : Z) (src : list byte) (src_off n : Z)
  : option (list byte) :=
  if (0 <=? dst_off) && (0 <=? src_off) && (0 <=? n)
     && (dst_off + n <=? Z.of_nat (length dst))
     && (src_off + n <=? Z.of_nat (length src))
  then Some (take (Z.to_nat dst_off) dst
             ++ take (Z.to_nat n) (drop (Z.to_nat src_off) src)
             ++ drop (Z.to_nat (dst_off + n)) dst)
  else None.

(** ** 8. [Chunker] *)

Section Chunker.
Context (E : Env).
(** The source reads the global constant [CHUNK_LIMIT]; the model takes the
    threshold as a parameter so that it can also be run at the small
    thresholds of the specification's scenarios. *)
Context (limit : Z).

Definition chunk_file_name (outputDir hashVal : string) (now : Z) : string :=
  outputDir +:+ "/" +:+ hashVal +:+ "_" +:+ pretty now +:+ ".txt".

(** The two branches after [std::ofstream ofs(fname, std::ios::binary)]. A
    file that opened is truncated and takes the bytes that [ofs.write] and
    [ofs.close] get to it: the source does not look at the result of either
    call, and reports the chunk as flushed, with its full size, whatever
    reached the file. *)
Definition write_chunk_file (fname : string) (bytes : list byte) (dataLen : Z)
    (hashVal : string) (now : Z) (w : World) : World :=
  let stored := ofs_stored E (attempts w) fname bytes in
  if ofs_is_open E (attempts w) fname then
    mkWorld (pool w) (<[fname := stored]> (files w))
            (cout w ++ ["Flushed chunk -> " +:+ fname +:+ " (size: "
                        +:+ pretty dataLen +:+ " bytes)" +:+ newline])
            (cerr w) (attempts w) (heap_new w) (heap_delete w)
            (flushed w ++ [mkFlushed fname hashVal now bytes true stored])
  else
    mkWorld (pool w) (files w) (cout w)
            (cerr w ++ ["Error writing chunk file: " +:+ fname +:+ newline])
            (attempts w) (heap_new w) (heap_delete w)
            (flushed w ++ [mkFlushed fname hashVal now bytes false stored]).

Definition flushCurrentBuffer : M unit :=
  λ '(c, w),
    match currentBuffer_ c with
    | None => (Ret tt, (c, w))
    | Some cur =>
        if used cur =? 0 then (Ret tt, (c, w))
        else
          let dataLen := used cur in
          match read_bytes (data cur) dataLen with
          | None => (Undefined, (c, w))
          | Some bytes =>
              match compute_sha512 E (attempts w) bytes with
              | Ret hashVal =>
                  let now := std_time E (attempts w) in
                  let fname := chunk_file_name (outputDir_ c) hashVal now in
                  let w1 := write_chunk_file fname bytes dataLen hashVal now w in
                  match releaseBuffer (currentBuffer_ c) (pool w1) with
                  | (Ret _, p) =>
                      (Ret tt, (mkChunker (outputDir_ c) None,
                                with_attempt (with_pool p w1)))
                  | (o, p) => (propagate o, (c, with_attempt (with_pool p w1)))
                  end
              | o => (propagate o, (c, with_attempt w))
              end
          end
    end.

(** [currentBuffer_ = pool_.acquireBuffer();] *)
Definition acquire_currentBuffer : M unit :=
  λ '(c, w),
    match acquireBuffer (pool w) with
    | (Ret buf, p) =>
        (Ret tt, (mkChunker (outputDir_ c) (Some buf),
                  unique_ptr_dtor (currentBuffer_ c) (with_pool p w)))
    | (o, p) => (propagate o, (c, with_pool p w))
    end.

(** [currentBuffer_->...]: dereferencing the null pointer is undefined. *)
Definition deref_currentBuffer : M ChunkBuffer :=
  λ '(c, w),
    match currentBuffer_ c with
    | None => (Undefined, (c, w))
    | Some cur => (Ret cur, (c, w))
    end.

(** The [memcpy] into the current buffer and [currentBuffer_->used += toWrite]. *)
Definition append_currentBuffer (input : list byte) (offset toWrite : Z) : M unit :=
  λ '(c, w),
    match currentBuffer_ c with
    | None => (Undefined, (c, w))
    | Some cur =>
        match memcpy (data cur) (used cur) input offset toWrite with
        | None => (Undefined, (c, w))
        | Some d =>
            (Ret tt,
             (mkChunker (outputDir_ c)
                (Some (mkChunkBuffer d (capacity cur) (size_t (used cur + toWrite)))),
              w))
        end
    end.

(** The [while (offset < len)] loop of [pushData], with a budget of
    iterations. *)
Fixpoint pushData_loop (budget : nat) (input : list byte) (len offset : Z) : M unit :=
  match budget with
  | O => fail Diverge
  | S budget' =>
      if offset <? len then
        cur <- deref_currentBuffer ;;
        let spaceLeft := size_t (limit - used cur) in
        if spaceLeft =? 0 then
          flushCurrentBuffer ;;
          acquire_currentBuffer ;;
          pushData_loop budget' input len offset
        else
          let toWrite := Z.min spaceLeft (size_t (len - offset)) in
          append_currentBuffer input offset toWrite ;;
          let offset' := size_t (offset + toWrite) in
          cur' <- deref_currentBuffer ;;
          if limit <=? used cur' then
            flushCurrentBuffer ;;
            acquire_currentBuffer ;;
            pushData_loop budget' input len offset'
          else pushData_loop budget' input len offset'
      else ret tt
  end.

(** Iterations that always suffice (see [pushData_loop_budget]). *)
Definition pushData_budget (len : Z) (st : State) : nat :=
  S (S (2 * Z.to_nat len + length (freeBuffers_ (pool (snd st))))).

Definition pushData (input : list byte) (len : Z) : M unit :=
  λ st, pushData_loop (pushData_budget (size_t len) st) input (size_t len) 0 st.

(** [Chunker(pool, outputDir)]: no object exists if the constructor throws. *)
Definition Chunker_ctor (outputDir : string) (w : World) : outcome Chunker * World :=
  match acquireBuffer (pool w) with
  | (Ret buf, p) => (Ret (mkChunker outputDir (Some buf)), with_pool p w)
  | (o, p) => (propagate o, with_pool p w)
  end.

(** [~Chunker()]: the body, then the destruction of the members. The
    destructor is implicitly [noexcept]. *)
Definition Chunker_dtor (st : State) : outcome unit * World :=
  match flushCurrentBuffer st with
  | (Ret _, (c, w)) => (Ret tt, unique_ptr_dtor (currentBuffer_ c) w)
  | (Throw _, (c, w)) => (Terminate, w)
  | (o, (c, w)) => (o, w)
  end.

End Chunker.

(** ** 9. Streams: what [main] does with one input *)

Section Streams.
Context (E : Env) (limit : Z).

(** The [pushData] calls an extraction collaborator ([stream_file],
    [stream_command_output], [stream_parquet]) makes for one input: one call
    per block it read, with the block's length. *)
Fixpoint pushData_all (blocks : list (list byte)) : M unit :=
  match blocks with
  | [] => ret tt
  | block :: rest =>
      pushData E limit block (Z.of_nat (length block)) ;;
      pushData_all rest
  end.

(** One iteration of the loop of [main]: a [Chunker] is constructed, fed and
    destroyed at the end of its scope. An exception leaves the iteration
    (and, uncaught, ends the process). *)
Definition process_stream (outputDir : string) (blocks : list (list byte)) (w : World)
  : outcome unit * World :=
  match Chunker_ctor outputDir w with
  | (Ret chunker, w1) =>
      match pushData_all blocks (chunker, w1) with
      | (Ret _, st) => Chunker_dtor E st
      | (o, (_, w2)) => (o, w2)
      end
  | (o, w1) => (propagate o, w1)
  end.

(** The loop of [main] over its inputs. *)
Fixpoint process_streams (outputDir : string) (inputs : list (list (list byte)))
    (w : World) : outcome unit * World :=
  match inputs with
  | [] => (Ret tt, w)
  | blocks :: rest =>
      match process_stream outputDir blocks w with
      | (Ret _, w') => process_streams outputDir rest w'
      | (o, w') => (o, w')
      end
  end.

End Streams.

(** The world after [BufferPool bufferPool(bufferCount, bufferSize)]. *)
Definition World_init (bufferCount bufferSize : Z) : World :=
  mkWorld (BufferPool_ctor bufferCount bufferSize) ∅ [] [] 0 (Z.to_nat bufferCount) 0 [].

(** ** 10. A pool with several clients *)

(** The pool, the live [Chunker]s that refer to it, and the buffers that other
    callers of [acquireBuffer] hold. *)
Record System : Type := mkSystem {
  sys_world : World;
  sys_chunkers : list Chunker;
  sys_held : list ChunkBuffer
}.

Inductive Op : Type :=
| op_acquire                                          (* pool.acquireBuffer() *)
| op_release (i : nat)                                (* pool.releaseBuffer(held[i]) *)
| op_construct (outputDir : string)                   (* Chunker(pool, outputDir) *)
| op_pushData (i : nat) (input : list byte) (len : Z) (* chunkers[i].pushData(input, len) *)
| op_destroy (i : nat).                               (* chunkers[i].~Chunker() *)

(** One operation. A thrown exception is caught by the caller and leaves the
    state as it was at the throw; [None] when the process ends (undefined
    behaviour, [std::terminate]). An operation on an object that does not
    exist does nothing. *)
Definition step (E : Env) (limit : Z) (op : Op) (s : System) : option System :=
  match op with
  | op_acquire =>
      match acquireBuffer (pool (sys_world s)) with
      | (Ret buf, p) =>
          Some (mkSystem (with_pool p (sys_world s)) (sys_chunkers s) (sys_held s ++ [buf]))
      | (Throw _, p) => Some (mkSystem (with_pool p (sys_world s)) (sys_chunkers s) (sys_held s))
      | _ => None
      end
  | op_release i =>
      match sys_held s !! i with
      | None => Some s
      | Some buf =>
          match releaseBuffer (Some buf) (pool (sys_world s)) with
          | (Ret _, p) =>
              Some (mkSystem (with_pool p (sys_world s)) (sys_chunkers s)
                             (delete i (sys_held s)))
          | _ => None
          end
      end
  | op_construct outputDir =>
      match Chunker_ctor outputDir (sys_world s) with
      | (Ret c, w) => Some (mkSystem w (sys_chunkers s ++ [c]) (sys_held s))
      | (Throw _, w) => Some (mkSystem w (sys_chunkers s) (sys_held s))
      | _ => None
      end
  | op_pushData i input len =>
      match sys_chunkers s !! i with
      | None => Some s
      | Some c =>
          match pushData E limit input len (c, sys_world s) with
          | (Ret _, (c', w)) | (Throw _, (c', w)) =>
              Some (mkSystem w (<[i := c']> (sys_chunkers s)) (sys_held s))
          | _ => None
          end
      end
  | op_destroy i =>
      match sys_chunkers s !! i with
      | None => Some s
      | Some c =>
          match Chunker_dtor E (c, sys_world s) with
          | (Ret _, w) => Some (mkSystem w (delete i (sys_chunkers s)) (sys_held s))
          | _ => None
          end
      end
  end.

Fixpoint run (E : Env) (limit : Z) (ops : list Op) (s : System) : option System :=
  match ops with
  | [] => Some s
  | op :: rest =>
      match step E limit op s with
      | Some s' => run E limit rest s'
      | None => None
      end
  end.

Definition System_init (bufferCount bufferSize : Z) : System :=
  mkSystem (World_init bufferCount bufferSize) [] [].

(** Buffers checked out by a [Chunker]: one if its current slot is not null. *)
Definition checked_out (c : Chunker) : nat :=
  match currentBuffer_ c with Some _ => 1%nat | None => 0%nat end.

Definition free_count (w : World) : nat := length (freeBuffers_ (pool w)).

(** Free buffers plus checked-out buffers. *)
Definition total_buffers (s : System) : nat :=
  (free_count (sys_world s) + sum_list (checked_out <$> sys_chunkers s)
   + length (sys_held s))%nat.

(** ** 11. Vocabulary of the statements *)

(** Modelled on the specification's words (section 4.4): the chunks of a
    stream are its consecutive segments of threshold length, the last one
    holding what remains. The budget bounds the number of segments. *)
Fixpoint segments (budget : nat) (n : nat) (s : list byte) : list (list byte) :=
  match budget with
  | O => []
  | S budget' =>
      match s with
      | [] => []
      | _ => take n s :: segments budget' n (drop n s)
      end
  end.

Definition expected_chunks (limit : Z) (s : list byte) : list (list byte) :=
  segments (length s) (Z.to_nat limit) s.

(** The bytes a buffer logically holds. *)
Definition content (b : ChunkBuffer) : list byte := take (Z.to_nat (used b)) (data b).

(** A buffer that can take bytes up to the threshold. *)
Definition buffer_ok (limit : Z) (b : ChunkBuffer) : Prop :=
  limit <= Z.of_nat (length (data b)).

Definition pool_ok (limit : Z) (w : World) : Prop :=
  Forall (buffer_ok limit) (freeBuffers_ (pool w)).

(** No EVP call fails. *)
Definition EVP_ok (E : Env) : Prop := ∀ n, EVP_fault E n = None.

(** The digest has the length of a SHA-512 digest. *)
Definition sha512_sized (E : Env) : Prop := ∀ bytes, length (EVP_sha512 E bytes) = 64%nat.

(** Every output file opens and takes every byte written to it. *)
Definition ofs_ok (E : Env) : Prop :=
  ∀ n fname, ofs_is_open E n fname = true ∧ ofs_short E n fname = None.

(** The entries a computation added to the flush history. *)
Definition emitted_since (w w' : World) : list Flushed :=
  drop (length (flushed w)) (flushed w').

Definition lowercase_hex (a : ascii) : bool :=
  let n := nat_of_ascii a in
  ((48 <=? n) && (n <=? 57) || (97 <=? n) && (n <=? 102))%nat.

Fixpoint string_forallb (p : ascii → bool) (s : string) : bool :=
  match s with
  | EmptyString => true
  | String a s' => p a && string_forallb p s'
  end.

(** The world after a chunk was finalised: file written or error reported,
    then the buffer released. *)
Definition finalised (E : Env) (c : Chunker) (cur : ChunkBuffer) (w : World) : World :=
  let hashVal := hex_of_hash (EVP_sha512 E (content cur)) in
  let now := std_time E (attempts w) in
  let fname := chunk_file_name (outputDir_ c) hashVal now in
  let w1 := write_chunk_file E fname (content cur) (used cur) hashVal now w in
  with_attempt
    (with_pool (mkBufferPool (bufferSize_ (pool w1)) (freeBuffers_ (pool w1) ++ [clear cur])) w1).
Arguments finalised : simpl never.

(** The bytes a [Chunker] holds that are not flushed yet. *)
Definition pending (c : Chunker) : list byte :=
  match currentBuffer_ c with
  | Some b => content b
  | None => []
  end.

(** The state between two [pushData] calls of a healthy stream: a current
    buffer that is not full, and buffers large enough for the threshold. *)
Definition steady (limit : Z) (st : State) : Prop :=
  ∃ cur, currentBuffer_ (fst st) = Some cur
         ∧ 0 <= used cur < limit
         ∧ buffer_ok limit cur
         ∧ pool_ok limit (snd st).

Definition full_chunk (limit : Z) (f : Flushed) : Prop :=
  Z.of_nat (length (fl_bytes f)) = limit.

(** ** 12. A concrete environment for the examples *)

(** SHA-512 as FIPS 180-4 defines it, on 64-bit words held in [Z]: the
    function behind [EVP_sha512]. The theorems about the program hold for any
    digest function; this one instantiates them in the examples. *)
Module SHA512.

Definition word (z : Z) : Z := z mod 2 ^ 64.

Definition rotr (n x : Z) : Z := Z.lor (Z.shiftr x n) (word (Z.shiftl x (64 - n))).
Definition shr (n x : Z) : Z := Z.shiftr x n.
Definition xor3 (x y z : Z) : Z := Z.lxor (Z.lxor x y) z.

Definition Ch (x y z : Z) : Z := Z.lxor (Z.land x y) (Z.land (Z.lxor x (2 ^ 64 - 1)) z).
Definition Maj (x y z : Z) : Z := xor3 (Z.land x y) (Z.land x z) (Z.land y z).
Definition Sigma0 (x : Z) : Z := xor3 (rotr 28 x) (rotr 34 x) (rotr 39 x).
Definition Sigma1 (x : Z) : Z := xor3 (rotr 14 x) (rotr 18 x) (rotr 41 x).
Definition sigma0 (x : Z) : Z := xor3 (rotr 1 x) (rotr 8 x) (shr 7 x).
Definition sigma1 (x : Z) : Z := xor3 (rotr 19 x) (rotr 61 x) (shr 6 x).

(** The round constants: 64 bits of the fractional parts of the cube roots of
    the first eighty primes. *)
Definition K : list Z :=
  [
    0x428a2f98d728ae22; 0x7137449123ef65cd; 0xb5c0fbcfec4d3b2f; 0xe9b5dba58189dbbc;
    0x3956c25bf348b538; 0x59f111f1b605d019; 0x923f82a4af194f9b; 0xab1c5ed5da6d8118;
    0xd807aa98a3030242; 0x12835b0145706fbe; 0x243185be4ee4b28c; 0x550c7dc3d5ffb4e2;
    0x72be5d74f27b896f; 0x80deb1fe3b1696b1; 0x9bdc06a725c71235; 0xc19bf174cf692694;
    0xe49b69c19ef14ad2; 0xefbe4786384f25e3; 0x0fc19dc68b8cd5b5; 0x240ca1cc77ac9c65;
    0x2de92c6f592b0275; 0x4a7484aa6ea6e483; 0x5cb0a9dcbd41fbd4; 0x76f988da831153b5;
    0x983e5152ee66dfab; 0xa831c66d2db43210; 0xb00327c898fb213f; 0xbf597fc7beef0ee4;
    0xc6e00bf33da88fc2; 0xd5a79147930aa725; 0x06ca6351e003826f; 0x142929670a0e6e70;
    0x27b70a8546d22ffc; 0x2e1b21385c26c926; 0x4d2c6dfc5ac42aed; 0x53380d139d95b3df;
    0x650a73548baf63de; 0x766a0abb3c77b2a8; 0x81c2c92e47edaee6; 0x92722c851482353b;
    0xa2bfe8a14cf10364; 0xa81a664bbc423001; 0xc24b8b70d0f89791; 0xc76c51a30654be30;
    0xd192e819d6ef5218; 0xd69906245565a910; 0xf40e35855771202a; 0x106aa07032bbd1b8;
    0x19a4c116b8d2d0c8; 0x1e376c085141ab53; 0x2748774cdf8eeb99; 0x34b0bcb5e19b48a8;
    0x391c0cb3c5c95a63; 0x4ed8aa4ae3418acb; 0x5b9cca4f7763e373; 0x682e6ff3d6b2b8a3;
    0x748f82ee5defb2fc; 0x78a5636f43172f60; 0x84c87814a1f0ab72; 0x8cc702081a6439ec;
    0x90befffa23631e28; 0xa4506cebde82bde9; 0xbef9a3f7b2c67915; 0xc67178f2e372532b;
    0xca273eceea26619c; 0xd186b8c721c0c207; 0xeada7dd6cde0eb1e; 0xf57d4f7fee6ed178;
    0x06f067aa72176fba; 0x0a637dc5a2c898a6; 0x113f9804bef90dae; 0x1b710b35131c471b;
    0x28db77f523047d84; 0x32caab7b40c72493; 0x3c9ebe0a15c9bebc; 0x431d67c49c100d4c;
    0x4cc5d4becb3e42b6; 0x597f299cfc657e2a; 0x5fcb6fab3ad6faec; 0x6c44198c4a475817
  ].

Record state : Type := mkState {
  ha : Z; hb : Z; hc : Z; hd : Z; he : Z; hf : Z; hg : Z; hh : Z
}.

Definition H0 : state :=
  mkState 0x6a09e667f3bcc908 0xbb67ae8584caa73b 0x3c6ef372fe94f82b 0xa54ff53a5f1d36f1
          0x510e527fade682d1 0x9b05688c2b3e6c1f 0x1f83d9abfb41bd6b 0x5be0cd19137e2179.

(** The message schedule, latest word first. *)
Fixpoint schedule (n : nat) (w : list Z) : list Z :=
  match n with
  | O => w
  | S n' =>
      schedule n'
        (word (sigma1 (nth 1 w 0) + nth 6 w 0 + sigma0 (nth 14 w 0) + nth 15 w 0) :: w)
  end.

Definition round (s : state) (k w : Z) : state :=
  let T1 := word (hh s + Sigma1 (he s) + Ch (he s) (hf s) (hg s) + k + w) in
  let T2 := word (Sigma0 (ha s) + Maj (ha s) (hb s) (hc s)) in
  mkState (word (T1 + T2)) (ha s) (hb s) (hc s) (word (hd s + T1)) (he s) (hf s) (hg s).

Fixpoint rounds (s : state) (ks ws : list Z) : state :=
  match ks, ws with
  | k :: ks', w :: ws' => rounds (round s k w) ks' ws'
  | _, _ => s
  end.

Definition add_state (s t : state) : state :=
  mkState (word (ha s + ha t)) (word (hb s + hb t)) (word (hc s + hc t)) (word (hd s + hd t))
          (word (he s + he t)) (word (hf s + hf t)) (word (hg s + hg t)) (word (hh s + hh t)).

Definition byte_of_Z (z : Z) : byte :=
  match Byte.of_N (Z.to_N (z mod 256)) with Some b => b | None => x00 end.

(** Words are big-endian. *)
Definition word_of_bytes (bs : list byte) : Z :=
  fold_left (λ acc b, acc * 256 + uchar b) bs 0.

Definition bytes_of_word (n : nat) (w : Z) : list byte :=
  map (λ i, byte_of_Z (Z.shiftr w (8 * Z.of_nat i))) (rev (seq 0 n)).

Fixpoint words_of_block (n : nat) (bs : list byte) : list Z :=
  match n with
  | O => []
  | S n' => word_of_bytes (take 8 bs) :: words_of_block n' (drop 8 bs)
  end.

Definition compress (s : state) (block : list byte) : state :=
  let w := rev (schedule 64 (rev (words_of_block 16 block))) in
  add_state s (rounds s K w).

Fixpoint compress_all (n : nat) (s : state) (bs : list byte) : state :=
  match n with
  | O => s
  | S n' => compress_all n' (compress s (take 128 bs)) (drop 128 bs)
  end.

(** The message, a one bit, zeroes, and the length in bits on 128 bits. *)
Definition pad (msg : list byte) : list byte :=
  let len := Z.of_nat (length msg) in
  msg ++ [x80] ++ replicate (Z.to_nat ((111 - len) mod 128)) x00 ++ bytes_of_word 16 (8 * len).

Definition digest (msg : list byte) : list byte :=
  let m := pad msg in
  let s := compress_all (length m / 128)%nat H0 m in
  bytes_of_word 8 (ha s) ++ bytes_of_word 8 (hb s) ++ bytes_of_word 8 (hc s)
  ++ bytes_of_word 8 (hd s) ++ bytes_of_word 8 (he s) ++ bytes_of_word 8 (hf s)
  ++ bytes_of_word 8 (hg s) ++ bytes_of_word 8 (hh s).

End SHA512.

(** SHA-512, no EVP failure, a clock that stands still, every file opens and
    takes every byte. *)
Definition demo_env : Env :=
  mkEnv SHA512.digest (λ _, None) (λ _, 1700000000) (λ _ _, true) (λ _ _, None).


(** As [demo_env], but no output file can be opened. *)
Definition readonly_env : Env :=
  mkEnv SHA512.digest (λ _, None) (λ _, 1700000000) (λ _ _, false) (λ _ _, None).

Definition bytes_of (s : string) : list byte := list_byte_of_string s.

(** ** 13. Relations between the state before and after a computation *)

(** [m] takes every state to a state related to it by [R], whatever the
    outcome. *)
Definition respects {A : Type} (R : State → State → Prop) (m : M A) : Prop :=
  ∀ st, R st (snd (m st)).

(** What a history entry of an environment [E] and a [Chunker] writing to
    [outputDir] looks like. *)
Definition record_ok (E : Env) (outputDir : string) (f : Flushed) : Prop :=
  fl_bytes f ≠ []
  ∧ fl_digest f = hex_of_hash (EVP_sha512 E (fl_bytes f))
  ∧ fl_name f = chunk_file_name outputDir (fl_digest f) (fl_time f)
  ∧ ∃ n, fl_time f = std_time E n ∧ fl_written f = ofs_is_open E n (fl_name f).

(** What a history entry says of the file: what the write left in it is
    what the environment let through of the bytes of the chunk. *)
Definition stored_ok (E : Env) (f : Flushed) : Prop :=
  ∃ n, fl_stored f = ofs_stored E n (fl_name f) (fl_bytes f).

(** The file system after the writes of the given history entries. *)
Definition replay (new : list Flushed) (fs : gmap string (list byte))
  : gmap string (list byte) :=
  foldl (λ fs f, if fl_written f then <[fl_name f := fl_stored f]> fs else fs) fs new.

(** The history only grows, by well-formed entries, and the files change by
    the writes of these entries only. *)
Definition history_grows (E : Env) (st st' : State) : Prop :=
  outputDir_ (fst st') = outputDir_ (fst st)
  ∧ ∃ new, flushed (snd st') = flushed (snd st) ++ new
           ∧ Forall (record_ok E (outputDir_ (fst st))) new
           ∧ files (snd st') = replay new (files (snd st))
           ∧ Forall (stored_ok E) new.

(** Buffers of a [Chunker] and its pool: free, checked out, deleted. *)
Definition accounted (st : State) : nat :=
  (free_count (snd st) + checked_out (fst st) + heap_delete (snd st))%nat.

(** No buffer is allocated, every buffer stays accounted for, and a deleted
    buffer stays deleted. *)
Definition buffers_conserved (st st' : State) : Prop :=
  heap_new (snd st') = heap_new (snd st)
  ∧ accounted st' = accounted st
  ∧ (heap_delete (snd st) <= heap_delete (snd st'))%nat.


(** Across operations on a pool with several clients: no buffer is allocated,
    the buffers in circulation and the deleted ones add up to the same
    number, and a deleted buffer stays deleted. *)
Definition sys_conserved (s s' : System) : Prop :=
  heap_new (sys_world s') = heap_new (sys_world s)
  ∧ (total_buffers s' + heap_delete (sys_world s')
     = total_buffers s + heap_delete (sys_world s))%nat
  ∧ (heap_delete (sys_world s) <= heap_delete (sys_world s'))%nat.

(** No write of the history goes to a file that an earlier write of the
    history persisted. *)
Definition never_rewrites (h : list Flushed) : Prop :=
  ∀ (i j : nat) (fi fj : Flushed),
    h !! i = Some fi → h !! j = Some fj → (i < j)%nat →
    fl_written fi = true → fl_written fj = true →
    fl_name fi ≠ fl_name fj.

(** Reading a hexadecimal digest back into bytes (used to show that
    [hex_of_hash] loses nothing). *)
Definition unhex_digit (a : ascii) : Z :=
  let n := Z.of_nat (nat_of_ascii a) in
  if n <? 58 then n - 48 else n - 87.

Fixpoint unhex_hash (s : string) : list byte :=
  match s with
  | String a (String b rest) =>
      match Byte.of_N (Z.to_N (16 * unhex_digit a + unhex_digit b)) with
      | Some h => h :: unhex_hash rest
      | None => []
      end
  | _ => []
  end.

(** The digest separates the two contents. *)
Definition collision_free (E : Env) (bytes1 bytes2 : list byte) : Prop :=
  EVP_sha512 E bytes1 = EVP_sha512 E bytes2 → bytes1 = bytes2.

(** ** 14. The callers of the [Chunker]: the [stream_*] helpers and [main] *)

Definition BUFSZ : Z := size_t (64 * 1024).

(** The double quote character, as a string. *)
Definition dquote : string := String (ascii_of_nat 34) EmptyString.

(** What [arr->GetScalar(row_idx)] gives for a row of an Arrow array. *)
Inductive scalar : Type :=
| scalar_error (status : string)   (* !scalar_result.ok(), status().ToString() *)
| scalar_valid (text : string)     (* is_valid, scalar->ToString() *)
| scalar_null.                     (* !is_valid *)

(** An [arrow::Table] as [stream_parquet] looks at it: [num_rows()], and per
    column the chunks of its [ChunkedArray], each an array of scalars. *)
Record Table : Type := mkTable {
  num_rows : Z;
  table_columns : list (list (list scalar))
}.

Inductive parquet_file : Type :=
| parquet_unreadable (status : string)              (* ReadableFile::Open failed *)
| parquet_no_reader (status : string)               (* parquet::arrow::OpenFile failed *)
| parquet_reader (row_groups : list (option Table)). (* None: ReadRowGroup failed *)

Inductive mkdir_result : Type :=
| mkdir_ok
| mkdir_errno (errno : Z).

Definition EEXIST : Z := 17.

(** How an input stream ends. *)
Inductive stream_end : Type :=
| end_of_file                    (* the bytes end, and reading past them says so *)
| read_error                     (* a read fails before the end is reached *)
| endless (next : nat → byte).   (* the bytes never end: [next 0], [next 1], ... follow *)

(** An input stream as the read loops see it, be it an open [std::ifstream]
    or the [FILE*] of a pipe: the bytes its reads deliver first, and how it
    ends. *)
Record istream : Type := mkIstream {
  readable : list byte;
  ending : stream_end
}.

(** [ifs.read(buffer, n)] followed by [ifs.gcount()] and [ifs.eof()], and
    likewise [fread(buffer, 1, n, pipe)] followed by [feof(pipe)]: the bytes
    extracted, whether the end-of-file flag is set afterwards, and what is
    left of the stream. The flag is set when the stream ended before [n] bytes
    were found. A read that runs into a read error extracts what was
    readable and leaves the flag clear; after it the stream is not [good()],
    so that every later read extracts nothing and the flag stays clear (for a
    pipe: the error is taken to persist). An endless stream (a device such as
    [/dev/zero], a command that never stops writing) fills every read. *)
Definition stream_read (ifs : istream) (n : nat) : list byte * bool * istream :=
  let head := take n (readable ifs) in
  let missing := (n - length head)%nat in
  match ending ifs with
  | end_of_file =>
      (head, (length head <? n)%nat, mkIstream (drop n (readable ifs)) end_of_file)
  | read_error => (head, false, mkIstream (drop n (readable ifs)) read_error)
  | endless next =>
      (head ++ (next <$> seq 0 missing), false,
       mkIstream (drop n (readable ifs)) (endless (λ i, next (missing + i)%nat)))
  end.

(** What the callers read from the machine they run on, and what the shell
    commands they start do to it. *)
Record Host : Type := mkHost {
  (** the stream behind [std::ifstream ifs(filePath, std::ios::binary)];
      [None] when [is_open()] is false *)
  ifstream_open : string → option istream;
  (** the stream behind [popen(command, "r")], the standard output of the
      command, and the result of [pclose]; [None] when [popen] returns
      null *)
  popen_read : string → option (istream * Z);
  (** what the command does to the files: [popen] hands the text of the
      command to [/bin/sh], and the text holds the argument of the program
      as it was given, between double quotes. The command runs while its
      output is read; the model lets it do all it does to the files when it
      is started. *)
  popen_effect : string → gmap string (list byte) → gmap string (list byte);
  parquet_open : string → parquet_file;
  mkdir : string → mkdir_result;
  (** [std::time(nullptr)] at the start of [main] *)
  main_time : Z;
  (** the files on the machine when [main] starts, as the writes see them
      (what the reads see is in [ifstream_open]) *)
  disk : gmap string (list byte)
}.

Definition put_cout (msg : string) (w : World) : World :=
  mkWorld (pool w) (files w) (cout w ++ [msg]) (cerr w) (attempts w) (heap_new w)
          (heap_delete w) (flushed w).

Definition put_cerr (msg : string) (w : World) : World :=
  mkWorld (pool w) (files w) (cout w) (cerr w ++ [msg]) (attempts w) (heap_new w)
          (heap_delete w) (flushed w).

Definition log_cout (msg : string) : M unit := λ '(c, w), (Ret tt, (c, put_cout msg w)).
Definition log_cerr (msg : string) : M unit := λ '(c, w), (Ret tt, (c, put_cerr msg w)).

Definition put_files (fs : gmap string (list byte)) (w : World) : World :=
  mkWorld (pool w) fs (cout w) (cerr w) (attempts w) (heap_new w) (heap_delete w) (flushed w).

(** [::tolower] in the "C" locale. *)
Definition tolower (a : ascii) : ascii :=
  let n := nat_of_ascii a in
  if ((65 <=? n) && (n <=? 90))%nat then ascii_of_nat (n + 32) else a.

Fixpoint string_map (f : ascii → ascii) (s : string) : string :=
  match s with
  | EmptyString => EmptyString
  | String a s' => String (f a) (string_map f s')
  end.

(** [s.rfind(ch)]: the last position of [ch], [None] for [npos]. *)
Fixpoint rfind (ch : ascii) (s : string) : option nat :=
  match s with
  | EmptyString => None
  | String a s' =>
      match rfind ch s' with
      | Some pos => Some (S pos)
      | None => if Ascii.eqb a ch then Some 0%nat else None
      end
  end.

(** [s.substr(pos)] for [pos <= s.size()]. *)
Fixpoint substr (pos : nat) (s : string) : string :=
  match pos, s with
  | O, _ => s
  | S pos', String _ s' => substr pos' s'
  | S _, EmptyString => EmptyString
  end.

(** The block "Derive extension" of [main]. *)
Definition extension_of (filePath : string) : string :=
  match rfind "." filePath with
  | Some pos => string_map tolower (substr (pos + 1) filePath)
  | None => EmptyString
  end.

(** One cell of a row in [stream_parquet]. *)
Definition render_cell (chunkedArr : list (list scalar)) (row_idx : nat) : string :=
  match chunkedArr with
  | [] => "[NO_CHUNKS]"
  | arr :: _ =>
      match arr !! row_idx with
      | Some (scalar_error status) => "[ERROR: " +:+ status +:+ "]"
      | Some (scalar_valid text) => text
      | Some scalar_null => "NULL"
      | None => "[out_of_range]"
      end
  end.

(** The loop over the columns: cells separated by [" | "]. *)
Fixpoint render_cells (columns : list (list (list scalar))) (row_idx : nat) : string :=
  match columns with
  | [] => EmptyString
  | chunkedArr :: rest =>
      render_cell chunkedArr row_idx
      +:+ match rest with [] => EmptyString | _ => " | " end
      +:+ render_cells rest row_idx
  end.

Definition render_row (columns : list (list (list scalar))) (row_idx : nat) : string :=
  render_cells columns row_idx +:+ newline.

Section Callers.
Context (host : Host) (E : Env) (limit : Z).

(** The loops of [stream_file] and [stream_command_output], which have the
    same shape: while the end-of-file flag is clear, read up to [BUFSZ] bytes
    into [buffer] and push the bytes read, if any. The loops test that flag
    and nothing else. *)
Fixpoint read_loop (budget : nat) (ifs : istream) (buffer : list byte) (eof : bool)
  : M unit :=
  match budget with
  | O => fail Diverge
  | S budget' =>
      if eof then ret tt
      else
        let '(got, eof', ifs') := stream_read ifs (Z.to_nat BUFSZ) in
        let bytesRead := Z.of_nat (length got) in
        let buffer' := got ++ drop (length got) buffer in
        if 0 <? bytesRead then
          pushData E limit buffer' bytesRead ;;
          read_loop budget' ifs' buffer' eof'
        else read_loop budget' ifs' buffer' eof'
  end.

(** Iterations that suffice when the stream reaches its end (see
    [read_loop_terminates]); a stream that does not keeps the loop going for
    ever, whatever the budget (see [read_loop_spins]). *)
Definition read_budget (content : list byte) : nat := S (S (length content)).

(** [char buffer[BUFSZ]]: the model starts it with zeroes. *)
Definition stack_buffer : list byte := replicate (Z.to_nat BUFSZ) x00.

Definition stream_file (filePath : string) : M bool :=
  match ifstream_open host filePath with
  | None =>
      log_cerr ("Error: Could not open " +:+ filePath +:+ newline) ;;
      ret false
  | Some ifs =>
      read_loop (read_budget (readable ifs)) ifs stack_buffer false ;;
      ret true
  end.

(** The command started by [popen] at work on the files. *)
Definition run_command (command : string) : M unit :=
  λ '(c, w), (Ret tt, (c, put_files (popen_effect host command (files w)) w)).

Definition stream_command_output (command : string) : M bool :=
  match popen_read host command with
  | None =>
      log_cerr ("Error: popen failed for command: " +:+ command +:+ newline) ;;
      ret false
  | Some (pipe, rc) =>
      run_command command ;;
      read_loop (read_budget (readable pipe)) pipe stack_buffer false ;;
      (if rc =? 0 then ret tt
       else log_cerr ("Warning: command exited with code " +:+ pretty rc +:+ ": "
                      +:+ command +:+ newline)) ;;
      ret true
  end.

Definition stream_pdf (filePath : string) : M bool :=
  stream_command_output ("pdftotext " +:+ dquote +:+ filePath +:+ dquote +:+ " -").

Definition stream_doc (filePath : string) : M bool :=
  stream_command_output ("doc2txt " +:+ dquote +:+ filePath +:+ dquote +:+ " -").

Definition stream_odt (filePath : string) : M bool :=
  stream_command_output ("odt2txt --stdout " +:+ dquote +:+ filePath +:+ dquote).

Definition stream_rtf (filePath : string) : M bool :=
  stream_command_output ("unrtf --text " +:+ dquote +:+ filePath +:+ dquote).

Definition stream_csv_or_txt (filePath : string) : M bool := stream_file filePath.

Definition stream_unknown (filePath : string) : M bool := stream_file filePath.

(** The loop over the rows of a row group: one [pushData] per row. *)
Fixpoint push_rows (columns : list (list (list scalar))) (rows : list nat) : M unit :=
  match rows with
  | [] => ret tt
  | row_idx :: rest =>
      let lineStr := list_byte_of_string (render_row columns row_idx) in
      pushData E limit lineStr (Z.of_nat (length lineStr)) ;;
      push_rows columns rest
  end.

(** The loop over the row groups, from row group [rg] on. *)
Fixpoint push_row_groups (filePath : string) (rg : nat) (row_groups : list (option Table))
  : M unit :=
  match row_groups with
  | [] => ret tt
  | None :: rest =>
      log_cerr ("Warning: Could not read row group " +:+ pretty (Z.of_nat rg)
                +:+ " from file " +:+ filePath +:+ newline) ;;
      push_row_groups filePath (S rg) rest
  | Some table :: rest =>
      push_rows (table_columns table) (seq 0 (Z.to_nat (num_rows table))) ;;
      push_row_groups filePath (S rg) rest
  end.

Definition stream_parquet (filePath : string) : M bool :=
  match parquet_open host filePath with
  | parquet_unreadable status =>
      log_cerr ("Error: Could not open Parquet file: " +:+ filePath +:+ newline
                +:+ status +:+ newline) ;;
      ret false
  | parquet_no_reader status =>
      log_cerr ("Error: parquet::arrow::OpenFile failed: " +:+ status +:+ newline) ;;
      ret false
  | parquet_reader row_groups =>
      push_row_groups filePath 0 row_groups ;;
      ret true
  end.

(** The chain of comparisons on [extension] in [main]. *)
Definition dispatch (filePath extension : string) : M bool :=
  if String.eqb extension "pdf" then stream_pdf filePath
  else if (String.eqb extension "doc" || String.eqb extension "docx")%bool
  then stream_doc filePath
  else if String.eqb extension "odt" then stream_odt filePath
  else if String.eqb extension "rtf" then stream_rtf filePath
  else if (String.eqb extension "csv" || String.eqb extension "txt")%bool
  then stream_file filePath
  else if String.eqb extension "parquet" then stream_parquet filePath
  else
    (log_cout ("Unknown extension: " +:+ extension +:+ " -> attempting plain text read..."
               +:+ newline) ;;
     stream_file filePath).

(** The body of the loop of [main] for one argument. The [Chunker] lives to
    the end of the body; an exception ends the process. *)
Definition process_file (outputDir filePath : string) (w : World) : outcome unit * World :=
  let w0 := put_cout (newline +:+ "Processing file: " +:+ filePath +:+ newline) w in
  match Chunker_ctor outputDir w0 with
  | (Ret chunker, w1) =>
      match (success <- dispatch filePath (extension_of filePath) ;;
             if success then ret tt
             else log_cerr ("Warning: No content processed from file: " +:+ filePath
                            +:+ newline))
              (chunker, w1) with
      | (Ret _, st) => Chunker_dtor E st
      | (o, (_, w2)) => (o, w2)
      end
  | (o, w1) => (propagate o, w1)
  end.

Fixpoint process_files (outputDir : string) (filePaths : list string) (w : World)
  : outcome unit * World :=
  match filePaths with
  | [] => (Ret tt, w)
  | filePath :: rest =>
      match process_file outputDir filePath w with
      | (Ret _, w') => process_files outputDir rest w'
      | (o, w') => (o, w')
      end
  end.

(** [main] once the output directory exists: the pool is constructed, the
    arguments are processed in order, and the exit code is 0. *)
Definition main_run (bufferCount : Z) (g_outputDir : string) (filePaths : list string)
    (w0 : World) : outcome Z * World :=
  let w1 := put_cout ("Chunks will be written to: " +:+ g_outputDir +:+ newline) w0 in
  let w2 := mkWorld (BufferPool_ctor bufferCount limit) (files w1) (cout w1) (cerr w1)
                    (attempts w1) (Z.to_nat bufferCount) (heap_delete w1) (flushed w1) in
  match process_files g_outputDir filePaths w2 with
  | (Ret _, w3) =>
      (Ret 0, put_cout (newline +:+ "All done. Chunks are located in: " +:+ g_outputDir
                        +:+ newline) w3)
  | (o, w3) => (propagate o, w3)
  end.

(** [main] from the creation of the output directory on, for the arguments
    [argv[1..]] ([argc >= 2]; the help screen of [argc < 2] is left out). The
    pool has [bufferCount] buffers of [limit] bytes: [NUM_BUFFERS] and
    [CHUNK_LIMIT] in the source. The result is the exit code. Before the
    pool is constructed the world holds an empty one. *)
Definition main_from (bufferCount : Z) (filePaths : list string) : outcome Z * World :=
  let g_outputDir := "/tmp/chunked_" +:+ pretty (main_time host) in
  let w0 := mkWorld (mkBufferPool limit []) (disk host) [] [] 0 0 0 [] in
  match mkdir host g_outputDir with
  | mkdir_errno errno =>
      if errno =? EEXIST then
        main_run bufferCount g_outputDir filePaths w0
      else (Ret 1, put_cerr ("Error: Could not create directory: " +:+ g_outputDir +:+ newline) w0)
  | mkdir_ok => main_run bufferCount g_outputDir filePaths w0
  end.

End Callers.

(** [main] with the constants of the source, called with at least one
    argument. *)
Definition main (host : Host) (E : Env) (filePaths : list string) : outcome Z * World :=
  main_from host E CHUNK_LIMIT NUM_BUFFERS filePaths.

(** ** 15. Vocabulary of the properties of the callers *)

(** A computation took a healthy [Chunker] from [st] to [st'] and consumed
    exactly [bytes]: full chunks were emitted, the rest is pending, and the
    pool is as before. *)
Definition pushes (limit : Z) (bytes : list byte) (st st' : State) : Prop :=
  steady limit st'
  ∧ outputDir_ (fst st') = outputDir_ (fst st)
  ∧ freeBuffers_ (pool (snd st')) = freeBuffers_ (pool (snd st))
  ∧ heap_new (snd st') = heap_new (snd st)
  ∧ heap_delete (snd st') = heap_delete (snd st)
  ∧ ∃ new, flushed (snd st') = flushed (snd st) ++ new
           ∧ Forall (full_chunk limit) new
           ∧ concat (fl_bytes <$> new) ++ pending (fst st') = pending (fst st) ++ bytes.

(** The rows of the readable row groups of a Parquet file, as text. *)
Definition table_text (table : Table) : string :=
  foldr (λ row_idx text, render_row (table_columns table) row_idx +:+ text) EmptyString
        (seq 0 (Z.to_nat (num_rows table))).

Fixpoint row_groups_text (row_groups : list (option Table)) : string :=
  match row_groups with
  | [] => EmptyString
  | None :: rest => row_groups_text rest
  | Some table :: rest => table_text table +:+ row_groups_text rest
  end.

(** The bytes [main] feeds to the [Chunker] of an argument: the output of the
    converter, the rendered rows, or the content of the file, by extension;
    nothing when the source cannot be opened. *)
Definition command_bytes (host : Host) (command : string) : list byte :=
  match popen_read host command with
  | Some (pipe, _) => readable pipe
  | None => []
  end.

Definition file_bytes (host : Host) (filePath : string) : list byte :=
  default [] (readable <$> ifstream_open host filePath).

Definition parquet_bytes (host : Host) (filePath : string) : list byte :=
  match parquet_open host filePath with
  | parquet_reader row_groups => list_byte_of_string (row_groups_text row_groups)
  | _ => []
  end.

Definition input_bytes (host : Host) (filePath : string) : list byte :=
  let extension := extension_of filePath in
  if String.eqb extension "pdf"
  then command_bytes host ("pdftotext " +:+ dquote +:+ filePath +:+ dquote +:+ " -")
  else if (String.eqb extension "doc" || String.eqb extension "docx")%bool
  then command_bytes host ("doc2txt " +:+ dquote +:+ filePath +:+ dquote +:+ " -")
  else if String.eqb extension "odt"
  then command_bytes host ("odt2txt --stdout " +:+ dquote +:+ filePath +:+ dquote)
  else if String.eqb extension "rtf"
  then command_bytes host ("unrtf --text " +:+ dquote +:+ filePath +:+ dquote)
  else if String.eqb extension "parquet" then parquet_bytes host filePath
  else file_bytes host filePath.

(** The file of that name, if it opens, reaches its end; so does the output
    of that command, if it starts. *)
Definition reads_to_end (host : Host) (filePath : string) : Prop :=
  ∀ ifs, ifstream_open host filePath = Some ifs → ending ifs = end_of_file.

Definition pipe_ends (host : Host) (command : string) : Prop :=
  ∀ pipe rc, popen_read host command = Some (pipe, rc) → ending pipe = end_of_file.

(** The stream [main] reads for an argument reaches its end: the output of
    the converter or the file, by extension. *)
Definition stream_ends (host : Host) (filePath : string) : Prop :=
  let extension := extension_of filePath in
  if String.eqb extension "pdf"
  then pipe_ends host ("pdftotext " +:+ dquote +:+ filePath +:+ dquote +:+ " -")
  else if (String.eqb extension "doc" || String.eqb extension "docx")%bool
  then pipe_ends host ("doc2txt " +:+ dquote +:+ filePath +:+ dquote +:+ " -")
  else if String.eqb extension "odt"
  then pipe_ends host ("odt2txt --stdout " +:+ dquote +:+ filePath +:+ dquote)
  else if String.eqb extension "rtf"
  then pipe_ends host ("unrtf --text " +:+ dquote +:+ filePath +:+ dquote)
  else if String.eqb extension "parquet" then True
  else reads_to_end host filePath.

(** An argument that [main] can take in: its bytes are fewer than [size_t]
    can count, and the stream they come from reaches its end. *)
Definition input_ok (host : Host) (filePath : string) : Prop :=
  Z.of_nat (length (input_bytes host filePath)) < size_t_modulus
  ∧ stream_ends host filePath.

(** The commands of the host leave the files as they are. *)
Definition commands_keep_files (host : Host) : Prop :=
  ∀ command fs, popen_effect host command fs = fs.

(** Whether an argument ends its stream on a chunk boundary (pushing nothing
    included): such a stream costs the pool a buffer. *)
Definition ends_on_boundary (host : Host) (limit : Z) (filePath : string) : bool :=
  Z.of_nat (length (input_bytes host filePath)) mod limit =? 0.

(** Whether a pool with [free] buffers lasts for the arguments. *)
Fixpoint pool_lasts (host : Host) (limit : Z) (free : nat) (filePaths : list string) : bool :=
  match filePaths with
  | [] => true
  | filePath :: rest =>
      match free with
      | O => false
      | S free' =>
          pool_lasts host limit (if ends_on_boundary host limit filePath then free' else free)
                     rest
      end
  end.

(** The arguments processed before the pool runs out. *)
Fixpoint processed (host : Host) (limit : Z) (free : nat) (filePaths : list string)
  : list string :=
  match filePaths with
  | [] => []
  | filePath :: rest =>
      match free with
      | O => []
      | S free' =>
          filePath
          :: processed host limit (if ends_on_boundary host limit filePath then free' else free)
               rest
      end
  end.

(** The line a finalised chunk leaves on [cout] when its file was written,
    and on [cerr] when the file did not open. *)
Definition cout_line (f : Flushed) : string :=
  "Flushed chunk -> " +:+ fl_name f +:+ " (size: "
  +:+ pretty (Z.of_nat (length (fl_bytes f))) +:+ " bytes)" +:+ newline.

Definition cerr_line (f : Flushed) : string :=
  "Error writing chunk file: " +:+ fl_name f +:+ newline.

(** Between [st] and [st'] the two streams grew by the lines of the chunks
    finalised meanwhile, and by nothing else. *)
Definition reported (st st' : State) : Prop :=
  ∃ new, flushed (snd st') = flushed (snd st) ++ new
         ∧ cout (snd st') = cout (snd st) ++ (cout_line <$> List.filter fl_written new)
         ∧ cerr (snd st')
           = cerr (snd st) ++ (cerr_line <$> List.filter (λ f, negb (fl_written f)) new).

(** A path or an extension without a dot. *)
Definition no_dot (s : string) : bool := string_forallb (λ a, negb (Ascii.eqb a ".")) s.

(** The current buffer, if any, has a [used] that fits [size_t]. *)
Definition used_in_range (c : Chunker) : Prop :=
  ∀ cur, currentBuffer_ c = Some cur → 0 <= used cur < size_t_modulus.

(** ** 16. A concrete host for the examples *)

(** Two readable files (one of them empty), a file whose first read fails, a
    file without end, a converter that prints some text and exits with code
    3, a converter whose output breaks off with a read error, and a Parquet
    file of one readable row group (two rows; a column of one chunk and a
    column without chunks) followed by an unreadable one. Everything else
    cannot be opened. The commands leave the files alone. *)
Definition demo_host : Host :=
  mkHost
    (λ path, if String.eqb path "a.txt"
             then Some (mkIstream (bytes_of "abcdefghijklmno") end_of_file)
             else if String.eqb path "empty.txt" then Some (mkIstream [] end_of_file)
             else if String.eqb path "/tmp" then Some (mkIstream [] read_error)
             else if String.eqb path "/dev/zero" then Some (mkIstream [] (endless (λ _, x00)))
             else None)
    (λ command,
       if String.eqb command ("pdftotext " +:+ dquote +:+ "x.PDF" +:+ dquote +:+ " -")
       then Some (mkIstream (bytes_of "pdf text") end_of_file, 3)
       else if String.eqb command ("unrtf --text " +:+ dquote +:+ "broken.rtf" +:+ dquote)
       then Some (mkIstream (bytes_of "par") read_error, 0)
       else None)
    (λ _ fs, fs)
    (λ path,
       if String.eqb path "t.parquet"
       then parquet_reader
              [Some (mkTable 2 [[[scalar_valid "1"; scalar_null]]; []]); None]
       else parquet_unreadable "IOError")
    (λ _, mkdir_ok) 1700000000 ∅.

(** A host with one file, [precious], on which the shell does what the text
    of a command says: between the double quotes of the converter command it
    still substitutes [$(...)], so that the command made for the argument
    [$(rm precious).rtf] removes the file, prints nothing and exits with
    code 0. *)
Definition shell_host : Host :=
  mkHost
    (λ _, None)
    (λ command,
       if String.eqb command ("unrtf --text " +:+ dquote +:+ "$(rm precious).rtf" +:+ dquote)
       then Some (mkIstream [] end_of_file, 0)
       else None)
    (λ command fs,
       if String.eqb command ("unrtf --text " +:+ dquote +:+ "$(rm precious).rtf" +:+ dquote)
       then delete "precious" fs
       else fs)
    (λ _, parquet_unreadable "IOError")
    (λ _, mkdir_ok) 1700000000 {[ "precious" := bytes_of "data" ]}.

(** As [demo_env], but [EVP_DigestUpdate] fails in every finalisation. *)
Definition faulty_env : Env :=
  mkEnv SHA512.digest (λ _, Some EVP_DigestUpdate_failed) (λ _, 1700000000) (λ _ _, true)
        (λ _ _, None).

(** A [Chunker] that just took the only buffer of a pool of threshold 10. *)
Definition fresh_state : State :=
  (mkChunker "/tmp/chunked_0" (Some (ChunkBuffer_ctor 10)),
   with_pool (BufferPool_ctor 0 10) (World_init 1 10)).

(** * Properties *)

(** ** Arithmetic on [size_t] *)

Lemma size_t_small (z : Z) : 0 <= z < size_t_modulus → size_t z = z.
Proof. intros Hz. unfold size_t. apply Z.mod_small. exact Hz. Qed.

Lemma size_t_range (z : Z) : 0 <= size_t z < size_t_modulus.
Proof. unfold size_t. apply Z.mod_pos_bound. reflexivity. Qed.

Lemma CHUNK_LIMIT_value : CHUNK_LIMIT = 5248000.
Proof. reflexivity. Qed.

Lemma CHUNK_LIMIT_range : 0 < CHUNK_LIMIT < size_t_modulus.
Proof. rewrite CHUNK_LIMIT_value. unfold size_t_modulus. lia. Qed.

(** ** The vector of free buffers *)

Lemma pop_back_snoc {A : Type} (v : list A) (x : A) : pop_back (v ++ [x]) = Some (v, x).
Proof.
  induction v as [|y v IH]; simpl.
  - reflexivity.
  - rewrite IH. reflexivity.
Qed.

Lemma pop_back_None {A : Type} (v : list A) : pop_back v = None ↔ v = [].
Proof.
  destruct v as [|x v]; simpl.
  - split; reflexivity.
  - destruct (pop_back v) as [[front back]|]; split; discriminate.
Qed.

Lemma pop_back_Some {A : Type} (v front : list A) (back : A) :
  pop_back v = Some (front, back) ↔ v = front ++ [back].
Proof.
  split.
  - revert front. induction v as [|x v IH]; intros front; simpl.
    + discriminate.
    + destruct (pop_back v) as [[f b]|] eqn:Hv.
      * intros [= <- <-]. rewrite (IH f eq_refl). reflexivity.
      * intros [= <- <-]. apply pop_back_None in Hv. subst v. reflexivity.
  - intros ->. apply pop_back_snoc.
Qed.

Lemma emplace_buffers_replicate (count : nat) (bufferSize : Z) (free : list ChunkBuffer) :
  emplace_buffers count bufferSize free
  = free ++ replicate count (ChunkBuffer_ctor bufferSize).
Proof.
  revert free. induction count as [|count IH]; intros free; simpl.
  - rewrite app_nil_r. reflexivity.
  - rewrite IH, <- app_assoc. reflexivity.
Qed.

Lemma BufferPool_ctor_length (bufferCount bufferSize : Z) :
  length (freeBuffers_ (BufferPool_ctor bufferCount bufferSize)) = Z.to_nat bufferCount.
Proof.
  unfold BufferPool_ctor. simpl. rewrite emplace_buffers_replicate. simpl.
  apply length_replicate.
Qed.

Lemma acquireBuffer_empty (p : BufferPool) :
  freeBuffers_ p = [] → acquireBuffer p = (Throw "No free chunk buffers available!", p).
Proof. intros Hfree. unfold acquireBuffer. rewrite Hfree. reflexivity. Qed.

Lemma acquireBuffer_back (p : BufferPool) (rest : list ChunkBuffer) (buf : ChunkBuffer) :
  freeBuffers_ p = rest ++ [buf] →
  acquireBuffer p = (Ret (clear buf), mkBufferPool (bufferSize_ p) rest).
Proof. intros Hfree. unfold acquireBuffer. rewrite Hfree, pop_back_snoc. reflexivity. Qed.

(** ** Reading and copying bytes *)

Lemma read_bytes_Some (src : list byte) (n : Z) :
  0 <= n <= Z.of_nat (length src) → read_bytes src n = Some (take (Z.to_nat n) src).
Proof.
  intros [H0 Hn]. unfold read_bytes.
  destruct (Z.leb_spec 0 n); [|lia]. destruct (Z.leb_spec n (Z.of_nat (length src))); [|lia].
  reflexivity.
Qed.

Lemma read_bytes_inv (src : list byte) (n : Z) (bytes : list byte) :
  read_bytes src n = Some bytes →
  0 <= n <= Z.of_nat (length src) ∧ bytes = take (Z.to_nat n) src ∧ Z.of_nat (length bytes) = n.
Proof.
  unfold read_bytes.
  destruct (Z.leb_spec 0 n); [|discriminate].
  destruct (Z.leb_spec n (Z.of_nat (length src))); [|discriminate].
  simpl. intros [= <-]. split; [lia|]. split; [reflexivity|]. rewrite length_take. lia.
Qed.

Lemma memcpy_Some (dst : list byte) (dst_off : Z) (src : list byte) (src_off n : Z) :
  0 <= dst_off → 0 <= src_off → 0 <= n →
  dst_off + n <= Z.of_nat (length dst) → src_off + n <= Z.of_nat (length src) →
  ∃ d, memcpy dst dst_off src src_off n = Some d
       ∧ length d = length dst
       ∧ take (Z.to_nat (dst_off + n)) d
         = take (Z.to_nat dst_off) dst ++ take (Z.to_nat n) (drop (Z.to_nat src_off) src).
Proof.
  intros Hd Hs Hn Hdn Hsn. unfold memcpy.
  destruct (Z.leb_spec 0 dst_off); [|lia]. destruct (Z.leb_spec 0 src_off); [|lia].
  destruct (Z.leb_spec 0 n); [|lia].
  destruct (Z.leb_spec (dst_off + n) (Z.of_nat (length dst))); [|lia].
  destruct (Z.leb_spec (src_off + n) (Z.of_nat (length src))); [|lia].
  simpl. eexists. split; [reflexivity|].
  assert (Hl1 : length (take (Z.to_nat dst_off) dst) = Z.to_nat dst_off)
    by (rewrite length_take; lia).
  assert (Hl2 : length (take (Z.to_nat n) (drop (Z.to_nat src_off) src)) = Z.to_nat n)
    by (rewrite length_take, length_drop; lia).
  split.
  - rewrite !length_app, Hl1, Hl2, length_drop. lia.
  - rewrite app_assoc. rewrite take_app_length'; [reflexivity|].
    rewrite length_app, Hl1, Hl2. lia.
Qed.

(** ** [flushCurrentBuffer] *)

Lemma compute_sha512_ok (E : Env) (n : nat) (bytes : list byte) :
  EVP_fault E n = None → compute_sha512 E n bytes = Ret (hex_of_hash (EVP_sha512 E bytes)).
Proof. intros Hok. unfold compute_sha512. rewrite Hok. reflexivity. Qed.

Lemma compute_sha512_outcome (E : Env) (n : nat) (bytes : list byte) :
  compute_sha512 E n bytes = Ret (hex_of_hash (EVP_sha512 E bytes))
  ∨ ∃ what, compute_sha512 E n bytes = Throw what.
Proof.
  unfold compute_sha512. destruct (EVP_fault E n) as [[]|]; eauto.
Qed.

(** A null current pointer: nothing happens. *)
Lemma flushCurrentBuffer_null (E : Env) (c : Chunker) (w : World) :
  currentBuffer_ c = None → flushCurrentBuffer E (c, w) = (Ret tt, (c, w)).
Proof. intros Hc. unfold flushCurrentBuffer. rewrite Hc. reflexivity. Qed.

(** An empty current buffer: the early return. *)
Lemma flushCurrentBuffer_empty (E : Env) (c : Chunker) (w : World) (cur : ChunkBuffer) :
  currentBuffer_ c = Some cur → used cur = 0 →
  flushCurrentBuffer E (c, w) = (Ret tt, (c, w)).
Proof. intros Hc Hu. unfold flushCurrentBuffer. rewrite Hc, Hu. reflexivity. Qed.

(** A non-empty current buffer: the chunk is finalised. *)
Lemma flushCurrentBuffer_nonempty (E : Env) (c : Chunker) (w : World) (cur : ChunkBuffer) :
  currentBuffer_ c = Some cur → used cur ≠ 0 →
  0 <= used cur <= Z.of_nat (length (data cur)) →
  EVP_fault E (attempts w) = None →
  flushCurrentBuffer E (c, w) = (Ret tt, (mkChunker (outputDir_ c) None, finalised E c cur w)).
Proof.
  intros Hc Hu Hlen Hok. unfold flushCurrentBuffer. rewrite Hc.
  destruct (Z.eqb_spec (used cur) 0) as [|_]; [contradiction|].
  rewrite (read_bytes_Some _ _ Hlen), (compute_sha512_ok _ _ _ Hok).
  reflexivity.
Qed.

Lemma write_chunk_file_pool (E : Env) fname bytes dataLen hashVal now (w : World) :
  pool (write_chunk_file E fname bytes dataLen hashVal now w) = pool w.
Proof. unfold write_chunk_file. destruct (ofs_is_open E (attempts w) fname); reflexivity. Qed.

Lemma write_chunk_file_heap (E : Env) fname bytes dataLen hashVal now (w : World) :
  heap_new (write_chunk_file E fname bytes dataLen hashVal now w) = heap_new w
  ∧ heap_delete (write_chunk_file E fname bytes dataLen hashVal now w) = heap_delete w
  ∧ attempts (write_chunk_file E fname bytes dataLen hashVal now w) = attempts w.
Proof. unfold write_chunk_file. destruct (ofs_is_open E (attempts w) fname); auto. Qed.

Lemma write_chunk_file_flushed (E : Env) fname bytes dataLen hashVal now (w : World) :
  flushed (write_chunk_file E fname bytes dataLen hashVal now w)
  = flushed w ++ [mkFlushed fname hashVal now bytes (ofs_is_open E (attempts w) fname)
                    (ofs_stored E (attempts w) fname bytes)].
Proof. unfold write_chunk_file. destruct (ofs_is_open E (attempts w) fname); reflexivity. Qed.

Lemma finalised_pool (E : Env) (c : Chunker) (cur : ChunkBuffer) (w : World) :
  pool (finalised E c cur w)
  = mkBufferPool (bufferSize_ (pool w)) (freeBuffers_ (pool w) ++ [clear cur]).
Proof. unfold finalised. simpl. rewrite write_chunk_file_pool. reflexivity. Qed.

Lemma finalised_heap (E : Env) (c : Chunker) (cur : ChunkBuffer) (w : World) :
  heap_new (finalised E c cur w) = heap_new w
  ∧ heap_delete (finalised E c cur w) = heap_delete w
  ∧ attempts (finalised E c cur w) = S (attempts w).
Proof.
  unfold finalised. simpl.
  destruct (write_chunk_file_heap E
              (chunk_file_name (outputDir_ c) (hex_of_hash (EVP_sha512 E (content cur)))
                 (std_time E (attempts w)))
              (content cur) (used cur) (hex_of_hash (EVP_sha512 E (content cur)))
              (std_time E (attempts w)) w) as (-> & -> & ->).
  auto.
Qed.

Lemma finalised_flushed (E : Env) (c : Chunker) (cur : ChunkBuffer) (w : World) :
  ∃ f, flushed (finalised E c cur w) = flushed w ++ [f]
       ∧ fl_bytes f = content cur
       ∧ fl_digest f = hex_of_hash (EVP_sha512 E (content cur))
       ∧ fl_time f = std_time E (attempts w)
       ∧ fl_name f = chunk_file_name (outputDir_ c) (fl_digest f) (fl_time f)
       ∧ fl_written f = ofs_is_open E (attempts w) (fl_name f)
       ∧ fl_stored f = ofs_stored E (attempts w) (fl_name f) (content cur).
Proof.
  unfold finalised. simpl. rewrite write_chunk_file_flushed.
  eexists. split; [reflexivity|]. simpl. auto 10.
Qed.

(** ** One iteration of [pushData] *)

Lemma acquire_currentBuffer_null (c : Chunker) (w : World) (rest : list ChunkBuffer)
    (buf : ChunkBuffer) :
  currentBuffer_ c = None → freeBuffers_ (pool w) = rest ++ [buf] →
  acquire_currentBuffer (c, w)
  = (Ret tt, (mkChunker (outputDir_ c) (Some (clear buf)),
              with_pool (mkBufferPool (bufferSize_ (pool w)) rest) w)).
Proof.
  intros Hc Hfree. unfold acquire_currentBuffer.
  rewrite (acquireBuffer_back _ _ _ Hfree), Hc. reflexivity.
Qed.

(** A full buffer is finalised and comes straight back from the pool. *)
Lemma flush_acquire_nonempty (E : Env) (c : Chunker) (w : World) (cur : ChunkBuffer) :
  currentBuffer_ c = Some cur → used cur ≠ 0 →
  0 <= used cur <= Z.of_nat (length (data cur)) →
  EVP_fault E (attempts w) = None →
  (flushCurrentBuffer E ;; acquire_currentBuffer) (c, w)
  = (Ret tt, (mkChunker (outputDir_ c) (Some (clear (clear cur))),
              with_pool (pool w) (finalised E c cur w))).
Proof.
  intros Hc Hu Hlen Hok. unfold bind.
  rewrite (flushCurrentBuffer_nonempty E c w cur Hc Hu Hlen Hok).
  rewrite (acquire_currentBuffer_null _ _ (freeBuffers_ (pool w)) (clear cur));
    [| reflexivity | rewrite finalised_pool; reflexivity].
  unfold with_pool. rewrite finalised_pool. simpl. destruct (pool w); reflexivity.
Qed.

Lemma append_currentBuffer_ok (c : Chunker) (w : World) (cur : ChunkBuffer)
    (input : list byte) (offset n : Z) :
  currentBuffer_ c = Some cur →
  0 <= used cur → 0 <= offset → 0 <= n →
  used cur + n <= Z.of_nat (length (data cur)) →
  offset + n <= Z.of_nat (length input) →
  used cur + n < size_t_modulus →
  ∃ d, append_currentBuffer input offset n (c, w)
       = (Ret tt, (mkChunker (outputDir_ c)
                     (Some (mkChunkBuffer d (capacity cur) (used cur + n))), w))
       ∧ length d = length (data cur)
       ∧ take (Z.to_nat (used cur + n)) d
         = content cur ++ take (Z.to_nat n) (drop (Z.to_nat offset) input).
Proof.
  intros Hc Hu Ho Hn Hdst Hsrc Hmod.
  destruct (memcpy_Some (data cur) (used cur) input offset n Hu Ho Hn Hdst Hsrc)
    as (d & Hcpy & Hlen & Htake).
  exists d. unfold append_currentBuffer. rewrite Hc, Hcpy.
  rewrite size_t_small by lia. auto.
Qed.

Lemma take_take_drop_Z {A : Type} (l : list A) (a b : Z) :
  0 <= a → 0 <= b →
  take (Z.to_nat a) l ++ take (Z.to_nat b) (drop (Z.to_nat a) l) = take (Z.to_nat (a + b)) l.
Proof.
  intros Ha Hb. rewrite Z2Nat.inj_add by assumption. apply take_take_drop.
Qed.

(** ** The loop of [pushData] on a healthy stream *)

Section Healthy.
Context (E : Env) (limit : Z).
Hypothesis limit_range : 0 < limit < size_t_modulus.
Hypothesis evp_ok : EVP_ok E.

Lemma pushData_loop_steady (input : list byte) (len : Z) :
  0 <= len < size_t_modulus → len <= Z.of_nat (length input) →
  ∀ (budget : nat) (offset : Z) (c : Chunker) (w : World),
    0 <= offset <= len →
    (Z.to_nat (len - offset) < budget)%nat →
    steady limit (c, w) →
    ∃ c' w' new,
      pushData_loop E limit budget input len offset (c, w) = (Ret tt, (c', w'))
      ∧ steady limit (c', w')
      ∧ outputDir_ c' = outputDir_ c
      ∧ flushed w' = flushed w ++ new
      ∧ Forall (full_chunk limit) new
      ∧ concat (fl_bytes <$> new) ++ pending c'
        = pending c ++ take (Z.to_nat (len - offset)) (drop (Z.to_nat offset) input)
      ∧ freeBuffers_ (pool w') = freeBuffers_ (pool w)
      ∧ heap_new w' = heap_new w
      ∧ heap_delete w' = heap_delete w.
Proof.
  intros Hlen Hinput budget.
  induction budget as [|budget IH]; intros offset c w Hoff Hbudget Hsteady; [lia|].
  destruct Hsteady as (cur & Hc & Hused & Hbuf & Hpool). simpl in Hc, Hpool.
  cbn [pushData_loop].
  destruct (Z.ltb_spec offset len) as [Hlt|Hge].
  2:{ (* all of the input is consumed *)
    exists c, w, []. replace (len - offset) with 0 by lia.
    split; [reflexivity|]. split; [exists cur; auto|]. split; [reflexivity|].
    split; [symmetry; apply app_nil_r|]. split; [constructor|].
    split; [simpl; symmetry; apply app_nil_r|]. auto. }
  unfold bind at 1. unfold deref_currentBuffer at 1. rewrite Hc.
  rewrite (size_t_small (limit - used cur)) by lia.
  destruct (Z.eqb_spec (limit - used cur) 0) as [|_]; [lia|].
  rewrite (size_t_small (len - offset)) by lia.
  set (toWrite := Z.min (limit - used cur) (len - offset)).
  assert (HtoWrite : 0 < toWrite ∧ toWrite <= limit - used cur ∧ toWrite <= len - offset)
    by (unfold toWrite; lia).
  unfold buffer_ok in Hbuf.
  destruct (append_currentBuffer_ok c w cur input offset toWrite Hc)
    as (d & Happ & Hd & Htake); try lia.
  unfold bind at 1. rewrite Happ.
  rewrite (size_t_small (offset + toWrite)) by lia.
  set (cur1 := mkChunkBuffer d (capacity cur) (used cur + toWrite)) in *.
  set (c1 := mkChunker (outputDir_ c) (Some cur1)) in *.
  unfold bind at 1. unfold deref_currentBuffer at 1. cbn [currentBuffer_ c1].
  assert (Hcontent1 : content cur1
                      = content cur ++ take (Z.to_nat toWrite) (drop (Z.to_nat offset) input))
    by exact Htake.
  assert (Hsplit : take (Z.to_nat toWrite) (drop (Z.to_nat offset) input)
                   ++ take (Z.to_nat (len - (offset + toWrite)))
                        (drop (Z.to_nat (offset + toWrite)) input)
                   = take (Z.to_nat (len - offset)) (drop (Z.to_nat offset) input)).
  { rewrite (Z2Nat.inj_add offset toWrite) by lia.
    rewrite <- drop_drop, take_take_drop_Z by lia.
    f_equal. f_equal. lia. }
  cbn [used cur1].
  destruct (Z.leb_spec limit (used cur + toWrite)) as [Hfull|Hroom].
  - (* the buffer is full: finalise it and take the next one *)
    assert (Hflush := flush_acquire_nonempty E c1 w cur1 eq_refl).
    cbn [used data cur1 c1 outputDir_] in Hflush.
    specialize (Hflush ltac:(lia) ltac:(lia) (evp_ok _)).
    unfold bind at 1.
    change (bind (flushCurrentBuffer E) (λ _ : (), acquire_currentBuffer) (c1, w))
      with ((flushCurrentBuffer E ;; acquire_currentBuffer) (c1, w)) in Hflush.
    unfold bind in Hflush at 1.
    destruct (flushCurrentBuffer E (c1, w)) as [[] st1] eqn:Hfl; try discriminate Hflush.
    unfold bind at 1. rewrite Hflush.
    set (c2 := mkChunker (outputDir_ c) (Some (clear (clear cur1)))) in *.
    set (w2 := with_pool (pool w) (finalised E c1 cur1 w)) in *.
    destruct (finalised_flushed E c1 cur1 w) as (f & Hf & Hfb & _).
    destruct (finalised_heap E c1 cur1 w) as (Hnew & Hdel & _).
    destruct (IH (offset + toWrite) c2 w2) as (c' & w' & new & Hrun & Hst & Hdir & Hfl' & Hall & Hcat & Hfree & Hn' & Hd');
      [lia | lia | |].
    { exists (clear (clear cur1)). simpl. repeat split; try lia; try assumption.
      unfold buffer_ok. simpl. lia. }
    exists c', w', (f :: new). rewrite Hrun.
    repeat split; try assumption.
    + rewrite Hfl'. change (flushed w2) with (flushed (finalised E c1 cur1 w)).
      rewrite Hf, <- app_assoc. reflexivity.
    + constructor; [|assumption]. unfold full_chunk. rewrite Hfb.
      unfold content. rewrite length_take. simpl. lia.
    + rewrite fmap_cons. cbn [concat]. rewrite <- app_assoc, Hcat, Hfb, Hcontent1.
      change (pending c2) with (@nil byte). cbn [app].
      replace (pending c) with (content cur) by (unfold pending; rewrite Hc; reflexivity).
      rewrite <- app_assoc, Hsplit. reflexivity.
    + rewrite Hn'. exact Hnew.
    + rewrite Hd'. exact Hdel.
  - (* room is left: the loop goes on with the same buffer *)
    destruct (IH (offset + toWrite) c1 w) as (c' & w' & new & Hrun & Hst & Hdir & Hfl' & Hall & Hcat & Hfree & Hn' & Hd');
      [lia | lia | |].
    { exists cur1. simpl. repeat split; try lia; try assumption.
      unfold buffer_ok. simpl. lia. }
    exists c', w', new. rewrite Hrun.
    repeat split; try assumption.
    rewrite Hcat. unfold pending at 1. simpl. rewrite Hcontent1.
    replace (pending c) with (content cur) by (unfold pending; rewrite Hc; reflexivity).
    rewrite <- app_assoc, Hsplit. reflexivity.
Qed.

End Healthy.

(** ** Segments of a stream *)

Lemma segments_full_then_rest (n : nat) (full : list (list byte)) (rest : list byte)
    (budget : nat) :
  (0 < n)%nat →
  Forall (λ chunk, length chunk = n) full →
  (length rest < n)%nat →
  (length (concat full ++ rest) <= budget)%nat →
  segments budget n (concat full ++ rest)
  = full ++ match rest with [] => [] | _ => [rest] end.
Proof.
  intros Hn Hfull Hrest. revert budget.
  induction Hfull as [|chunk full Hchunk Hfull IH]; intros budget Hbudget.
  - simpl in *. destruct budget as [|budget].
    + destruct rest; [reflexivity | simpl in Hbudget; lia].
    + destruct rest as [|b rest]; [reflexivity|].
      cbn [segments]. rewrite take_ge by lia. rewrite drop_ge by lia.
      destruct budget; reflexivity.
  - cbn [concat] in *. rewrite <- app_assoc in *.
    rewrite length_app in Hbudget.
    destruct budget as [|budget]; [lia|].
    cbn [segments].
    destruct (chunk ++ concat full ++ rest) as [|b l] eqn:Hl.
    { apply (f_equal length) in Hl. rewrite length_app in Hl. simpl in Hl. lia. }
    rewrite <- Hl.
    assert (Htake : take n (chunk ++ concat full ++ rest) = chunk)
      by (rewrite <- Hchunk; apply take_app_length).
    assert (Hdrop : drop n (chunk ++ concat full ++ rest) = concat full ++ rest)
      by (rewrite <- Hchunk; apply drop_app_length).
    rewrite Htake, Hdrop, IH by lia. reflexivity.
Qed.

Lemma expected_chunks_unique (limit : Z) (full : list (list byte)) (rest : list byte) :
  0 < limit →
  Forall (λ chunk, Z.of_nat (length chunk) = limit) full →
  Z.of_nat (length rest) < limit →
  expected_chunks limit (concat full ++ rest)
  = full ++ match rest with [] => [] | _ => [rest] end.
Proof.
  intros Hlimit Hfull Hrest. unfold expected_chunks.
  apply segments_full_then_rest; [lia | | lia | lia].
  eapply Forall_impl; [exact Hfull|]. simpl. intros chunk Hc. lia.
Qed.

Lemma concat_segments (n budget : nat) (s : list byte) :
  (0 < n)%nat → (length s <= budget)%nat → concat (segments budget n s) = s.
Proof.
  intros Hn. revert s. induction budget as [|budget IH]; intros s Hs.
  - destruct s; [reflexivity | simpl in Hs; lia].
  - destruct s as [|b s]; [reflexivity|].
    cbn [segments concat]. rewrite IH.
    + apply take_drop.
    + rewrite length_drop. simpl in *. lia.
Qed.

Lemma segments_lengths (n budget : nat) (s : list byte) :
  (0 < n)%nat → (length s <= budget)%nat →
  ∀ i chunk, segments budget n s !! i = Some chunk →
    (0 < length chunk <= n)%nat
    ∧ (S i < length (segments budget n s) → length chunk = n)%nat.
Proof.
  intros Hn. revert s. induction budget as [|budget IH]; intros s Hs i chunk Hi.
  - destruct s; discriminate Hi.
  - destruct s as [|b s]; [discriminate Hi|].
    cbn [segments] in *. destruct i as [|i].
    + injection Hi as <-. rewrite length_take. split; [simpl; lia|].
      intros Hmore. cbn [length] in Hmore.
      destruct (segments budget n (drop n (b :: s))) as [|x xs] eqn:Hseg;
        [simpl in Hmore; lia|].
      destruct (decide (n <= length (b :: s))%nat) as [|Hshort]; [lia|].
      rewrite drop_ge in Hseg by lia. destruct budget; discriminate Hseg.
    + simpl in Hi. destruct (IH (drop n (b :: s)) ltac:(rewrite length_drop; simpl in *; lia) i chunk Hi)
        as [H1 H2].
      split; [exact H1|]. intros Hmore. apply H2. simpl in Hmore. lia.
Qed.

(** ** A healthy stream from construction to destruction *)

Section HealthyStream.
Context (E : Env) (limit : Z).
Hypothesis limit_range : 0 < limit < size_t_modulus.
Hypothesis evp_ok : EVP_ok E.

Lemma pushData_steady (input : list byte) (c : Chunker) (w : World) :
  Z.of_nat (length input) < size_t_modulus →
  steady limit (c, w) →
  ∃ c' w' new,
    pushData E limit input (Z.of_nat (length input)) (c, w) = (Ret tt, (c', w'))
    ∧ steady limit (c', w')
    ∧ outputDir_ c' = outputDir_ c
    ∧ flushed w' = flushed w ++ new
    ∧ Forall (full_chunk limit) new
    ∧ concat (fl_bytes <$> new) ++ pending c' = pending c ++ input
    ∧ freeBuffers_ (pool w') = freeBuffers_ (pool w)
    ∧ heap_new w' = heap_new w
    ∧ heap_delete w' = heap_delete w.
Proof.
  intros Hlen Hsteady. unfold pushData.
  rewrite (size_t_small (Z.of_nat (length input))) by lia.
  destruct (pushData_loop_steady E limit limit_range evp_ok input (Z.of_nat (length input))
              ltac:(lia) ltac:(lia)
              (pushData_budget (Z.of_nat (length input)) (c, w)) 0 c w)
    as (c' & w' & new & Hrun & Hrest); [lia | unfold pushData_budget; lia | exact Hsteady |].
  exists c', w', new. split; [exact Hrun|].
  rewrite Z.sub_0_r, Nat2Z.id in Hrest. change (Z.to_nat 0) with 0%nat in Hrest.
  rewrite drop_0, firstn_all in Hrest. exact Hrest.
Qed.

Lemma pushData_all_steady (blocks : list (list byte)) :
  Forall (λ block, Z.of_nat (length block) < size_t_modulus) blocks →
  ∀ (c : Chunker) (w : World),
    steady limit (c, w) →
    ∃ c' w' new,
      pushData_all E limit blocks (c, w) = (Ret tt, (c', w'))
      ∧ steady limit (c', w')
      ∧ outputDir_ c' = outputDir_ c
      ∧ flushed w' = flushed w ++ new
      ∧ Forall (full_chunk limit) new
      ∧ concat (fl_bytes <$> new) ++ pending c' = pending c ++ concat blocks
      ∧ freeBuffers_ (pool w') = freeBuffers_ (pool w)
      ∧ heap_new w' = heap_new w
      ∧ heap_delete w' = heap_delete w.
Proof.
  induction 1 as [|block blocks Hblock Hblocks IH]; intros c w Hsteady.
  - exists c, w, []. simpl. rewrite !app_nil_r. auto 10.
  - destruct (pushData_steady block c w Hblock Hsteady)
      as (c1 & w1 & new1 & Hrun1 & Hst1 & Hdir1 & Hfl1 & Hall1 & Hcat1 & Hfree1 & Hn1 & Hd1).
    destruct (IH c1 w1 Hst1)
      as (c2 & w2 & new2 & Hrun2 & Hst2 & Hdir2 & Hfl2 & Hall2 & Hcat2 & Hfree2 & Hn2 & Hd2).
    exists c2, w2, (new1 ++ new2). cbn [pushData_all]. unfold bind. rewrite Hrun1, Hrun2.
    repeat split; try assumption; try congruence.
    + rewrite Hfl2, Hfl1, app_assoc. reflexivity.
    + apply Forall_app. auto.
    + rewrite fmap_app, concat_app, <- app_assoc, Hcat2, app_assoc, Hcat1, <- app_assoc.
      reflexivity.
Qed.

Lemma Chunker_ctor_ok (outputDir : string) (w : World) (rest : list ChunkBuffer)
    (buf : ChunkBuffer) :
  freeBuffers_ (pool w) = rest ++ [buf] →
  Chunker_ctor outputDir w
  = (Ret (mkChunker outputDir (Some (clear buf))),
     with_pool (mkBufferPool (bufferSize_ (pool w)) rest) w).
Proof.
  intros Hfree. unfold Chunker_ctor. rewrite (acquireBuffer_back _ _ _ Hfree). reflexivity.
Qed.

(** The destructor on a steady state: whatever is pending becomes the last
    chunk and the buffer goes back to the pool; with nothing pending no chunk
    is written and the buffer is deleted instead. *)
Lemma Chunker_dtor_steady (c : Chunker) (w : World) :
  steady limit (c, w) →
  ∃ w' last,
    Chunker_dtor E (c, w) = (Ret tt, w')
    ∧ flushed w' = flushed w ++ last
    ∧ fl_bytes <$> last = match pending c with [] => [] | _ => [pending c] end
    ∧ Z.of_nat (length (pending c)) < limit
    ∧ heap_new w' = heap_new w
    ∧ pool_ok limit w'
    ∧ (pending c = [] →
       freeBuffers_ (pool w') = freeBuffers_ (pool w)
       ∧ heap_delete w' = S (heap_delete w))
    ∧ (pending c ≠ [] →
       length (freeBuffers_ (pool w')) = S (length (freeBuffers_ (pool w)))
       ∧ heap_delete w' = heap_delete w).
Proof.
  intros (cur & Hc & Hused & Hbuf & Hpool). simpl in Hc, Hpool.
  unfold buffer_ok in Hbuf.
  assert (Hlen : length (content cur) = Z.to_nat (used cur))
    by (unfold content; rewrite length_take; lia).
  assert (Hpend : pending c = content cur) by (unfold pending; rewrite Hc; reflexivity).
  unfold Chunker_dtor.
  destruct (Z.eq_dec (used cur) 0) as [Hzero|Hpos].
  - rewrite (flushCurrentBuffer_empty E c w cur Hc Hzero), Hc.
    assert (Hnil : pending c = [])
      by (rewrite Hpend; apply length_zero_iff_nil; lia).
    exists (unique_ptr_dtor (Some cur) w), []. rewrite Hnil, app_nil_r. simpl.
    repeat split; auto; try lia; contradiction.
  - rewrite (flushCurrentBuffer_nonempty E c w cur Hc Hpos ltac:(lia) (evp_ok _)).
    cbn [currentBuffer_ unique_ptr_dtor].
    destruct (finalised_flushed E c cur w) as (f & Hf & Hfb & _).
    destruct (finalised_heap E c cur w) as (Hnew & Hdel & _).
    assert (Hne : pending c ≠ []).
    { rewrite Hpend. intros Hnil. apply (f_equal length) in Hnil. simpl in Hnil. lia. }
    exists (finalised E c cur w), [f]. rewrite Hf.
    split; [reflexivity|]. split; [reflexivity|].
    split; [simpl; rewrite Hfb, <- Hpend; destruct (pending c); [contradiction|reflexivity]|].
    split; [rewrite Hpend; lia|]. split; [exact Hnew|].
    split.
    { unfold pool_ok. rewrite finalised_pool. simpl.
      apply Forall_app. split; [exact Hpool|]. constructor; [exact Hbuf | constructor]. }
    split; [intros Hnil; contradiction|].
    intros _. split; [|exact Hdel].
    rewrite finalised_pool. simpl. rewrite length_app. simpl. lia.
Qed.

End HealthyStream.

Lemma nonempty_snoc {A : Type} (v : list A) : v ≠ [] → ∃ front back, v = front ++ [back].
Proof.
  intros Hne. destruct (pop_back v) as [[front back]|] eqn:Hpop.
  - exists front, back. apply pop_back_Some. exact Hpop.
  - apply pop_back_None in Hpop. contradiction.
Qed.

Lemma emitted_since_app (w w' : World) (new : list Flushed) :
  flushed w' = flushed w ++ new → emitted_since w w' = new.
Proof. intros Hfl. unfold emitted_since. rewrite Hfl. apply drop_app_length. Qed.

(** What one healthy stream does to the world. *)
Lemma process_stream_healthy (E : Env) (limit : Z) (outputDir : string)
    (blocks : list (list byte)) (w : World) :
  0 < limit < size_t_modulus → EVP_ok E →
  pool_ok limit w → freeBuffers_ (pool w) ≠ [] →
  Forall (λ block, Z.of_nat (length block) < size_t_modulus) blocks →
  ∃ w', process_stream E limit outputDir blocks w = (Ret tt, w')
        ∧ flushed w' = flushed w ++ emitted_since w w'
        ∧ fl_bytes <$> emitted_since w w' = expected_chunks limit (concat blocks)
        ∧ heap_new w' = heap_new w
        ∧ (free_count w' + heap_delete w' = free_count w + heap_delete w)%nat
        ∧ pool_ok limit w'
        ∧ heap_delete w'
          = (if decide (Z.of_nat (length (concat blocks)) mod limit = 0)
             then S (heap_delete w) else heap_delete w).
Proof.
  intros Hlimit Hevp Hpool Hfree Hblocks.
  destruct (nonempty_snoc _ Hfree) as (rest & buf & Hsnoc).
  unfold pool_ok in Hpool. rewrite Hsnoc in Hpool.
  apply Forall_app in Hpool as [Hrest Hbuf]. apply Forall_inv in Hbuf.
  unfold process_stream. rewrite (Chunker_ctor_ok outputDir w rest buf Hsnoc).
  set (c0 := mkChunker outputDir (Some (clear buf))).
  set (w0 := with_pool (mkBufferPool (bufferSize_ (pool w)) rest) w).
  assert (Hsteady : steady limit (c0, w0)).
  { exists (clear buf). split; [reflexivity|]. split; [simpl; lia|].
    split; [exact Hbuf | exact Hrest]. }
  destruct (pushData_all_steady E limit Hlimit Hevp blocks Hblocks c0 w0 Hsteady)
    as (c1 & w1 & new & Hrun & Hst1 & _ & Hfl1 & Hall & Hcat & Hfree1 & Hn1 & Hd1).
  rewrite Hrun.
  destruct (Chunker_dtor_steady E limit Hlimit Hevp c1 w1 Hst1)
    as (w2 & last & Hdtor & Hfl2 & Hlast & Hshort & Hn2 & Hpool2 & Hempty & Hnonempty).
  exists w2. split; [exact Hdtor|].
  assert (Hfl : flushed w2 = flushed w ++ (new ++ last))
    by (rewrite Hfl2, Hfl1, <- app_assoc; reflexivity).
  rewrite (emitted_since_app w w2 _ Hfl).
  split; [exact Hfl|]. split.
  - rewrite fmap_app, Hlast. change (pending c0) with (@nil byte) in Hcat.
    rewrite app_nil_l in Hcat. rewrite <- Hcat.
    symmetry. apply expected_chunks_unique; [lia | | exact Hshort].
    apply Forall_fmap. exact Hall.
  - split; [rewrite Hn2, Hn1; reflexivity|]. unfold free_count.
    change (freeBuffers_ (pool w0)) with rest in Hfree1.
    change (heap_delete w0) with (heap_delete w) in Hd1.
    rewrite Hsnoc, length_app. simpl.
    assert (Hsum : Z.of_nat (length (concat blocks))
                   = limit * Z.of_nat (length new) + Z.of_nat (length (pending c1))).
    { change (pending c0) with (@nil byte) in Hcat. rewrite app_nil_l in Hcat.
      rewrite <- Hcat, length_app, Nat2Z.inj_add. f_equal.
      clear -Hall. induction Hall as [|f new Hf Hall IH]; [simpl; lia|].
      rewrite fmap_cons. cbn [concat length]. rewrite length_app, Nat2Z.inj_add, IH.
      unfold full_chunk in Hf. lia. }
    assert (Hmod : Z.of_nat (length (concat blocks)) mod limit
                   = Z.of_nat (length (pending c1))).
    { rewrite Hsum, Z.add_comm, Z.mul_comm, Z.mod_add by lia.
      apply Z.mod_small. lia. }
    destruct (pending c1) as [|b l] eqn:Hp.
    + destruct (Hempty eq_refl) as [Hf2 Hd2]. rewrite Hf2, Hd2, Hfree1, Hd1.
      split; [lia|]. split; [exact Hpool2|].
      destruct (decide _) as [|Hne]; [reflexivity|]. simpl in Hmod. lia.
    + destruct (Hnonempty ltac:(discriminate)) as [Hf2 Hd2]. rewrite Hf2, Hd2, Hfree1, Hd1.
      split; [lia|]. split; [exact Hpool2|].
      destruct (decide _) as [Heq|]; [|reflexivity]. simpl in Hmod. lia.
Qed.

(** A healthy stream gives its buffer back to the pool unless it ends on a
    chunk boundary (which includes pushing nothing at all): then the buffer it
    holds at the end is deleted and the pool is one buffer short. *)
Lemma stream_buffer_balance (E : Env) (limit : Z) (outputDir : string)
    (blocks : list (list byte)) (w : World) :
  0 < limit < size_t_modulus → EVP_ok E →
  pool_ok limit w → freeBuffers_ (pool w) ≠ [] →
  Forall (λ block, Z.of_nat (length block) < size_t_modulus) blocks →
  ∃ w', process_stream E limit outputDir blocks w = (Ret tt, w')
        ∧ if decide (Z.of_nat (length (concat blocks)) mod limit = 0)
          then (free_count w' + 1 = free_count w)%nat ∧ heap_delete w' = S (heap_delete w)
          else free_count w' = free_count w ∧ heap_delete w' = heap_delete w.
Proof.
  intros Hlimit Hevp Hpool Hfree Hblocks.
  destruct (process_stream_healthy E limit outputDir blocks w Hlimit Hevp Hpool Hfree Hblocks)
    as (w' & Hrun & _ & _ & _ & Hacc & _ & Hdel).
  exists w'. split; [exact Hrun|].
  destruct (decide _); split; try exact Hdel; lia.
Qed.

Lemma concat_expected_chunks (limit : Z) (s : list byte) :
  0 < limit → concat (expected_chunks limit s) = s.
Proof. intros Hl. unfold expected_chunks. apply concat_segments; lia. Qed.

(** ** The scenarios of the specification, threshold 10 *)

Example scenario_exact_fill :
  let st := pushData demo_env 10 (bytes_of "abcdefghij") 10
              (mkChunker "/tmp/chunked_0" (Some (ChunkBuffer_ctor 10)),
               with_pool (BufferPool_ctor 0 10) (World_init 1 10)) in
  fst st = Ret tt
  ∧ fl_bytes <$> flushed (snd (snd st)) = [bytes_of "abcdefghij"]
  ∧ used <$> currentBuffer_ (fst (snd st)) = Some 0.
Proof. repeat split; vm_compute; reflexivity. Qed.

Example scenario_two_pushes :
  let r := process_stream demo_env 10 "/tmp/chunked_0"
             [bytes_of "abc"; bytes_of "defghijklmno"] (World_init 1 10) in
  fst r = Ret tt
  ∧ fl_bytes <$> flushed (snd r) = [bytes_of "abcdefghij"; bytes_of "klmno"].
Proof. split; vm_compute; reflexivity. Qed.

Example scenario_zero_length_push (c : Chunker) (w : World) :
  pushData demo_env 10 [] 0 (c, w) = (Ret tt, (c, w)).
Proof. reflexivity. Qed.

(** The digest of the examples on the test vector of FIPS 180-4. *)
Example sha512_abc :
  compute_sha512 demo_env 0 (bytes_of "abc")
  = Ret ("ddaf35a193617abacc417349ae20413112e6fa4e89a97ea20a9eeee64b55d39a"
         +:+ "2192992a274fc1a836ba3c23a3feebbd454d4423643ce80e2a9ac94fa54ca49f").
Proof. vm_compute. reflexivity. Qed.

Example sha512_empty :
  compute_sha512 demo_env 0 []
  = Ret ("cf83e1357eefb8bdf1542850d66d8007d620e4050b5715dc83f4a921d36ce9ce"
         +:+ "47d0d13c5d85f2b0ff8318d2877eec2f63b931bd47417a81a538327af927da3e").
Proof. vm_compute. reflexivity. Qed.

Lemma sha512_digest_length (msg : list byte) : length (SHA512.digest msg) = 64%nat.
Proof. reflexivity. Qed.

(** ** The primitives on arbitrary states *)

Lemma with_pool_id (w : World) : with_pool (pool w) w = w.
Proof. destruct w; reflexivity. Qed.

Lemma flushCurrentBuffer_cases (E : Env) (c : Chunker) (w : World) :
  (flushCurrentBuffer E (c, w) = (Ret tt, (c, w))
   ∧ (currentBuffer_ c = None ∨ ∃ cur, currentBuffer_ c = Some cur ∧ used cur = 0))
  ∨ (∃ cur, currentBuffer_ c = Some cur ∧ used cur ≠ 0
            ∧ flushCurrentBuffer E (c, w) = (Undefined, (c, w)))
  ∨ (∃ cur what, currentBuffer_ c = Some cur ∧ used cur ≠ 0
                 ∧ flushCurrentBuffer E (c, w) = (Throw what, (c, with_attempt w)))
  ∨ (∃ cur, currentBuffer_ c = Some cur ∧ used cur ≠ 0
            ∧ 0 <= used cur <= Z.of_nat (length (data cur))
            ∧ EVP_fault E (attempts w) = None
            ∧ flushCurrentBuffer E (c, w)
              = (Ret tt, (mkChunker (outputDir_ c) None, finalised E c cur w))).
Proof.
  destruct (currentBuffer_ c) as [cur|] eqn:Hc.
  2:{ left. rewrite (flushCurrentBuffer_null E c w Hc). auto. }
  destruct (Z.eq_dec (used cur) 0) as [Hzero|Hpos].
  { left. rewrite (flushCurrentBuffer_empty E c w cur Hc Hzero). eauto. }
  right. destruct (read_bytes (data cur) (used cur)) as [bytes|] eqn:Hread.
  2:{ left. exists cur. unfold flushCurrentBuffer. rewrite Hc, Hread.
      destruct (Z.eqb_spec (used cur) 0); [contradiction|]. auto. }
  right. apply read_bytes_inv in Hread as (Hlen & _ & _).
  destruct (EVP_fault E (attempts w)) as [fault|] eqn:Hfault.
  - left. unfold flushCurrentBuffer. rewrite Hc, (read_bytes_Some _ _ Hlen).
    destruct (Z.eqb_spec (used cur) 0); [contradiction|].
    unfold compute_sha512. rewrite Hfault. exists cur. destruct fault; eauto.
  - right. exists cur.
    rewrite (flushCurrentBuffer_nonempty E c w cur Hc Hpos Hlen Hfault). auto.
Qed.

Lemma acquire_currentBuffer_cases (c : Chunker) (w : World) :
  (freeBuffers_ (pool w) = []
   ∧ acquire_currentBuffer (c, w) = (Throw "No free chunk buffers available!", (c, w)))
  ∨ (∃ rest buf, freeBuffers_ (pool w) = rest ++ [buf]
       ∧ acquire_currentBuffer (c, w)
         = (Ret tt, (mkChunker (outputDir_ c) (Some (clear buf)),
                     unique_ptr_dtor (currentBuffer_ c)
                       (with_pool (mkBufferPool (bufferSize_ (pool w)) rest) w)))).
Proof.
  destruct (freeBuffers_ (pool w)) as [|b l] eqn:Hfree.
  - left. split; [reflexivity|]. unfold acquire_currentBuffer.
    rewrite (acquireBuffer_empty _ Hfree). simpl. rewrite with_pool_id. reflexivity.
  - right. destruct (nonempty_snoc (b :: l) ltac:(discriminate)) as (rest & buf & Hsnoc).
    exists rest, buf. split; [exact Hsnoc|]. rewrite Hsnoc in Hfree.
    unfold acquire_currentBuffer. rewrite (acquireBuffer_back _ _ _ Hfree). reflexivity.
Qed.

Lemma append_currentBuffer_cases (input : list byte) (offset n : Z) (c : Chunker) (w : World) :
  append_currentBuffer input offset n (c, w) = (Undefined, (c, w))
  ∨ ∃ cur d, currentBuffer_ c = Some cur
             ∧ append_currentBuffer input offset n (c, w)
               = (Ret tt, (mkChunker (outputDir_ c)
                             (Some (mkChunkBuffer d (capacity cur) (size_t (used cur + n)))),
                           w)).
Proof.
  unfold append_currentBuffer. destruct (currentBuffer_ c) as [cur|]; [|auto].
  destruct (memcpy (data cur) (used cur) input offset n) as [d|]; [|auto].
  right. eauto.
Qed.

Lemma deref_currentBuffer_cases (c : Chunker) (w : World) :
  (currentBuffer_ c = None ∧ deref_currentBuffer (c, w) = (Undefined, (c, w)))
  ∨ ∃ cur, currentBuffer_ c = Some cur ∧ deref_currentBuffer (c, w) = (Ret cur, (c, w)).
Proof. unfold deref_currentBuffer. destruct (currentBuffer_ c); eauto. Qed.

(** ** Relations that every step of [pushData] respects *)

Section Respects.
Context (R : State → State → Prop).
Hypothesis R_refl : ∀ st, R st st.
Hypothesis R_trans : ∀ st1 st2 st3, R st1 st2 → R st2 st3 → R st1 st3.

Lemma respects_ret {A : Type} (a : A) : respects R (ret a).
Proof. intros st. apply R_refl. Qed.

Lemma respects_fail {A : Type} (o : outcome A) : respects R (fail o).
Proof. intros st. apply R_refl. Qed.

Lemma respects_bind {A B : Type} (m : M A) (k : A → M B) :
  respects R m → (∀ a, respects R (k a)) → respects R (bind m k).
Proof.
  intros Hm Hk st. unfold bind. specialize (Hm st).
  destruct (m st) as [[a| | | |] st']; simpl in *; try exact Hm.
  eapply R_trans; [exact Hm | apply Hk].
Qed.

Lemma respects_deref : respects R deref_currentBuffer.
Proof. intros [c w]. unfold deref_currentBuffer. destruct (currentBuffer_ c); apply R_refl. Qed.

Context (E : Env) (limit : Z).
Hypothesis R_flush : respects R (flushCurrentBuffer E).
Hypothesis R_acquire : respects R acquire_currentBuffer.
Hypothesis R_append : ∀ input offset n, respects R (append_currentBuffer input offset n).

Lemma respects_pushData_loop (input : list byte) (len : Z) (budget : nat) :
  ∀ offset, respects R (pushData_loop E limit budget input len offset).
Proof.
  induction budget as [|budget IH]; intros offset; cbn [pushData_loop].
  - apply respects_fail.
  - destruct (offset <? len); [|apply respects_ret].
    apply respects_bind; [apply respects_deref|]. intros cur.
    destruct (size_t (limit - used cur) =? 0).
    + apply respects_bind; [exact R_flush|]. intros _.
      apply respects_bind; [exact R_acquire|]. intros _. apply IH.
    + apply respects_bind; [apply R_append|]. intros _.
      apply respects_bind; [apply respects_deref|]. intros cur'.
      destruct (limit <=? used cur'); [|apply IH].
      apply respects_bind; [exact R_flush|]. intros _.
      apply respects_bind; [exact R_acquire|]. intros _. apply IH.
Qed.

Lemma respects_pushData (input : list byte) (len : Z) :
  respects R (pushData E limit input len).
Proof. intros st. unfold pushData. apply respects_pushData_loop. Qed.

Lemma respects_pushData_all (blocks : list (list byte)) :
  respects R (pushData_all E limit blocks).
Proof.
  induction blocks as [|block blocks IH]; cbn [pushData_all].
  - apply respects_ret.
  - apply respects_bind; [apply respects_pushData|]. intros _. exact IH.
Qed.

End Respects.

(** ** Conservation of buffers *)

Lemma buffers_conserved_refl (st : State) : buffers_conserved st st.
Proof. repeat split; reflexivity. Qed.

Lemma buffers_conserved_trans (st1 st2 st3 : State) :
  buffers_conserved st1 st2 → buffers_conserved st2 st3 → buffers_conserved st1 st3.
Proof. intros (H1 & H2 & H3) (H4 & H5 & H6). repeat split; try congruence. lia. Qed.

Lemma flushCurrentBuffer_conserves (E : Env) : respects buffers_conserved (flushCurrentBuffer E).
Proof.
  intros [c w].
  destruct (flushCurrentBuffer_cases E c w)
    as [[-> _] | [(cur & _ & _ & ->) | [(cur & what & _ & _ & ->)
        | (cur & Hc & _ & _ & _ & ->)]]];
    try apply buffers_conserved_refl.
  - repeat split; reflexivity.
  - destruct (finalised_heap E c cur w) as (Hnew & Hdel & _).
    split; [exact Hnew|]. unfold accounted, free_count, checked_out. cbn [fst snd currentBuffer_].
    rewrite finalised_pool, Hdel, Hc. simpl. rewrite length_app. simpl. lia.
Qed.

Lemma acquire_currentBuffer_conserves : respects buffers_conserved acquire_currentBuffer.
Proof.
  intros [c w].
  destruct (acquire_currentBuffer_cases c w) as [[_ ->] | (rest & buf & Hfree & ->)];
    [apply buffers_conserved_refl|].
  unfold buffers_conserved, accounted, free_count, checked_out. simpl. rewrite Hfree.
  destruct (currentBuffer_ c); simpl; rewrite length_app; simpl; repeat split; lia.
Qed.

Lemma append_currentBuffer_conserves (input : list byte) (offset n : Z) :
  respects buffers_conserved (append_currentBuffer input offset n).
Proof.
  intros [c w].
  destruct (append_currentBuffer_cases input offset n c w) as [-> | (cur & d & Hc & ->)];
    [apply buffers_conserved_refl|].
  unfold buffers_conserved, accounted, checked_out. simpl. rewrite Hc. repeat split; reflexivity.
Qed.

(** [pushData] allocates no buffer and loses none, whatever the state it is
    called in and however it ends. *)
Lemma pushData_conserves (E : Env) (limit : Z) (input : list byte) (len : Z) :
  respects buffers_conserved (pushData E limit input len).
Proof.
  exact (respects_pushData _ buffers_conserved_refl buffers_conserved_trans E limit
           (flushCurrentBuffer_conserves E) acquire_currentBuffer_conserves
           append_currentBuffer_conserves input len).
Qed.

(** The destructor allocates no buffer; the buffers that were free, checked
    out or deleted before are free or deleted after it. *)
Lemma Chunker_dtor_conserves (E : Env) (c : Chunker) (w w' : World) :
  Chunker_dtor E (c, w) = (Ret tt, w') →
  heap_new w' = heap_new w
  ∧ (free_count w' + heap_delete w' = accounted (c, w))%nat
  ∧ (heap_delete w <= heap_delete w')%nat.
Proof.
  unfold Chunker_dtor.
  pose proof (flushCurrentBuffer_conserves E (c, w)) as (Hnew & Hacc & Hmono).
  destruct (flushCurrentBuffer E (c, w)) as [[[]| | | |] [c1 w1]]; try discriminate.
  intros [= <-]. simpl in Hnew, Hacc, Hmono. unfold accounted in Hacc. simpl in Hacc.
  unfold accounted, unique_ptr_dtor, checked_out, free_count in *.
  destruct (currentBuffer_ c1); simpl; repeat split; try assumption; lia.
Qed.

(** ** Growth of the history *)

Lemma replay_app (new1 new2 : list Flushed) (fs : gmap string (list byte)) :
  replay (new1 ++ new2) fs = replay new2 (replay new1 fs).
Proof. unfold replay. apply foldl_app. Qed.

Lemma history_grows_refl (E : Env) (st : State) : history_grows E st st.
Proof.
  split; [reflexivity|]. exists []. rewrite app_nil_r. repeat split; constructor.
Qed.

Lemma history_grows_trans (E : Env) (st1 st2 st3 : State) :
  history_grows E st1 st2 → history_grows E st2 st3 → history_grows E st1 st3.
Proof.
  intros (Hdir1 & new1 & Hfl1 & Hok1 & Hfs1 & Hst1) (Hdir2 & new2 & Hfl2 & Hok2 & Hfs2 & Hst2).
  split; [congruence|]. exists (new1 ++ new2).
  split; [rewrite Hfl2, Hfl1, app_assoc; reflexivity|].
  split; [apply Forall_app; split; [exact Hok1|]; rewrite <- Hdir1; exact Hok2|].
  split; [rewrite Hfs2, Hfs1, replay_app; reflexivity|].
  apply Forall_app. auto.
Qed.

Lemma content_nonempty (cur : ChunkBuffer) :
  used cur ≠ 0 → 0 <= used cur <= Z.of_nat (length (data cur)) → content cur ≠ [].
Proof.
  intros Hu Hlen Hnil. apply (f_equal length) in Hnil.
  unfold content in Hnil. rewrite length_take in Hnil. simpl in Hnil. lia.
Qed.

Lemma finalised_history (E : Env) (c : Chunker) (cur : ChunkBuffer) (w : World) :
  used cur ≠ 0 → 0 <= used cur <= Z.of_nat (length (data cur)) →
  ∃ f, flushed (finalised E c cur w) = flushed w ++ [f]
       ∧ record_ok E (outputDir_ c) f
       ∧ fl_bytes f = content cur
       ∧ fl_time f = std_time E (attempts w)
       ∧ fl_written f = ofs_is_open E (attempts w) (fl_name f)
       ∧ files (finalised E c cur w) = replay [f] (files w)
       ∧ stored_ok E f.
Proof.
  intros Hu Hlen. unfold finalised. simpl. rewrite write_chunk_file_flushed.
  eexists. split; [reflexivity|]. simpl.
  split; [split; [apply content_nonempty; assumption|];
          split; [reflexivity|]; split; [reflexivity|]; exists (attempts w); split; reflexivity|].
  split; [reflexivity|]. split; [reflexivity|]. split; [reflexivity|].
  split; [|exists (attempts w); reflexivity].
  unfold write_chunk_file, replay. simpl.
  destruct (ofs_is_open E (attempts w) _); reflexivity.
Qed.

Lemma flushCurrentBuffer_history (E : Env) : respects (history_grows E) (flushCurrentBuffer E).
Proof.
  intros [c w].
  destruct (flushCurrentBuffer_cases E c w)
    as [[-> _] | [(cur & _ & _ & ->) | [(cur & what & _ & _ & ->)
        | (cur & Hc & Hu & Hlen & _ & ->)]]];
    try apply history_grows_refl.
  - split; [reflexivity|]. exists []. simpl. rewrite app_nil_r. repeat split; constructor.
  - destruct (finalised_history E c cur w Hu Hlen) as (f & Hf & Hok & _ & _ & _ & Hfs & Hst).
    split; [reflexivity|]. exists [f].
    split; [exact Hf|]. split; [constructor; [exact Hok | constructor]|].
    split; [exact Hfs|]. constructor; [exact Hst | constructor].
Qed.

Lemma acquire_currentBuffer_history (E : Env) :
  respects (history_grows E) acquire_currentBuffer.
Proof.
  intros [c w].
  destruct (acquire_currentBuffer_cases c w) as [[_ ->] | (rest & buf & Hfree & ->)];
    [apply history_grows_refl|].
  split; [reflexivity|]. exists []. simpl.
  destruct (currentBuffer_ c); simpl; rewrite app_nil_r; repeat split; constructor.
Qed.

Lemma append_currentBuffer_history (E : Env) (input : list byte) (offset n : Z) :
  respects (history_grows E) (append_currentBuffer input offset n).
Proof.
  intros [c w].
  destruct (append_currentBuffer_cases input offset n c w) as [-> | (cur & d & Hc & ->)];
    [apply history_grows_refl|].
  split; [reflexivity|]. exists []. simpl. rewrite app_nil_r. repeat split; constructor.
Qed.

Lemma pushData_history (E : Env) (limit : Z) (input : list byte) (len : Z) :
  respects (history_grows E) (pushData E limit input len).
Proof.
  exact (respects_pushData _ (history_grows_refl E) (history_grows_trans E) E limit
           (flushCurrentBuffer_history E) (acquire_currentBuffer_history E)
           (append_currentBuffer_history E) input len).
Qed.

(** ** The loop of [pushData] terminates *)

Lemma bind_assoc {A B C : Type} (m : M A) (k : A → M B) (h : B → M C) (st : State) :
  bind (bind m k) h st = bind m (λ a, bind (k a) h) st.
Proof.
  unfold bind. destruct (m st) as [[a| | | |] st1]; try reflexivity.
Qed.




(** ** Buffers of a pool with several clients *)

Lemma sum_checked_out_insert (cs : list Chunker) (i : nat) (c c' : Chunker) :
  cs !! i = Some c →
  (sum_list (checked_out <$> <[i := c']> cs) + checked_out c
   = sum_list (checked_out <$> cs) + checked_out c')%nat.
Proof.
  revert i. induction cs as [|x cs IH]; intros i Hi; [discriminate|].
  destruct i as [|i]; simpl in *.
  - injection Hi as ->. unfold fmap in *. lia.
  - specialize (IH i Hi). unfold fmap in *. lia.
Qed.

Lemma sum_checked_out_delete (cs : list Chunker) (i : nat) (c : Chunker) :
  cs !! i = Some c →
  (sum_list (checked_out <$> delete i cs) + checked_out c
   = sum_list (checked_out <$> cs))%nat.
Proof.
  revert i. induction cs as [|x cs IH]; intros i Hi; [discriminate|].
  destruct i as [|i]; simpl in *.
  - injection Hi as ->. unfold fmap in *. lia.
  - specialize (IH i Hi). unfold fmap in *. lia.
Qed.

Lemma sum_checked_out_snoc (cs : list Chunker) (c : Chunker) :
  sum_list (checked_out <$> (cs ++ [c])) = (sum_list (checked_out <$> cs) + checked_out c)%nat.
Proof.
  induction cs as [|x cs IH]; simpl in *; unfold fmap in *; [lia | rewrite IH; lia].
Qed.

Lemma sys_conserved_refl (s : System) : sys_conserved s s.
Proof. repeat split; reflexivity. Qed.

Lemma sys_conserved_trans (s1 s2 s3 : System) :
  sys_conserved s1 s2 → sys_conserved s2 s3 → sys_conserved s1 s3.
Proof. intros (H1 & H2 & H3) (H4 & H5 & H6). repeat split; try congruence; lia. Qed.

Lemma step_conserves (E : Env) (limit : Z) (op : Op) (s s' : System) :
  step E limit op s = Some s' → sys_conserved s s'.
Proof.
  destruct s as [w cs held]. destruct op as [|i|outputDir|i input len|i]; simpl.
  - (* acquire *)
    unfold acquireBuffer.
    destruct (pop_back (freeBuffers_ (pool w))) as [[rest buf]|] eqn:Hpop; intros [= <-].
    + apply pop_back_Some in Hpop.
      unfold sys_conserved, total_buffers, free_count. simpl.
      rewrite Hpop, !length_app. simpl. repeat split; lia.
    + rewrite with_pool_id. apply sys_conserved_refl.
  - (* release *)
    destruct (held !! i) as [buf|] eqn:Hi; intros [= <-]; [|apply sys_conserved_refl].
    unfold sys_conserved, total_buffers, free_count. simpl.
    rewrite length_app, length_delete by eauto. simpl.
    apply lookup_lt_Some in Hi. repeat split; lia.
  - (* construct *)
    unfold Chunker_ctor, acquireBuffer.
    destruct (pop_back (freeBuffers_ (pool w))) as [[rest buf]|] eqn:Hpop; intros [= <-].
    + apply pop_back_Some in Hpop.
      unfold sys_conserved, total_buffers, free_count. simpl.
      rewrite Hpop, sum_checked_out_snoc, length_app. unfold checked_out at 2. simpl.
      repeat split; lia.
    + simpl. rewrite with_pool_id. apply sys_conserved_refl.
  - (* pushData *)
    destruct (cs !! i) as [c|] eqn:Hi; [|intros [= <-]; apply sys_conserved_refl].
    pose proof (pushData_conserves E limit input len (c, w)) as (Hnew & Hacc & Hmono).
    destruct (pushData E limit input len (c, w)) as [[[]|what| | |] [c' w']];
      intros [= <-]; simpl in Hnew, Hacc, Hmono;
      unfold accounted in Hacc; simpl in Hacc;
      pose proof (sum_checked_out_insert cs i c c' Hi);
      unfold sys_conserved, total_buffers; simpl; repeat split; try assumption; lia.
  - (* destroy *)
    destruct (cs !! i) as [c|] eqn:Hi; [|intros [= <-]; apply sys_conserved_refl].
    destruct (Chunker_dtor E (c, w)) as [[[]| | | |] w'] eqn:Hdtor; intros [= <-].
    destruct (Chunker_dtor_conserves E c w w' Hdtor) as (Hnew & Hacc & Hmono).
    unfold accounted in Hacc. simpl in Hacc.
    pose proof (sum_checked_out_delete cs i c Hi).
    unfold sys_conserved, total_buffers. simpl. repeat split; try assumption; lia.
Qed.

Lemma run_conserves (E : Env) (limit : Z) (ops : list Op) :
  ∀ s s', run E limit ops s = Some s' → sys_conserved s s'.
Proof.
  induction ops as [|op ops IH]; intros s s'; simpl.
  - intros [= <-]. apply sys_conserved_refl.
  - destruct (step E limit op s) as [s1|] eqn:Hstep; [|discriminate].
    intros Hrun. eapply sys_conserved_trans; [eapply step_conserves; exact Hstep | eauto].
Qed.

Lemma total_buffers_init (bufferCount bufferSize : Z) :
  total_buffers (System_init bufferCount bufferSize) = Z.to_nat bufferCount.
Proof.
  unfold total_buffers, free_count. simpl.
  change (emplace_buffers (Z.to_nat bufferCount) bufferSize [])
    with (freeBuffers_ (BufferPool_ctor bufferCount bufferSize)).
  rewrite BufferPool_ctor_length. lia.
Qed.

(** From construction on: no buffer is ever allocated again, and the buffers
    in circulation are the [bufferCount] of the constructor less the deleted
    ones; in particular they never exceed [bufferCount]. *)
Lemma total_buffers_bounded (E : Env) (limit : Z) (ops : list Op)
    (bufferCount bufferSize : Z) (s : System) :
  run E limit ops (System_init bufferCount bufferSize) = Some s →
  heap_new (sys_world s) = Z.to_nat bufferCount
  ∧ (total_buffers s + heap_delete (sys_world s) = Z.to_nat bufferCount)%nat
  ∧ (total_buffers s <= Z.to_nat bufferCount)%nat.
Proof.
  intros Hrun. destruct (run_conserves E limit ops _ _ Hrun) as (Hnew & Hacc & _).
  rewrite total_buffers_init in Hacc. simpl in Hnew, Hacc.
  repeat split; [exact Hnew | lia | lia].
Qed.

(** ** A [Chunker] destroyed with an empty buffer *)

Lemma Chunker_dtor_empty (E : Env) (c : Chunker) (w : World) (cur : ChunkBuffer) :
  currentBuffer_ c = Some cur → used cur = 0 →
  Chunker_dtor E (c, w) = (Ret tt, unique_ptr_dtor (Some cur) w).
Proof.
  intros Hc Hzero. unfold Chunker_dtor.
  rewrite (flushCurrentBuffer_empty E c w cur Hc Hzero), Hc. reflexivity.
Qed.

(** A [Chunker] that is constructed and destroyed without a push in between
    takes one buffer out of circulation. *)
Lemma unused_chunker_loses_buffer (E : Env) (limit : Z) (outputDir : string)
    (bufferCount bufferSize : Z) :
  0 < bufferCount →
  ∃ s, run E limit [op_construct outputDir; op_destroy 0] (System_init bufferCount bufferSize)
       = Some s
       ∧ total_buffers s = (Z.to_nat bufferCount - 1)%nat
       ∧ heap_new (sys_world s) = Z.to_nat bufferCount
       ∧ heap_delete (sys_world s) = 1%nat.
Proof.
  intros Hcount.
  destruct (Z.to_nat bufferCount) as [|k] eqn:Hk; [lia|].
  assert (Hfree : freeBuffers_ (pool (sys_world (System_init bufferCount bufferSize)))
                  = replicate k (ChunkBuffer_ctor bufferSize) ++ [ChunkBuffer_ctor bufferSize]).
  { simpl. rewrite emplace_buffers_replicate, Hk. simpl app. apply replicate_S_end. }
  cbn [run step]. rewrite (Chunker_ctor_ok outputDir _ _ _ Hfree).
  cbn [sys_chunkers sys_world sys_held System_init app].
  change ([mkChunker outputDir (Some (clear (ChunkBuffer_ctor bufferSize)))] !! 0%nat)
    with (Some (mkChunker outputDir (Some (clear (ChunkBuffer_ctor bufferSize))))).
  cbv beta iota.
  rewrite (Chunker_dtor_empty E
             (mkChunker outputDir (Some (clear (ChunkBuffer_ctor bufferSize)))) _
             (clear (ChunkBuffer_ctor bufferSize)) eq_refl eq_refl).
  eexists. split; [reflexivity|].
  unfold total_buffers, free_count. simpl. rewrite length_replicate, Hk. repeat split; lia.
Qed.

(** ** The history across a destructor and a whole stream *)

Lemma unique_ptr_dtor_history (ptr : option ChunkBuffer) (w : World) :
  flushed (unique_ptr_dtor ptr w) = flushed w ∧ files (unique_ptr_dtor ptr w) = files w
  ∧ pool (unique_ptr_dtor ptr w) = pool w.
Proof. destruct ptr; auto. Qed.

Lemma Chunker_dtor_history (E : Env) (c : Chunker) (w : World) :
  ∃ new, flushed (snd (Chunker_dtor E (c, w))) = flushed w ++ new
         ∧ Forall (record_ok E (outputDir_ c)) new
         ∧ files (snd (Chunker_dtor E (c, w))) = replay new (files w)
         ∧ Forall (stored_ok E) new.
Proof.
  unfold Chunker_dtor.
  destruct (flushCurrentBuffer_history E (c, w)) as (_ & new & Hfl & Hok & Hfs & Hst).
  exists new.
  destruct (flushCurrentBuffer E (c, w)) as [[[]| | | |] [c1 w1]]; simpl in *; auto.
  destruct (unique_ptr_dtor_history (currentBuffer_ c1) w1) as (-> & -> & _). auto.
Qed.

Lemma process_stream_history (E : Env) (limit : Z) (outputDir : string)
    (blocks : list (list byte)) (w : World) :
  ∃ new, flushed (snd (process_stream E limit outputDir blocks w)) = flushed w ++ new
         ∧ Forall (record_ok E outputDir) new
         ∧ files (snd (process_stream E limit outputDir blocks w)) = replay new (files w)
         ∧ Forall (stored_ok E) new.
Proof.
  unfold process_stream, Chunker_ctor.
  destruct (acquireBuffer (pool w)) as [[buf| | | |] p];
    try (exists []; simpl; rewrite app_nil_r; repeat split; constructor).
  set (c0 := mkChunker outputDir (Some buf)). set (w0 := with_pool p w).
  destruct (respects_pushData_all _ (history_grows_refl E) (history_grows_trans E) E limit
              (flushCurrentBuffer_history E) (acquire_currentBuffer_history E)
              (append_currentBuffer_history E) blocks (c0, w0))
    as (Hdir & new1 & Hfl1 & Hok1 & Hfs1 & Hst1).
  destruct (pushData_all E limit blocks (c0, w0)) as [o [c1 w1]]. simpl in *.
  destruct o as [[]| | | |]; [|exists new1; auto ..].
  destruct (Chunker_dtor_history E c1 w1) as (new2 & Hfl2 & Hok2 & Hfs2 & Hst2).
  exists (new1 ++ new2). rewrite Hfl2, Hfs2, Hfl1, Hfs1, replay_app, app_assoc.
  split; [reflexivity|].
  split; [apply Forall_app; split; [exact Hok1|]; rewrite <- Hdir; exact Hok2|].
  split; [reflexivity|]. apply Forall_app. auto.
Qed.

Lemma replay_unwritten (new : list Flushed) (fs : gmap string (list byte)) :
  Forall (λ f, fl_written f = false) new → replay new fs = fs.
Proof.
  intros Hnew. revert fs. induction Hnew as [|f new Hf Hnew IH]; intros fs; [reflexivity|].
  unfold replay in *. simpl. rewrite Hf. apply IH.
Qed.

(** ** The hexadecimal digest *)

Lemma string_length_app (a b : string) :
  String.length (a +:+ b) = (String.length a + String.length b)%nat.
Proof. induction a as [|x a IH]; simpl; [reflexivity | rewrite IH; reflexivity]. Qed.

Lemma string_forallb_app (p : ascii → bool) (a b : string) :
  string_forallb p (a +:+ b) = string_forallb p a && string_forallb p b.
Proof.
  induction a as [|x a IH]; simpl; [reflexivity|].
  rewrite IH. apply andb_assoc.
Qed.

Lemma hex_of_byte (h : byte) :
  let hi := ostream_hex (Z.shiftr (Z.land (uchar h) 0xF0) 4) in
  let lo := ostream_hex (Z.land (uchar h) 0x0F) in
  String.length (hi +:+ lo) = 2%nat ∧ string_forallb lowercase_hex (hi +:+ lo) = true.
Proof. destruct h; split; reflexivity. Qed.

Lemma hex_of_hash_length (hash : list byte) :
  String.length (hex_of_hash hash) = (2 * length hash)%nat.
Proof.
  induction hash as [|h hash IH]; [reflexivity|].
  cbn [hex_of_hash length].
  change (ostream_hex (Z.shiftr (Z.land (uchar h) 0xF0) 4)
          +:+ ostream_hex (Z.land (uchar h) 0x0F) +:+ hex_of_hash hash)
    with (ostream_hex (Z.shiftr (Z.land (uchar h) 0xF0) 4)
          +:+ (ostream_hex (Z.land (uchar h) 0x0F) +:+ hex_of_hash hash)).
  destruct (hex_of_byte h) as [Hlen _]. rewrite string_length_app in Hlen.
  rewrite !string_length_app, IH. lia.
Qed.

Lemma hex_of_hash_lowercase (hash : list byte) :
  string_forallb lowercase_hex (hex_of_hash hash) = true.
Proof.
  induction hash as [|h hash IH]; [reflexivity|].
  cbn [hex_of_hash].
  destruct (hex_of_byte h) as [_ Hlow]. rewrite string_forallb_app in Hlow.
  rewrite !string_forallb_app, IH.
  apply andb_true_iff in Hlow as [-> ->]. reflexivity.
Qed.

Lemma compute_sha512_sized (E : Env) (n : nat) (bytes : list byte) (hashVal : string) :
  sha512_sized E → compute_sha512 E n bytes = Ret hashVal →
  String.length hashVal = 128%nat ∧ string_forallb lowercase_hex hashVal = true.
Proof.
  intros Hsized Hret.
  destruct (compute_sha512_outcome E n bytes) as [Hok | [what Hthrow]]; [|congruence].
  rewrite Hok in Hret. injection Hret as <-.
  rewrite hex_of_hash_length, Hsized, hex_of_hash_lowercase. auto.
Qed.

(** ** Finalising one chunk *)

Lemma finalised_files (E : Env) (c : Chunker) (cur : ChunkBuffer) (w : World) :
  let hashVal := hex_of_hash (EVP_sha512 E (content cur)) in
  let fname := chunk_file_name (outputDir_ c) hashVal (std_time E (attempts w)) in
  files (finalised E c cur w)
  = (if ofs_is_open E (attempts w) fname
     then <[fname := ofs_stored E (attempts w) fname (content cur)]> (files w)
     else files w)
  ∧ cout (finalised E c cur w)
    = (if ofs_is_open E (attempts w) fname
       then cout w ++ ["Flushed chunk -> " +:+ fname +:+ " (size: "
                       +:+ pretty (used cur) +:+ " bytes)" +:+ newline]
       else cout w)
  ∧ cerr (finalised E c cur w)
    = (if ofs_is_open E (attempts w) fname
       then cerr w
       else cerr w ++ ["Error writing chunk file: " +:+ fname +:+ newline]).
Proof.
  intros hashVal fname. unfold finalised, write_chunk_file. fold hashVal. fold fname.
  destruct (ofs_is_open E (attempts w) fname); auto.
Qed.

Lemma record_unwritten (E : Env) (outputDir : string) (new : list Flushed) :
  (∀ n fname, ofs_is_open E n fname = false) →
  Forall (record_ok E outputDir) new → Forall (λ f, fl_written f = false) new.
Proof.
  intros Hclosed Hnew. eapply Forall_impl; [exact Hnew|].
  intros f (_ & _ & _ & n & _ & ->). apply Hclosed.
Qed.

(** ** Names of chunk files *)

Lemma string_app_inv_head (a x y : string) : a +:+ x = a +:+ y → x = y.
Proof. induction a as [|ch a IH]; simpl; [auto | intros [= H]; auto]. Qed.

Lemma string_app_inj_length (a b x y : string) :
  String.length a = String.length b → a +:+ x = b +:+ y → a = b ∧ x = y.
Proof.
  revert b. induction a as [|ch a IH]; intros [|ch' b]; simpl; try discriminate.
  - auto.
  - intros [= Hlen] [= -> Happ]. destruct (IH b Hlen Happ) as [-> ->]. auto.
Qed.

Lemma string_app_inv_tail (a b s : string) : a +:+ s = b +:+ s → a = b.
Proof.
  intros Happ. apply (string_app_inj_length a b s s); [|exact Happ].
  apply (f_equal String.length) in Happ. rewrite !string_length_app in Happ. lia.
Qed.

(** The name of a chunk file determines digest and timestamp. *)
Lemma chunk_file_name_inj (outputDir h1 h2 : string) (t1 t2 : Z) :
  String.length h1 = String.length h2 →
  chunk_file_name outputDir h1 t1 = chunk_file_name outputDir h2 t2 →
  h1 = h2 ∧ t1 = t2.
Proof.
  intros Hlen Hname. unfold chunk_file_name in Hname.
  apply string_app_inv_head in Hname. simpl in Hname. injection Hname as Hname.
  apply (string_app_inj_length h1 h2) in Hname as [-> Hrest]; [|exact Hlen].
  split; [reflexivity|]. simpl in Hrest. injection Hrest as Hrest.
  change (pretty t1 +:+ ".txt" = pretty t2 +:+ ".txt") in Hrest.
  apply string_app_inv_tail in Hrest. apply (inj pretty) in Hrest. exact Hrest.
Qed.

Lemma unhex_hex_byte (h : byte) (s : string) :
  unhex_hash (ostream_hex (Z.shiftr (Z.land (uchar h) 0xF0) 4)
              +:+ ostream_hex (Z.land (uchar h) 0x0F) +:+ s)
  = h :: unhex_hash s.
Proof. destruct h; reflexivity. Qed.

Lemma unhex_hex_of_hash (hash : list byte) : unhex_hash (hex_of_hash hash) = hash.
Proof.
  induction hash as [|h hash IH]; [reflexivity|].
  cbn [hex_of_hash]. rewrite unhex_hex_byte, IH. reflexivity.
Qed.

Lemma hex_of_hash_inj (hash1 hash2 : list byte) :
  hex_of_hash hash1 = hex_of_hash hash2 → hash1 = hash2.
Proof.
  intros Hhex. rewrite <- (unhex_hex_of_hash hash1), <- (unhex_hex_of_hash hash2), Hhex.
  reflexivity.
Qed.

(** ** The program's own configuration *)

Lemma World_init_pool_ok (limit bufferCount bufferSize : Z) :
  limit <= bufferSize → pool_ok limit (World_init bufferCount bufferSize).
Proof.
  intros Hsize. unfold pool_ok. simpl. rewrite emplace_buffers_replicate. simpl.
  apply Forall_replicate. unfold buffer_ok. simpl. rewrite length_replicate. lia.
Qed.

Lemma World_init_free (bufferCount bufferSize : Z) :
  0 < bufferCount → freeBuffers_ (pool (World_init bufferCount bufferSize)) ≠ [].
Proof.
  intros Hcount Hnil. apply (f_equal length) in Hnil.
  change (freeBuffers_ (pool (World_init bufferCount bufferSize)))
    with (freeBuffers_ (BufferPool_ctor bufferCount bufferSize)) in Hnil.
  rewrite BufferPool_ctor_length in Hnil. simpl in Hnil. lia.
Qed.

(** The first input of a run of [main], with the constants of the source:
    its chunks are the [CHUNK_LIMIT]-sized segments of what was pushed. *)
Lemma main_first_stream (E : Env) (outputDir : string) (blocks : list (list byte)) :
  EVP_ok E →
  Forall (λ block, Z.of_nat (length block) < size_t_modulus) blocks →
  ∃ w', process_stream E CHUNK_LIMIT outputDir blocks (World_init NUM_BUFFERS CHUNK_LIMIT)
        = (Ret tt, w')
        ∧ fl_bytes <$> flushed w' = expected_chunks CHUNK_LIMIT (concat blocks).
Proof.
  intros Hevp Hblocks.
  destruct (process_stream_healthy E CHUNK_LIMIT outputDir blocks
              (World_init NUM_BUFFERS CHUNK_LIMIT) CHUNK_LIMIT_range Hevp
              (World_init_pool_ok CHUNK_LIMIT NUM_BUFFERS CHUNK_LIMIT (Z.le_refl _))
              (World_init_free NUM_BUFFERS CHUNK_LIMIT eq_refl) Hblocks)
    as (w' & Hrun & Hfl & Hchunks & _).
  exists w'. split; [exact Hrun|]. rewrite <- Hchunks.
  simpl in Hfl. rewrite Hfl. reflexivity.
Qed.

(** ** Reading the chunks back from the files *)

Lemma replay_snoc (new : list Flushed) (f : Flushed) (fs : gmap string (list byte)) :
  replay (new ++ [f]) fs
  = if fl_written f then <[fl_name f := fl_stored f]> (replay new fs) else replay new fs.
Proof. rewrite replay_app. reflexivity. Qed.

Lemma ofs_stored_ok (E : Env) (n : nat) (fname : string) (bytes : list byte) :
  ofs_ok E → ofs_stored E n fname bytes = bytes.
Proof. intros Hok. unfold ofs_stored. rewrite (proj2 (Hok n fname)). reflexivity. Qed.

(** When every file opens and the digest separates the chunks of the history,
    each chunk can be read back from the file of its name, also after the
    later writes. *)
Lemma replay_lookup (E : Env) (outputDir : string) (new : list Flushed)
    (fs : gmap string (list byte)) :
  sha512_sized E → ofs_ok E →
  Forall (record_ok E outputDir) new →
  Forall (stored_ok E) new →
  (∀ f g, f ∈ new → g ∈ new → collision_free E (fl_bytes f) (fl_bytes g)) →
  ∀ f, f ∈ new → replay new fs !! fl_name f = Some (fl_bytes f).
Proof.
  intros Hsized Hopen. induction new as [|g new IH] using rev_ind; intros Hok Hst Hfree f Hin.
  - inversion Hin.
  - apply Forall_app in Hok as [Hok Hg]. apply Forall_inv in Hg.
    apply Forall_app in Hst as [Hst Hsg]. apply Forall_inv in Hsg.
    assert (Hwritten : fl_written g = true).
    { destruct Hg as (_ & _ & _ & n & _ & ->). apply Hopen. }
    assert (Hstored : fl_stored g = fl_bytes g).
    { destruct Hsg as (n & ->). apply ofs_stored_ok. exact Hopen. }
    rewrite replay_snoc, Hwritten, Hstored.
    destruct (decide (fl_name g = fl_name f)) as [Hsame|Hother].
    + rewrite Hsame, lookup_insert_eq. f_equal.
      assert (Hf : record_ok E outputDir f).
      { apply elem_of_app in Hin as [Hin|Hin].
        - apply (proj1 (Forall_forall _ _) Hok f Hin).
        - apply list_elem_of_singleton in Hin. subst f. exact Hg. }
      destruct Hg as (_ & Hdg & Hng & _). destruct Hf as (_ & Hdf & Hnf & _).
      rewrite Hng, Hnf in Hsame.
      apply chunk_file_name_inj in Hsame as [Hd _].
      2:{ rewrite Hdg, Hdf, !hex_of_hash_length, !Hsized. reflexivity. }
      apply (Hfree g f); [apply elem_of_app; right; apply list_elem_of_singleton; reflexivity
                         | exact Hin |].
      apply hex_of_hash_inj. rewrite <- Hdg, <- Hdf. exact Hd.
    + rewrite lookup_insert_ne by exact Hother.
      apply elem_of_app in Hin as [Hin|Hin].
      * apply IH; [exact Hok | exact Hst | | exact Hin].
        intros f1 f2 H1 H2. apply Hfree; apply elem_of_app; left; assumption.
      * apply list_elem_of_singleton in Hin. subst f. contradiction.
Qed.

(** A healthy stream whose files all open, read back: the contents of the
    files named by the emitted chunks, in flush order, are the bytes that
    were pushed. *)
Lemma persisted_chunks_reassemble (E : Env) (limit : Z) (outputDir : string)
    (blocks : list (list byte)) (w : World) :
  0 < limit < size_t_modulus → EVP_ok E → sha512_sized E → ofs_ok E →
  pool_ok limit w → freeBuffers_ (pool w) ≠ [] →
  Forall (λ block, Z.of_nat (length block) < size_t_modulus) blocks →
  (∀ chunk1 chunk2,
     chunk1 ∈ expected_chunks limit (concat blocks) →
     chunk2 ∈ expected_chunks limit (concat blocks) →
     collision_free E chunk1 chunk2) →
  ∃ w', process_stream E limit outputDir blocks w = (Ret tt, w')
        ∧ concat ((λ f, default [] (files w' !! fl_name f)) <$> emitted_since w w')
          = concat blocks.
Proof.
  intros Hlimit Hevp Hsized Hopen Hpool Hfree Hblocks Hinj.
  destruct (process_stream_healthy E limit outputDir blocks w Hlimit Hevp Hpool Hfree Hblocks)
    as (w' & Hrun & Hfl & Hchunks & _).
  exists w'. split; [exact Hrun|].
  destruct (process_stream_history E limit outputDir blocks w)
    as (new & Hfl' & Hok & Hfs & Hst).
  rewrite Hrun in Hfl', Hfs. simpl in Hfl', Hfs.
  rewrite (emitted_since_app _ _ _ Hfl') in *.
  replace ((λ f, default [] (files w' !! fl_name f)) <$> new) with (fl_bytes <$> new).
  - rewrite Hchunks. apply concat_expected_chunks. lia.
  - apply list_fmap_ext. intros i f Hi. rewrite Hfs.
    rewrite (replay_lookup E outputDir new (files w) Hsized Hopen Hok Hst); [reflexivity | |].
    + intros f1 f2 H1 H2. apply Hinj; rewrite <- Hchunks; apply list_elem_of_fmap; eauto.
    + apply list_elem_of_lookup. eauto.
Qed.

Lemma demo_chunks_distinct_digests :
  SHA512.digest (bytes_of "abcdefghij") ≠ SHA512.digest (bytes_of "klmno").
Proof. vm_compute. discriminate. Qed.

(** The second scenario of the specification read back from the files. *)
Example scenario_read_back :
  ∃ w', process_stream demo_env 10 "/tmp/chunked_0"
          [bytes_of "abc"; bytes_of "defghijklmno"] (World_init 1 10) = (Ret tt, w')
        ∧ concat ((λ f, default [] (files w' !! fl_name f))
                    <$> emitted_since (World_init 1 10) w')
          = bytes_of "abcdefghijklmno".
Proof.
  apply (persisted_chunks_reassemble demo_env 10 "/tmp/chunked_0"
           [bytes_of "abc"; bytes_of "defghijklmno"] (World_init 1 10)).
  - unfold size_t_modulus. lia.
  - intros n. reflexivity.
  - exact sha512_digest_length.
  - intros n fname. split; reflexivity.
  - repeat constructor. unfold buffer_ok. simpl. lia.
  - discriminate.
  - repeat constructor; unfold size_t_modulus; simpl; lia.
  - intros chunk1 chunk2 H1 H2 Hdigest.
    change (expected_chunks 10 (concat [bytes_of "abc"; bytes_of "defghijklmno"]))
      with [bytes_of "abcdefghij"; bytes_of "klmno"] in H1, H2.
    unfold demo_env in Hdigest. cbn [EVP_sha512] in Hdigest.
    apply elem_of_cons in H1 as [->|H1]; [|apply list_elem_of_singleton in H1 as ->];
      (apply elem_of_cons in H2 as [->|H2]; [|apply list_elem_of_singleton in H2 as ->]).
    + reflexivity.
    + exfalso. exact (demo_chunks_distinct_digests Hdigest).
    + exfalso. exact (demo_chunks_distinct_digests (eq_sym Hdigest)).
    + reflexivity.
Qed.

(** With a single free buffer, a healthy stream that ends on a chunk boundary
    leaves nothing for the next one, whatever the bytes and the environment. *)
Lemma next_stream_after_boundary_throws (E : Env) (limit : Z) (outputDir : string)
    (blocks1 blocks2 : list (list byte)) (w : World) :
  0 < limit < size_t_modulus → EVP_ok E →
  pool_ok limit w → free_count w = 1%nat →
  Forall (λ block, Z.of_nat (length block) < size_t_modulus) blocks1 →
  Z.of_nat (length (concat blocks1)) mod limit = 0 →
  ∃ w1, process_stream E limit outputDir blocks1 w = (Ret tt, w1)
        ∧ process_stream E limit outputDir blocks2 w1
          = (Throw "No free chunk buffers available!", w1).
Proof.
  intros Hlimit Hevp Hpool Hone Hblocks Hboundary.
  assert (Hfree : freeBuffers_ (pool w) ≠ []).
  { intros Hnil. unfold free_count in Hone. rewrite Hnil in Hone. discriminate. }
  destruct (stream_buffer_balance E limit outputDir blocks1 w Hlimit Hevp Hpool Hfree Hblocks)
    as (w1 & Hrun & Hbalance).
  destruct (decide _) as [_|Hne]; [|contradiction].
  destruct Hbalance as [Hcount _].
  exists w1. split; [exact Hrun|].
  assert (Hnil : freeBuffers_ (pool w1) = []).
  { apply length_zero_iff_nil. unfold free_count in *. lia. }
  unfold process_stream, Chunker_ctor. rewrite (acquireBuffer_empty _ Hnil). simpl.
  rewrite with_pool_id. reflexivity.
Qed.


(** ** A digest of the examples *)

Lemma sha512_klmno_hex :
  hex_of_hash (SHA512.digest (bytes_of "klmno"))
  = "1febe483ff5714a51e9593630a89e63dd0baf0d6c1dc17dd0e73b96e24ec1066"
    +:+ "786ce25c7dccc2849c508fceb1dda92956cda3ef6b89a409e2517f7d7ebcc208".
Proof. vm_compute. reflexivity. Qed.


(** ** Strings as bytes *)

Lemma list_byte_of_string_app (s1 s2 : string) :
  list_byte_of_string (s1 +:+ s2) = list_byte_of_string s1 ++ list_byte_of_string s2.
Proof.
  induction s1 as [|a s1 IH]; [reflexivity|].
  change (String a s1 +:+ s2) with (String a (s1 +:+ s2)).
  unfold list_byte_of_string in *. cbn [list_ascii_of_string map]. rewrite IH. reflexivity.
Qed.

(** ** What a computation pushes *)

Lemma pushes_refl (limit : Z) (st : State) : steady limit st → pushes limit [] st st.
Proof.
  intros Hst. unfold pushes. repeat split; auto. exists []. rewrite !app_nil_r. auto.
Qed.

Lemma pushes_trans (limit : Z) (a b : list byte) (st1 st2 st3 : State) :
  pushes limit a st1 st2 → pushes limit b st2 st3 → pushes limit (a ++ b) st1 st3.
Proof.
  intros (_ & Hdir1 & Hfree1 & Hn1 & Hd1 & new1 & Hfl1 & Hall1 & Hcat1)
         (Hst & Hdir2 & Hfree2 & Hn2 & Hd2 & new2 & Hfl2 & Hall2 & Hcat2).
  unfold pushes. split; [exact Hst|]. do 4 (split; [congruence|]).
  exists (new1 ++ new2). split; [rewrite Hfl2, Hfl1, app_assoc; reflexivity|].
  split; [apply Forall_app; auto|].
  rewrite fmap_app, concat_app, <- app_assoc, Hcat2, app_assoc, Hcat1, <- app_assoc.
  reflexivity.
Qed.

Lemma pushes_put_cerr (limit : Z) (msg : string) (c : Chunker) (w : World) :
  steady limit (c, w) → pushes limit [] (c, w) (c, put_cerr msg w).
Proof.
  intros (cur & Hc & Hused & Hbuf & Hpool). unfold pushes. simpl.
  repeat split; auto; [exists cur; auto|]. exists []. rewrite !app_nil_r. auto.
Qed.

Lemma pushes_put_cout (limit : Z) (msg : string) (c : Chunker) (w : World) :
  steady limit (c, w) → pushes limit [] (c, w) (c, put_cout msg w).
Proof.
  intros (cur & Hc & Hused & Hbuf & Hpool). unfold pushes. simpl.
  repeat split; auto; [exists cur; auto|]. exists []. rewrite !app_nil_r. auto.
Qed.

Lemma pushes_put_files (limit : Z) (fs : gmap string (list byte)) (c : Chunker) (w : World) :
  steady limit (c, w) → pushes limit [] (c, w) (c, put_files fs w).
Proof.
  intros (cur & Hc & Hused & Hbuf & Hpool). unfold pushes. simpl.
  repeat split; auto; [exists cur; auto|]. exists []. rewrite !app_nil_r. auto.
Qed.

Lemma BUFSZ_value : BUFSZ = 65536.
Proof. reflexivity. Qed.

Section HealthyCallers.
Context (host : Host) (E : Env) (limit : Z).
Hypothesis limit_range : 0 < limit < size_t_modulus.
Hypothesis evp_ok : EVP_ok E.

(** [pushData] consumes the first [len] bytes of the array it is given. *)
Lemma pushData_pushes (input : list byte) (len : Z) (st : State) :
  0 <= len < size_t_modulus → len <= Z.of_nat (length input) →
  steady limit st →
  ∃ st', pushData E limit input len st = (Ret tt, st')
         ∧ pushes limit (take (Z.to_nat len) input) st st'.
Proof.
  intros Hlen Hinput Hsteady. destruct st as [c w]. unfold pushData.
  rewrite (size_t_small len) by lia.
  destruct (pushData_loop_steady E limit limit_range evp_ok input len Hlen Hinput
              (pushData_budget len (c, w)) 0 c w)
    as (c' & w' & new & Hrun & Hst & Hdir & Hfl & Hall & Hcat & Hfree & Hn & Hd);
    [lia | unfold pushData_budget; lia | exact Hsteady |].
  exists (c', w'). split; [exact Hrun|].
  rewrite Z.sub_0_r in Hcat. change (Z.to_nat 0) with 0%nat in Hcat. rewrite drop_0 in Hcat.
  unfold pushes. simpl. repeat split; auto. exists new. auto.
Qed.

Lemma read_loop_pushes (budget : nat) :
  ∀ (unread buffer : list byte) (eof : bool) (st : State),
    length buffer = Z.to_nat BUFSZ →
    ((if eof then 0 else S (length unread)) < budget)%nat →
    steady limit st →
    ∃ st', read_loop E limit budget (mkIstream unread end_of_file) buffer eof st
           = (Ret tt, st')
           ∧ pushes limit (if eof then [] else unread) st st'.
Proof.
  induction budget as [|budget IH]; intros unread buffer eof st Hbuf Hbudget Hsteady; [lia|].
  cbn [read_loop stream_read readable ending]. destruct eof.
  { exists st. split; [reflexivity | apply pushes_refl; exact Hsteady]. }
  rewrite BUFSZ_value in *.
  set (got := take (Z.to_nat 65536) unread).
  set (buffer' := got ++ drop (length got) buffer).
  assert (Hgot : length got = (Z.to_nat 65536 `min` length unread)%nat)
    by (unfold got; apply length_take).
  assert (Hbuf' : length buffer' = Z.to_nat 65536)
    by (unfold buffer'; rewrite length_app, length_drop; lia).
  assert (Htake : take (Z.to_nat (Z.of_nat (length got))) buffer' = got).
  { unfold buffer'. rewrite Nat2Z.id. apply take_app_length. }
  destruct (Z.ltb_spec 0 (Z.of_nat (length got))) as [Hpos|Hzero].
  - destruct (pushData_pushes buffer' (Z.of_nat (length got)) st) as (st1 & Hrun1 & Hp1);
      [unfold size_t_modulus; lia | lia | exact Hsteady |].
    rewrite Htake in Hp1.
    unfold bind at 1. rewrite Hrun1.
    destruct (Nat.ltb_spec (length got) (Z.to_nat 65536)) as [Hshort|Hfull].
    + destruct (IH (drop (Z.to_nat 65536) unread) buffer' true st1 Hbuf') as (st2 & Hrun2 & Hp2).
      { lia. }
      { apply Hp1. }
      exists st2. split; [exact Hrun2|].
      assert (Hall : got = unread) by (unfold got; apply take_ge; lia).
      replace unread with (got ++ []) by (rewrite app_nil_r; exact Hall).
      eapply pushes_trans; eassumption.
    + destruct (IH (drop (Z.to_nat 65536) unread) buffer' false st1 Hbuf') as (st2 & Hrun2 & Hp2).
      { rewrite length_drop. lia. }
      { apply Hp1. }
      exists st2. split; [exact Hrun2|].
      replace unread with (got ++ drop (Z.to_nat 65536) unread) by apply take_drop.
      eapply pushes_trans; eassumption.
  - assert (Hnil : unread = []).
    { destruct unread as [|b l]; [reflexivity|]. cbn [length] in Hgot. lia. }
    subst unread. destruct (Nat.ltb_spec (length got) (Z.to_nat 65536)) as [_|Hfull]; [|lia].
    destruct (IH (drop (Z.to_nat 65536) []) buffer' true st Hbuf') as (st2 & Hrun2 & Hp2).
    { lia. }
    { exact Hsteady. }
    exists st2. split; [exact Hrun2 | exact Hp2].
Qed.

Lemma stack_buffer_length : length stack_buffer = Z.to_nat BUFSZ.
Proof. apply length_replicate. Qed.

(** On a stream that does not reach its end (a read error, bytes without
    end) the loop goes on for ever: whatever the budget, the budget is what
    ends it. *)
Lemma read_loop_spins (budget : nat) :
  ∀ (ifs : istream) (buffer : list byte) (st : State),
    ending ifs ≠ end_of_file →
    length buffer = Z.to_nat BUFSZ →
    steady limit st →
    fst (read_loop E limit budget ifs buffer false st) = Diverge.
Proof.
  induction budget as [|budget IH]; intros [unread e] buffer st Hend Hbuf Hsteady;
    [reflexivity|].
  cbn [ending] in Hend.
  assert (Hstep : ∀ got ifs',
            (length got <= Z.to_nat BUFSZ)%nat → ending ifs' ≠ end_of_file →
            fst ((if 0 <? Z.of_nat (length got)
                  then pushData E limit (got ++ drop (length got) buffer)
                         (Z.of_nat (length got)) ;;
                       read_loop E limit budget ifs' (got ++ drop (length got) buffer) false
                  else read_loop E limit budget ifs' (got ++ drop (length got) buffer) false)
                   st) = Diverge).
  { intros got ifs' Hgot Hend'. rewrite BUFSZ_value in *.
    assert (Hbuf' : length (got ++ drop (length got) buffer) = Z.to_nat 65536)
      by (rewrite length_app, length_drop; lia).
    destruct (0 <? Z.of_nat (length got)); [|apply IH; assumption].
    destruct (pushData_pushes (got ++ drop (length got) buffer) (Z.of_nat (length got)) st)
      as (st1 & Hrun1 & Hp1); [unfold size_t_modulus; lia | lia | exact Hsteady |].
    unfold bind. rewrite Hrun1. apply IH; [exact Hend' | exact Hbuf' | apply Hp1]. }
  cbn [read_loop stream_read readable ending].
  destruct e as [| |next]; [contradiction | |].
  - apply Hstep; [rewrite length_take; lia | discriminate].
  - apply Hstep; [|discriminate].
    rewrite length_app, length_fmap, length_seq, length_take. lia.
Qed.

Lemma stream_file_pushes (filePath : string) (st : State) :
  reads_to_end host filePath →
  steady limit st →
  ∃ st', stream_file host E limit filePath st
         = (Ret (match ifstream_open host filePath with Some _ => true | None => false end), st')
         ∧ pushes limit (file_bytes host filePath) st st'.
Proof.
  intros Hread Hsteady. unfold stream_file, file_bytes, reads_to_end in *.
  destruct (ifstream_open host filePath) as [[unread e]|];
    cbn [default fmap option_fmap option_map].
  - specialize (Hread _ eq_refl). cbn [ending readable] in *. subst e.
    destruct (read_loop_pushes (read_budget unread) unread stack_buffer false
                st stack_buffer_length ltac:(unfold read_budget; lia) Hsteady)
      as (st' & Hrun & Hp).
    exists st'. unfold bind, ret. rewrite Hrun. auto.
  - destruct st as [c w]. eexists. split; [reflexivity|].
    apply pushes_put_cerr. exact Hsteady.
Qed.

Lemma stream_command_output_pushes (command : string) (st : State) :
  pipe_ends host command →
  steady limit st →
  ∃ st', stream_command_output host E limit command st
         = (Ret (match popen_read host command with Some _ => true | None => false end), st')
         ∧ pushes limit (command_bytes host command) st st'.
Proof.
  intros Hpipe Hsteady. unfold stream_command_output, command_bytes, pipe_ends in *.
  destruct (popen_read host command) as [[[unread e] rc]|].
  - specialize (Hpipe _ _ eq_refl). cbn [ending readable] in *. subst e.
    destruct st as [c w]. unfold bind at 1. cbn [run_command].
    pose proof (pushes_put_files limit (popen_effect host command (files w)) c w Hsteady)
      as Hp0.
    destruct (read_loop_pushes (read_budget unread) unread stack_buffer false
                (c, put_files (popen_effect host command (files w)) w)
                stack_buffer_length ltac:(unfold read_budget; lia) (proj1 Hp0))
      as ([c' w'] & Hrun & Hp).
    unfold bind at 1. rewrite Hrun. unfold bind, ret.
    assert (Hp1 : pushes limit unread (c, w) (c', w'))
      by (change unread with ([] ++ unread); eapply pushes_trans; eassumption).
    destruct (rc =? 0).
    + eexists. split; [reflexivity | exact Hp1].
    + eexists. split; [reflexivity|].
      rewrite <- (app_nil_r unread). eapply pushes_trans; [exact Hp1|].
      apply pushes_put_cerr. apply Hp.
  - destruct st as [c w]. eexists. split; [reflexivity|].
    apply pushes_put_cerr. exact Hsteady.
Qed.

Lemma push_rows_pushes (columns : list (list (list scalar))) (rows : list nat) :
  ∀ st,
    Z.of_nat (length (list_byte_of_string
                        (foldr (λ row_idx text, render_row columns row_idx +:+ text)
                               EmptyString rows))) < size_t_modulus →
    steady limit st →
    ∃ st', push_rows E limit columns rows st = (Ret tt, st')
           ∧ pushes limit
               (list_byte_of_string
                  (foldr (λ row_idx text, render_row columns row_idx +:+ text)
                         EmptyString rows)) st st'.
Proof.
  induction rows as [|row_idx rows IH]; intros st Hsize Hsteady.
  - exists st. split; [reflexivity | apply pushes_refl; exact Hsteady].
  - cbn [foldr push_rows] in *. rewrite list_byte_of_string_app in *.
    rewrite length_app in Hsize.
    set (lineStr := list_byte_of_string (render_row columns row_idx)) in *.
    destruct (pushData_pushes lineStr (Z.of_nat (length lineStr)) st) as (st1 & Hrun1 & Hp1);
      [lia | lia | exact Hsteady |].
    rewrite Nat2Z.id, firstn_all in Hp1.
    destruct (IH st1) as (st2 & Hrun2 & Hp2); [lia | apply Hp1 |].
    exists st2. unfold bind. rewrite Hrun1. split; [exact Hrun2|].
    eapply pushes_trans; eassumption.
Qed.

Lemma push_row_groups_pushes (filePath : string) (row_groups : list (option Table)) :
  ∀ (rg : nat) (st : State),
    Z.of_nat (length (list_byte_of_string (row_groups_text row_groups))) < size_t_modulus →
    steady limit st →
    ∃ st', push_row_groups E limit filePath rg row_groups st = (Ret tt, st')
           ∧ pushes limit (list_byte_of_string (row_groups_text row_groups)) st st'.
Proof.
  induction row_groups as [|[table|] row_groups IH]; intros rg st Hsize Hsteady.
  - exists st. split; [reflexivity | apply pushes_refl; exact Hsteady].
  - cbn [row_groups_text push_row_groups] in *. rewrite list_byte_of_string_app in *.
    rewrite length_app in Hsize.
    destruct (push_rows_pushes (table_columns table) (seq 0 (Z.to_nat (num_rows table))) st)
      as (st1 & Hrun1 & Hp1); [unfold table_text in Hsize; lia | exact Hsteady |].
    destruct (IH (S rg) st1) as (st2 & Hrun2 & Hp2); [lia | apply Hp1 |].
    exists st2. unfold bind. rewrite Hrun1. split; [exact Hrun2|].
    eapply pushes_trans; eassumption.
  - cbn [row_groups_text push_row_groups] in *. destruct st as [c w].
    unfold bind at 1. cbn [log_cerr].
    destruct (IH (S rg) (c, put_cerr ("Warning: Could not read row group "
                                      +:+ pretty (Z.of_nat rg) +:+ " from file "
                                      +:+ filePath +:+ newline) w))
      as (st2 & Hrun2 & Hp2); [exact Hsize | |].
    { apply (pushes_put_cerr limit _ c w Hsteady). }
    exists st2. split; [exact Hrun2|].
    change (list_byte_of_string (row_groups_text row_groups))
      with ([] ++ list_byte_of_string (row_groups_text row_groups)).
    eapply pushes_trans; [apply pushes_put_cerr; exact Hsteady | exact Hp2].
Qed.

Lemma stream_parquet_pushes (filePath : string) (st : State) :
  Z.of_nat (length (parquet_bytes host filePath)) < size_t_modulus →
  steady limit st →
  ∃ st', stream_parquet host E limit filePath st
         = (Ret (match parquet_open host filePath with
                 | parquet_reader _ => true
                 | _ => false
                 end), st')
         ∧ pushes limit (parquet_bytes host filePath) st st'.
Proof.
  intros Hsize Hsteady. unfold stream_parquet, parquet_bytes in *.
  destruct (parquet_open host filePath) as [status|status|row_groups].
  - destruct st as [c w]. eexists. split; [reflexivity|].
    apply pushes_put_cerr. exact Hsteady.
  - destruct st as [c w]. eexists. split; [reflexivity|].
    apply pushes_put_cerr. exact Hsteady.
  - destruct (push_row_groups_pushes filePath row_groups 0 st Hsize Hsteady)
      as (st' & Hrun & Hp).
    exists st'. unfold bind, ret. rewrite Hrun. auto.
Qed.

(** The chain of comparisons of [main] feeds the [Chunker] the bytes of the
    input, whatever its kind. *)
Lemma dispatch_pushes (filePath : string) (st : State) :
  input_ok host filePath →
  steady limit st →
  ∃ success st', dispatch host E limit filePath (extension_of filePath) st
                 = (Ret success, st')
                 ∧ pushes limit (input_bytes host filePath) st st'.
Proof.
  intros [Hsize Hends] Hsteady. unfold dispatch, input_bytes, stream_ends in *.
  unfold stream_pdf, stream_doc, stream_odt, stream_rtf.
  set (extension := extension_of filePath) in *.
  destruct (String.eqb extension "pdf");
    [edestruct stream_command_output_pushes as (st' & Hrun & Hp); eauto|].
  destruct (String.eqb extension "doc" || String.eqb extension "docx")%bool;
    [edestruct stream_command_output_pushes as (st' & Hrun & Hp); eauto|].
  destruct (String.eqb extension "odt");
    [edestruct stream_command_output_pushes as (st' & Hrun & Hp); eauto|].
  destruct (String.eqb extension "rtf");
    [edestruct stream_command_output_pushes as (st' & Hrun & Hp); eauto|].
  destruct (String.eqb extension "parquet") eqn:Hparquet.
  - apply String.eqb_eq in Hparquet. rewrite Hparquet. cbn [String.eqb orb].
    change (("parquet" =? "csv")%string || ("parquet" =? "txt")%string)%bool with false.
    change ("parquet" =? "parquet")%string with true. cbv iota.
    edestruct stream_parquet_pushes as (st' & Hrun & Hp); eauto.
  - destruct (String.eqb extension "csv" || String.eqb extension "txt")%bool.
    + edestruct stream_file_pushes as (st' & Hrun & Hp); eauto.
    + destruct st as [c w]. unfold bind at 1. cbn [log_cout].
      match goal with
      | |- context [put_cout ?msg w] =>
          destruct (stream_file_pushes filePath (c, put_cout msg w)
                      Hends (proj1 (pushes_put_cout limit msg c w Hsteady)))
            as (st' & Hrun & Hp)
      end.
      eexists _, st'. split; [exact Hrun|].
      change (file_bytes host filePath) with ([] ++ file_bytes host filePath).
      eapply pushes_trans; [apply pushes_put_cout; exact Hsteady | exact Hp].
Qed.

End HealthyCallers.

(** ** One argument of [main], and all of them *)

Section HealthyMain.
Context (host : Host) (E : Env) (limit : Z).
Hypothesis limit_range : 0 < limit < size_t_modulus.
Hypothesis evp_ok : EVP_ok E.

Lemma full_chunks_length (new : list Flushed) :
  Forall (full_chunk limit) new →
  Z.of_nat (length (concat (fl_bytes <$> new))) = limit * Z.of_nat (length new).
Proof.
  induction 1 as [|f new Hf Hall IH]; [simpl; lia|].
  rewrite fmap_cons. cbn [concat length]. rewrite length_app, Nat2Z.inj_add, IH.
  unfold full_chunk in Hf. lia.
Qed.

(** The life of the [Chunker] of one argument: constructed on a pool with a
    free buffer, fed [bytes] by [m], destroyed. *)
Lemma chunker_lifetime {A : Type} (m : M A) (bytes : list byte) (outputDir : string)
    (w : World) :
  pool_ok limit w → freeBuffers_ (pool w) ≠ [] →
  (∀ st, steady limit st → ∃ a st', m st = (Ret a, st') ∧ pushes limit bytes st st') →
  ∃ chunker w1 a st w' new,
    Chunker_ctor outputDir w = (Ret chunker, w1)
    ∧ m (chunker, w1) = (Ret a, st)
    ∧ Chunker_dtor E st = (Ret tt, w')
    ∧ flushed w' = flushed w ++ new
    ∧ fl_bytes <$> new = expected_chunks limit bytes
    ∧ heap_new w' = heap_new w
    ∧ pool_ok limit w'
    ∧ free_count w
      = (if Z.of_nat (length bytes) mod limit =? 0
         then S (free_count w') else free_count w')
    ∧ heap_delete w'
      = (if Z.of_nat (length bytes) mod limit =? 0
         then S (heap_delete w) else heap_delete w).
Proof.
  intros Hpool Hfree Hm.
  destruct (nonempty_snoc _ Hfree) as (rest & buf & Hsnoc).
  unfold pool_ok in Hpool. rewrite Hsnoc in Hpool.
  apply Forall_app in Hpool as [Hrest Hbuf]. apply Forall_inv in Hbuf.
  set (c0 := mkChunker outputDir (Some (clear buf))).
  set (w0 := with_pool (mkBufferPool (bufferSize_ (pool w)) rest) w).
  assert (Hsteady : steady limit (c0, w0)).
  { exists (clear buf). split; [reflexivity|]. split; [simpl; lia|].
    split; [exact Hbuf | exact Hrest]. }
  destruct (Hm (c0, w0) Hsteady)
    as (a & [c1 w1] & Hrun & Hst1 & _ & Hfree1 & Hn1 & Hd1 & new & Hfl1 & Hall & Hcat).
  cbn [fst snd] in *.
  destruct (Chunker_dtor_steady E limit limit_range evp_ok c1 w1 Hst1)
    as (w2 & last & Hdtor & Hfl2 & Hlast & Hshort & Hn2 & Hpool2 & Hempty & Hnonempty).
  exists c0, w0, a, (c1, w1), w2, (new ++ last).
  split; [exact (Chunker_ctor_ok outputDir w rest buf Hsnoc)|].
  split; [exact Hrun|]. split; [exact Hdtor|].
  change (pending c0) with (@nil byte) in Hcat. rewrite app_nil_l in Hcat.
  split; [rewrite Hfl2, Hfl1, <- app_assoc; reflexivity|].
  split.
  { rewrite fmap_app, Hlast, <- Hcat.
    symmetry. apply expected_chunks_unique; [lia | | exact Hshort].
    apply Forall_fmap. exact Hall. }
  split; [rewrite Hn2, Hn1; reflexivity|]. split; [exact Hpool2|].
  assert (Hmod : Z.of_nat (length bytes) mod limit = Z.of_nat (length (pending c1))).
  { rewrite <- Hcat, length_app, Nat2Z.inj_add, (full_chunks_length new Hall).
    rewrite Z.add_comm, Z.mul_comm, Z.mod_add by lia. apply Z.mod_small. lia. }
  rewrite Hmod. unfold free_count.
  change (freeBuffers_ (pool w0)) with rest in Hfree1.
  change (heap_delete w0) with (heap_delete w) in Hd1.
  rewrite Hsnoc, length_app. cbn [length].
  destruct (pending c1) as [|b l] eqn:Hp.
  - destruct (Hempty eq_refl) as [Hf2 Hd2]. rewrite Hf2, Hd2, Hfree1, Hd1.
    change (Z.of_nat (length (@nil byte)) =? 0) with true. cbv iota. split; [lia | reflexivity].
  - destruct (Hnonempty ltac:(discriminate)) as [Hf2 Hd2]. rewrite Hf2, Hd2, Hfree1, Hd1.
    destruct (Z.eqb_spec (Z.of_nat (length (b :: l))) 0) as [Hz|_];
      [cbn [length] in Hz; lia|]. split; [lia | reflexivity].
Qed.

(** One argument on a pool with a free buffer: its bytes leave as the chunks
    of that argument alone, and the pool is a buffer short afterwards exactly
    when the bytes end on a chunk boundary. *)
Lemma process_file_healthy (outputDir filePath : string) (w : World) :
  input_ok host filePath →
  pool_ok limit w → freeBuffers_ (pool w) ≠ [] →
  ∃ w' new,
    process_file host E limit outputDir filePath w = (Ret tt, w')
    ∧ flushed w' = flushed w ++ new
    ∧ fl_bytes <$> new = expected_chunks limit (input_bytes host filePath)
    ∧ heap_new w' = heap_new w
    ∧ pool_ok limit w'
    ∧ free_count w
      = (if ends_on_boundary host limit filePath then S (free_count w') else free_count w')
    ∧ heap_delete w'
      = (if ends_on_boundary host limit filePath then S (heap_delete w) else heap_delete w).
Proof.
  intros Hsize Hpool Hfree.
  set (w0 := put_cout (newline +:+ "Processing file: " +:+ filePath +:+ newline) w).
  set (m := (success <- dispatch host E limit filePath (extension_of filePath) ;;
             if success then ret tt
             else log_cerr ("Warning: No content processed from file: " +:+ filePath
                            +:+ newline))).
  destruct (chunker_lifetime m (input_bytes host filePath) outputDir w0 Hpool Hfree)
    as (chunker & w1 & a & st & w' & new & Hctor & Hrun & Hdtor & Hrest).
  { intros st Hsteady.
    destruct (dispatch_pushes host E limit limit_range evp_ok filePath st Hsize Hsteady)
      as (success & [c1 w1] & Hrun & Hp).
    unfold m, bind. rewrite Hrun. destruct success.
    - eexists tt, _. split; [reflexivity | exact Hp].
    - eexists tt, _. split; [reflexivity|].
      rewrite <- (app_nil_r (input_bytes host filePath)).
      eapply pushes_trans; [exact Hp|]. apply pushes_put_cerr. apply Hp. }
  exists w', new. split; [|exact Hrest].
  unfold process_file. fold w0. rewrite Hctor. fold m. rewrite Hrun. destruct a. exact Hdtor.
Qed.

(** One argument on an exhausted pool: the constructor of its [Chunker]
    throws, and nothing but the announcement on [cout] happens. *)
Lemma process_file_exhausted (outputDir filePath : string) (w : World) :
  freeBuffers_ (pool w) = [] →
  process_file host E limit outputDir filePath w
  = (Throw "No free chunk buffers available!",
     put_cout (newline +:+ "Processing file: " +:+ filePath +:+ newline) w).
Proof.
  intros Hfree. unfold process_file, Chunker_ctor.
  change (pool (put_cout (newline +:+ "Processing file: " +:+ filePath +:+ newline) w))
    with (pool w).
  rewrite (acquireBuffer_empty _ Hfree). reflexivity.
Qed.

Lemma process_files_healthy (outputDir : string) (filePaths : list string) :
  Forall (input_ok host) filePaths →
  ∀ w, pool_ok limit w →
    ∃ w' new,
      process_files host E limit outputDir filePaths w
      = (if pool_lasts host limit (free_count w) filePaths
         then Ret tt else Throw "No free chunk buffers available!", w')
      ∧ flushed w' = flushed w ++ new
      ∧ fl_bytes <$> new
        = concat ((λ filePath, expected_chunks limit (input_bytes host filePath))
                    <$> processed host limit (free_count w) filePaths)
      ∧ heap_new w' = heap_new w.
Proof.
  induction 1 as [|filePath filePaths Hsize Hsizes IH]; intros w Hpool.
  - exists w, []. rewrite app_nil_r. auto.
  - cbn [process_files pool_lasts processed].
    destruct (freeBuffers_ (pool w)) as [|b l] eqn:Hfree.
    + unfold free_count. rewrite (process_file_exhausted outputDir filePath w Hfree), Hfree.
      eexists _, []. rewrite app_nil_r. split; [reflexivity|]. auto.
    + destruct (process_file_healthy outputDir filePath w Hsize Hpool)
        as (w1 & new1 & Hrun1 & Hfl1 & Hbytes1 & Hn1 & Hpool1 & Hcount1 & _);
        [rewrite Hfree; discriminate|].
      rewrite Hrun1.
      destruct (IH w1 Hpool1) as (w2 & new2 & Hrun2 & Hfl2 & Hbytes2 & Hn2).
      assert (Hfc : free_count w = S (length l)) by (unfold free_count; rewrite Hfree; reflexivity).
      rewrite Hfc in *.
      assert (Hnext : (if ends_on_boundary host limit filePath then length l else S (length l))
                      = free_count w1)
        by (destruct (ends_on_boundary host limit filePath); lia).
      rewrite Hnext.
      exists w2, (new1 ++ new2). split; [exact Hrun2|].
      split; [rewrite Hfl2, Hfl1, app_assoc; reflexivity|].
      split; [|congruence].
      rewrite fmap_app, fmap_cons. cbn [concat]. rewrite Hbytes1, Hbytes2. reflexivity.
Qed.

Lemma BufferPool_ctor_ok (bufferCount : Z) :
  Forall (buffer_ok limit) (freeBuffers_ (BufferPool_ctor bufferCount limit)).
Proof.
  unfold BufferPool_ctor. cbn [freeBuffers_]. rewrite emplace_buffers_replicate.
  apply Forall_replicate. unfold buffer_ok, ChunkBuffer_ctor. cbn [data].
  rewrite length_replicate. lia.
Qed.

(** [main] from the creation of the output directory on: the exit code and
    the chunks handed to the finaliser, in order. *)
Lemma main_from_healthy (bufferCount : Z) (filePaths : list string) :
  (∀ errno, mkdir host ("/tmp/chunked_" +:+ pretty (main_time host)) = mkdir_errno errno
            → errno = EEXIST) →
  Forall (input_ok host) filePaths →
  fst (main_from host E limit bufferCount filePaths)
  = (if pool_lasts host limit (Z.to_nat bufferCount) filePaths
     then Ret 0 else Throw "No free chunk buffers available!")
  ∧ fl_bytes <$> flushed (snd (main_from host E limit bufferCount filePaths))
    = concat ((λ filePath, expected_chunks limit (input_bytes host filePath))
                <$> processed host limit (Z.to_nat bufferCount) filePaths)
  ∧ heap_new (snd (main_from host E limit bufferCount filePaths)) = Z.to_nat bufferCount.
Proof.
  intros Hmkdir Hsizes.
  set (g_outputDir := "/tmp/chunked_" +:+ pretty (main_time host)) in *.
  set (w0 := mkWorld (mkBufferPool limit []) (disk host) [] [] 0 0 0 []).
  assert (Hmain : main_from host E limit bufferCount filePaths
                  = main_run host E limit bufferCount g_outputDir filePaths w0).
  { unfold main_from. fold g_outputDir. fold w0.
    destruct (mkdir host g_outputDir) as [|errno] eqn:Hdir; [reflexivity|].
    rewrite (Hmkdir errno eq_refl). reflexivity. }
  rewrite Hmain. unfold main_run.
  set (w2 := mkWorld _ _ _ _ _ _ _ _).
  destruct (process_files_healthy g_outputDir filePaths Hsizes w2 (BufferPool_ctor_ok bufferCount))
    as (w3 & new & Hrun & Hfl & Hbytes & Hn).
  assert (Hfc : free_count w2 = Z.to_nat bufferCount) by apply BufferPool_ctor_length.
  rewrite Hfc in *. rewrite Hrun.
  destruct (pool_lasts host limit (Z.to_nat bufferCount) filePaths); cbn [fst snd propagate];
    (split; [reflexivity|]); (split; [|exact Hn]);
    change (flushed w2) with (@nil Flushed) in Hfl; rewrite app_nil_l in Hfl;
    cbn [flushed put_cout]; rewrite Hfl; exact Hbytes.
Qed.

Lemma pool_lasts_enough (n : nat) (filePaths : list string) :
  (length filePaths <= n)%nat →
  pool_lasts host limit n filePaths = true ∧ processed host limit n filePaths = filePaths.
Proof.
  revert n. induction filePaths as [|filePath filePaths IH]; intros n Hn; [auto|].
  cbn [length] in Hn. destruct n as [|n]; [lia|]. cbn [pool_lasts processed].
  destruct (ends_on_boundary host limit filePath).
  - destruct (IH n ltac:(lia)) as [-> ->]. auto.
  - destruct (IH (S n) ltac:(lia)) as [-> ->]. auto.
Qed.

Lemma pool_lasts_boundaries (n : nat) (filePaths : list string) :
  Forall (λ filePath, ends_on_boundary host limit filePath = true) (take n filePaths) →
  (n < length filePaths)%nat →
  pool_lasts host limit n filePaths = false
  ∧ processed host limit n filePaths = take n filePaths.
Proof.
  revert filePaths. induction n as [|n IH]; intros filePaths Hall Hlen.
  - destruct filePaths; [simpl in Hlen; lia | auto].
  - destruct filePaths as [|filePath filePaths]; [simpl in Hlen; lia|].
    cbn [take firstn] in Hall. apply Forall_cons in Hall as [Hb Hall].
    cbn [pool_lasts processed take firstn]. rewrite Hb.
    destruct (IH filePaths Hall ltac:(simpl in Hlen; lia)) as [-> ->]. auto.
Qed.

End HealthyMain.

(** ** The extension of a path *)

Lemma rfind_no_dot (s : string) : no_dot s = true → rfind "." s = None.
Proof.
  induction s as [|a s IH]; [reflexivity|]. unfold no_dot. cbn [string_forallb rfind].
  intros [Ha Hs]%andb_prop. rewrite (IH Hs).
  destruct (Ascii.eqb a "."); [discriminate Ha | reflexivity].
Qed.

Lemma rfind_last_dot (stem ext : string) :
  no_dot ext = true → rfind "." (stem +:+ "." +:+ ext) = Some (String.length stem).
Proof.
  intros Hext. induction stem as [|a stem IH].
  - change (EmptyString +:+ "." +:+ ext) with (String "." ext).
    cbn [rfind]. rewrite (rfind_no_dot ext Hext). reflexivity.
  - change (String a stem +:+ "." +:+ ext) with (String a (stem +:+ "." +:+ ext)).
    cbn [rfind String.length]. rewrite IH. reflexivity.
Qed.

Lemma substr_past (stem : string) (a : ascii) (s : string) :
  substr (String.length stem + 1) (stem +:+ String a s) = s.
Proof.
  induction stem as [|b stem IH]; [reflexivity|].
  change (String b stem +:+ String a s) with (String b (stem +:+ String a s)).
  cbn [String.length Nat.add substr]. exact IH.
Qed.

(** ** The cells of a Parquet row *)

Lemma render_cell_first_chunk (chunkedArr : list (list scalar)) (row_idx : nat) :
  render_cell (take 1 chunkedArr) row_idx = render_cell chunkedArr row_idx.
Proof. destruct chunkedArr; reflexivity. Qed.

Lemma render_cells_first_chunk (columns : list (list (list scalar))) (row_idx : nat) :
  render_cells (take 1 <$> columns) row_idx = render_cells columns row_idx.
Proof.
  induction columns as [|chunkedArr columns IH]; [reflexivity|].
  rewrite fmap_cons. cbn [render_cells]. rewrite IH, render_cell_first_chunk.
  destruct columns; reflexivity.
Qed.

(** ** [pushData] and the pool *)

(** A buffer that holds bytes is released before the next one is acquired:
    the acquisition finds it. *)
Lemma flush_acquire_supplied (E : Env) (c : Chunker) (w : World) (cur : ChunkBuffer) :
  currentBuffer_ c = Some cur → used cur ≠ 0 →
  match (flushCurrentBuffer E ;; acquire_currentBuffer) (c, w) with
  | (Ret _, (c', _)) => ∃ buf, currentBuffer_ c' = Some (clear buf)
  | (o, _) => o ≠ Throw "No free chunk buffers available!"
  end.
Proof.
  intros Hc Hu. unfold bind.
  destruct (read_bytes (data cur) (used cur)) as [bytes|] eqn:Hread.
  2:{ unfold flushCurrentBuffer. rewrite Hc, Hread.
      destruct (Z.eqb_spec (used cur) 0); [contradiction | discriminate]. }
  apply read_bytes_inv in Hread as (Hlen & _ & _).
  destruct (EVP_fault E (attempts w)) as [fault|] eqn:Hfault.
  - unfold flushCurrentBuffer. rewrite Hc, (read_bytes_Some _ _ Hlen).
    destruct (Z.eqb_spec (used cur) 0); [contradiction|].
    unfold compute_sha512. rewrite Hfault. destruct fault; discriminate.
  - rewrite (flushCurrentBuffer_nonempty E c w cur Hc Hu Hlen Hfault).
    destruct (acquire_currentBuffer_cases (mkChunker (outputDir_ c) None) (finalised E c cur w))
      as [[Hfree _] | (rest & buf & Hfree & ->)].
    + rewrite finalised_pool in Hfree. cbn [freeBuffers_] in Hfree.
      destruct (freeBuffers_ (pool w)); discriminate.
    + exists buf. reflexivity.
Qed.

Lemma pushData_loop_supplied (E : Env) (limit : Z) (input : list byte) (len : Z) :
  0 < limit < size_t_modulus →
  ∀ (budget : nat) (offset : Z) (c : Chunker) (w : World),
    used_in_range c →
    fst (pushData_loop E limit budget input len offset (c, w))
    ≠ Throw "No free chunk buffers available!".
Proof.
  intros Hlimit budget. induction budget as [|budget IH]; intros offset c w Hrange;
    [discriminate|].
  cbn [pushData_loop].
  destruct (offset <? len); [|discriminate].
  unfold bind at 1.
  destruct (deref_currentBuffer_cases c w) as [[_ ->] | (cur & Hc & ->)]; [discriminate|].
  pose proof (Hrange cur Hc) as Hused.
  assert (Hfresh : ∀ c' : Chunker, (∃ buf, currentBuffer_ c' = Some (clear buf))
                                   → used_in_range c').
  { intros c' (buf & Hc') cur' Hcur'. rewrite Hc' in Hcur'. injection Hcur' as <-.
    cbn [used clear]. unfold size_t_modulus. lia. }
  destruct (Z.eqb_spec (size_t (limit - used cur)) 0) as [Hzero|Hnz].
  - assert (Hfull : used cur ≠ 0).
    { intros Hu. rewrite Hu, Z.sub_0_r, size_t_small in Hzero; lia. }
    rewrite <- bind_assoc. unfold bind at 1.
    pose proof (flush_acquire_supplied E c w cur Hc Hfull) as Hp.
    destruct ((flushCurrentBuffer E ;; acquire_currentBuffer) (c, w))
      as [[[]|what| | |] [c' w']]; try discriminate; [|exact Hp].
    apply IH. apply Hfresh. exact Hp.
  - set (toWrite := Z.min (size_t (limit - used cur)) (size_t (len - offset))).
    unfold bind at 1.
    destruct (append_currentBuffer_cases input offset toWrite c w)
      as [-> | (cur0 & d & _ & ->)]; [discriminate|].
    set (cur1 := mkChunkBuffer d (capacity cur0) (size_t (used cur0 + toWrite))).
    set (c1 := mkChunker (outputDir_ c) (Some cur1)).
    unfold bind at 1. unfold deref_currentBuffer at 1. cbn [currentBuffer_ c1].
    destruct (Z.leb_spec limit (used cur1)) as [Hfull|_].
    + rewrite <- bind_assoc. unfold bind at 1.
      pose proof (flush_acquire_supplied E c1 w cur1 eq_refl ltac:(lia)) as Hp.
      destruct ((flushCurrentBuffer E ;; acquire_currentBuffer) (c1, w))
        as [[[]|what| | |] [c' w']]; try discriminate; [|exact Hp].
      apply IH. apply Hfresh. exact Hp.
    + apply IH. intros cur' [= <-]. apply size_t_range.
Qed.

(** ** The lines on [cout] and [cerr] *)

Lemma reported_refl (st : State) : reported st st.
Proof. exists []. cbn [List.filter fmap list_fmap]. rewrite !app_nil_r. auto. Qed.

Lemma reported_trans (st1 st2 st3 : State) :
  reported st1 st2 → reported st2 st3 → reported st1 st3.
Proof.
  intros (new1 & Hfl1 & Hout1 & Herr1) (new2 & Hfl2 & Hout2 & Herr2).
  exists (new1 ++ new2). rewrite !List.filter_app, !fmap_app.
  rewrite Hfl2, Hfl1, Hout2, Hout1, Herr2, Herr1, !app_assoc. auto.
Qed.

Lemma flushCurrentBuffer_reported (E : Env) : respects reported (flushCurrentBuffer E).
Proof.
  intros [c w].
  destruct (flushCurrentBuffer_cases E c w)
    as [[-> _] | [(cur & _ & _ & ->) | [(cur & what & _ & _ & ->)
        | (cur & Hc & Hu & Hlen & _ & ->)]]];
    try apply reported_refl.
  - exists []. cbn. rewrite !app_nil_r. auto.
  - assert (Hsize : Z.of_nat (length (content cur)) = used cur)
      by (unfold content; rewrite length_take; lia).
    unfold reported, finalised, write_chunk_file. cbn [snd].
    destruct (ofs_is_open E (attempts w) _); eexists [_];
      cbn [flushed cout cerr with_attempt with_pool]; (split; [reflexivity|]);
      cbn [List.filter fl_written negb fmap list_fmap];
      unfold cout_line, cerr_line; cbn [fl_name fl_bytes]; rewrite ?Hsize, ?app_nil_r; auto.
Qed.

Lemma acquire_currentBuffer_reported : respects reported acquire_currentBuffer.
Proof.
  intros [c w].
  destruct (acquire_currentBuffer_cases c w) as [[_ ->] | (rest & buf & Hfree & ->)];
    [apply reported_refl|].
  exists []. destruct (currentBuffer_ c); cbn; rewrite !app_nil_r; auto.
Qed.

Lemma append_currentBuffer_reported (input : list byte) (offset n : Z) :
  respects reported (append_currentBuffer input offset n).
Proof.
  intros [c w].
  destruct (append_currentBuffer_cases input offset n c w) as [-> | (cur & d & Hc & ->)];
    [apply reported_refl|].
  exists []. cbn. rewrite !app_nil_r. auto.
Qed.

(** ** The budgets of the loops suffice *)


Section Budgets.
Context (host : Host) (E : Env) (limit : Z).











End Budgets.

(** ** Relations that the callers respect *)

Section RespectsCallers.
Context (R : State → State → Prop).
Hypothesis R_refl : ∀ st, R st st.
Hypothesis R_trans : ∀ st1 st2 st3, R st1 st2 → R st2 st3 → R st1 st3.
Context (host : Host) (E : Env) (limit : Z).
Hypothesis R_pushData : ∀ input len, respects R (pushData E limit input len).
Hypothesis R_cout : ∀ msg, respects R (log_cout msg).
Hypothesis R_cerr : ∀ msg, respects R (log_cerr msg).
Hypothesis R_command : ∀ command, respects R (run_command host command).

Lemma respects_read_loop (budget : nat) :
  ∀ ifs buffer eof, respects R (read_loop E limit budget ifs buffer eof).
Proof.
  induction budget as [|budget IH]; intros ifs buffer eof; cbn [read_loop].
  - apply respects_fail. exact R_refl.
  - destruct eof; [apply respects_ret; exact R_refl|].
    destruct (stream_read ifs (Z.to_nat BUFSZ)) as [[got eof'] ifs'].
    destruct (0 <? _); [|apply IH].
    apply respects_bind; [exact R_trans | apply R_pushData | intros _; apply IH].
Qed.

Lemma respects_stream_file (filePath : string) :
  respects R (stream_file host E limit filePath).
Proof.
  unfold stream_file. destruct (ifstream_open host filePath) as [ifs|];
    (apply respects_bind; [exact R_trans | | intros _; apply respects_ret; exact R_refl]).
  - apply respects_read_loop.
  - apply R_cerr.
Qed.

Lemma respects_stream_command_output (command : string) :
  respects R (stream_command_output host E limit command).
Proof.
  unfold stream_command_output. destruct (popen_read host command) as [[pipe rc]|].
  - apply respects_bind; [exact R_trans | apply R_command|]. intros _.
    apply respects_bind; [exact R_trans | apply respects_read_loop|]. intros _.
    apply respects_bind; [exact R_trans | | intros _; apply respects_ret; exact R_refl].
    destruct (rc =? 0); [apply respects_ret; exact R_refl | apply R_cerr].
  - apply respects_bind;
      [exact R_trans | apply R_cerr | intros _; apply respects_ret; exact R_refl].
Qed.

Lemma respects_push_rows (columns : list (list (list scalar))) (rows : list nat) :
  respects R (push_rows E limit columns rows).
Proof.
  induction rows as [|row_idx rows IH]; cbn [push_rows].
  - apply respects_ret. exact R_refl.
  - apply respects_bind; [exact R_trans | apply R_pushData | intros _; exact IH].
Qed.

Lemma respects_push_row_groups (filePath : string) (row_groups : list (option Table)) :
  ∀ rg, respects R (push_row_groups E limit filePath rg row_groups).
Proof.
  induction row_groups as [|[table|] row_groups IH]; intros rg; cbn [push_row_groups].
  - apply respects_ret. exact R_refl.
  - apply respects_bind; [exact R_trans | apply respects_push_rows | intros _; apply IH].
  - apply respects_bind; [exact R_trans | apply R_cerr | intros _; apply IH].
Qed.

Lemma respects_stream_parquet (filePath : string) :
  respects R (stream_parquet host E limit filePath).
Proof.
  unfold stream_parquet. destruct (parquet_open host filePath);
    (apply respects_bind; [exact R_trans | | intros _; apply respects_ret; exact R_refl]);
    try apply R_cerr.
  apply respects_push_row_groups.
Qed.

Lemma respects_dispatch (filePath extension : string) :
  respects R (dispatch host E limit filePath extension).
Proof.
  unfold dispatch, stream_pdf, stream_doc, stream_odt, stream_rtf.
  repeat match goal with
         | |- context [if ?b then _ else _] => destruct b
         end;
    try apply respects_stream_command_output;
    try apply respects_stream_file;
    try apply respects_stream_parquet.
  apply respects_bind; [exact R_trans | apply R_cout | intros _; apply respects_stream_file].
Qed.

End RespectsCallers.

(** ** The files across a run of [main] *)

Lemma log_cout_history (E : Env) (msg : string) : respects (history_grows E) (log_cout msg).
Proof.
  intros [c w]. split; [reflexivity|]. exists []. cbn. rewrite app_nil_r.
  repeat split; constructor.
Qed.

Lemma log_cerr_history (E : Env) (msg : string) : respects (history_grows E) (log_cerr msg).
Proof.
  intros [c w]. split; [reflexivity|]. exists []. cbn. rewrite app_nil_r.
  repeat split; constructor.
Qed.

Lemma run_command_history (host : Host) (E : Env) (command : string) :
  commands_keep_files host → respects (history_grows E) (run_command host command).
Proof.
  intros Hkeep [c w]. split; [reflexivity|]. exists []. cbn. rewrite app_nil_r, Hkeep.
  repeat split; constructor.
Qed.

Section History.
Context (host : Host) (E : Env) (limit : Z).
Hypothesis keep_files : commands_keep_files host.

Lemma process_file_history (outputDir filePath : string) (w : World) :
  ∃ new, flushed (snd (process_file host E limit outputDir filePath w)) = flushed w ++ new
         ∧ Forall (record_ok E outputDir) new
         ∧ files (snd (process_file host E limit outputDir filePath w))
           = replay new (files w)
         ∧ Forall (stored_ok E) new.
Proof.
  unfold process_file, Chunker_ctor.
  set (w0 := put_cout _ w).
  destruct (acquireBuffer (pool w0)) as [[buf| | | |] p];
    try (exists []; cbn; rewrite app_nil_r; repeat split; constructor).
  set (c0 := mkChunker outputDir (Some buf)). set (w1 := with_pool p w0).
  match goal with
  | |- context [bind ?m ?k (c0, w1)] =>
      assert (Hm : respects (history_grows E) (bind m k))
  end.
  { apply respects_bind; [apply history_grows_trans | |].
    - apply (respects_dispatch _ (history_grows_refl E) (history_grows_trans E) host E limit
               (pushData_history E limit) (log_cout_history E) (log_cerr_history E)
               (λ command, run_command_history host E command keep_files)).
    - intros []; [apply respects_ret; apply history_grows_refl | apply log_cerr_history]. }
  destruct (Hm (c0, w1)) as (Hdir & new1 & Hfl1 & Hok1 & Hfs1 & Hst1).
  match goal with
  | |- context [bind ?m ?k (c0, w1)] => destruct (bind m k (c0, w1)) as [o [c1 w2]]
  end.
  cbn [fst snd] in *.
  destruct o as [[]| | | |]; [|exists new1; auto ..].
  destruct (Chunker_dtor_history E c1 w2) as (new2 & Hfl2 & Hok2 & Hfs2 & Hst2).
  exists (new1 ++ new2). rewrite Hfl2, Hfs2, Hfl1, Hfs1, replay_app, app_assoc.
  split; [reflexivity|].
  split; [apply Forall_app; split; [exact Hok1|]; rewrite Hdir in Hok2; exact Hok2|].
  split; [reflexivity|]. apply Forall_app. auto.
Qed.

Lemma process_files_history (outputDir : string) (filePaths : list string) :
  ∀ w, ∃ new,
    flushed (snd (process_files host E limit outputDir filePaths w)) = flushed w ++ new
    ∧ Forall (record_ok E outputDir) new
    ∧ files (snd (process_files host E limit outputDir filePaths w)) = replay new (files w)
    ∧ Forall (stored_ok E) new.
Proof.
  induction filePaths as [|filePath filePaths IH]; intros w.
  - exists []. cbn. rewrite app_nil_r. repeat split; constructor.
  - cbn [process_files].
    destruct (process_file_history outputDir filePath w)
      as (new1 & Hfl1 & Hok1 & Hfs1 & Hst1).
    destruct (process_file host E limit outputDir filePath w) as [o w1]. cbn [snd] in *.
    destruct o as [[]| | | |]; [|exists new1; auto ..].
    destruct (IH w1) as (new2 & Hfl2 & Hok2 & Hfs2 & Hst2).
    exists (new1 ++ new2). rewrite Hfl2, Hfs2, Hfl1, Hfs1, replay_app, app_assoc.
    repeat split; apply Forall_app; auto.
Qed.

End History.

(** ** Facts about the examples *)

Lemma small_threshold_range : 0 < 10 < size_t_modulus.
Proof. unfold size_t_modulus. lia. Qed.

Lemma demo_env_ok : EVP_ok demo_env.
Proof. intros n. reflexivity. Qed.

Lemma fresh_state_steady : steady 10 fresh_state.
Proof.
  exists (ChunkBuffer_ctor 10). split; [reflexivity|]. split; [simpl; lia|].
  split; [unfold buffer_ok; simpl; lia | constructor].
Qed.

Lemma demo_host_reads_to_end (filePath : string) :
  filePath ≠ "/tmp" → filePath ≠ "/dev/zero" → reads_to_end demo_host filePath.
Proof.
  intros Hne Hne' ifs. unfold demo_host. cbn [ifstream_open].
  destruct (String.eqb filePath "a.txt"); [intros [= <-]; reflexivity|].
  destruct (String.eqb filePath "empty.txt"); [intros [= <-]; reflexivity|].
  destruct (String.eqb_spec filePath "/tmp"); [contradiction|].
  destruct (String.eqb_spec filePath "/dev/zero"); [contradiction | discriminate].
Qed.

Lemma demo_host_keeps_files : commands_keep_files demo_host.
Proof. intros command fs. reflexivity. Qed.

(** The arguments of the examples that reach their end. *)
Lemma demo_host_stream_ends (filePath : string) :
  filePath ∈ ["a.txt"; "empty.txt"; "nope.txt"; "x.PDF"; "t.parquet"] →
  stream_ends demo_host filePath.
Proof.
  intros Hin. repeat (apply elem_of_cons in Hin as [->|Hin]); [..|inversion Hin].
  - apply (demo_host_reads_to_end "a.txt"); discriminate.
  - apply (demo_host_reads_to_end "empty.txt"); discriminate.
  - apply (demo_host_reads_to_end "nope.txt"); discriminate.
  - intros pipe rc [= <- <-]. reflexivity.
  - exact I.
Qed.

Lemma demo_host_input_ok (filePath : string) :
  filePath ∈ ["a.txt"; "empty.txt"; "nope.txt"; "x.PDF"; "t.parquet"] →
  input_ok demo_host filePath.
Proof.
  intros Hin. split; [|apply demo_host_stream_ends; exact Hin].
  repeat (apply elem_of_cons in Hin as [->|Hin]); [..|inversion Hin];
    vm_compute; reflexivity.
Qed.

Lemma demo_host_mkdir (errno : Z) :
  mkdir demo_host ("/tmp/chunked_" +:+ pretty (main_time demo_host)) = mkdir_errno errno →
  errno = EEXIST.
Proof. discriminate. Qed.

(** * The claims of the specification *)

(** C1. Whatever the partition of a byte sequence [s] into [pushData] calls,
    a stream that pushes [s] and is then closed emits chunks whose contents,
    concatenated in flush order, are [s]; two partitions of the same [s] emit
    the same chunks, namely the consecutive threshold-sized segments of [s].
    When every output file opens and the digest separates the chunks of the
    stream, the same bytes are read back from the files named by the emitted
    chunks. *)
Theorem chunks_reassemble_push_invariant (E : Env) (limit : Z) (outputDir : string)
    (s : list byte) (blocks1 blocks2 : list (list byte)) (w : World) :
  0 < limit < size_t_modulus → EVP_ok E →
  pool_ok limit w → freeBuffers_ (pool w) ≠ [] →
  Forall (λ block, Z.of_nat (length block) < size_t_modulus) blocks1 →
  Forall (λ block, Z.of_nat (length block) < size_t_modulus) blocks2 →
  concat blocks1 = s → concat blocks2 = s →
  ∃ w1 w2,
    process_stream E limit outputDir blocks1 w = (Ret tt, w1)
    ∧ process_stream E limit outputDir blocks2 w = (Ret tt, w2)
    ∧ concat (fl_bytes <$> emitted_since w w1) = s
    ∧ fl_bytes <$> emitted_since w w1 = fl_bytes <$> emitted_since w w2
    ∧ fl_bytes <$> emitted_since w w1 = expected_chunks limit s
    ∧ (sha512_sized E → ofs_ok E →
       (∀ chunk1 chunk2,
          chunk1 ∈ expected_chunks limit s → chunk2 ∈ expected_chunks limit s →
          collision_free E chunk1 chunk2) →
       concat ((λ f, default [] (files w1 !! fl_name f)) <$> emitted_since w w1) = s).
Proof.
  intros Hlimit Hevp Hpool Hfree Hb1 Hb2 HS1 HS2.
  destruct (process_stream_healthy E limit outputDir blocks1 w Hlimit Hevp Hpool Hfree Hb1)
    as (w1 & Hrun1 & _ & Hch1 & _).
  destruct (process_stream_healthy E limit outputDir blocks2 w Hlimit Hevp Hpool Hfree Hb2)
    as (w2 & Hrun2 & _ & Hch2 & _).
  exists w1, w2. rewrite Hch1, Hch2, HS1, HS2.
  split; [exact Hrun1|]. split; [exact Hrun2|].
  split; [apply concat_expected_chunks; lia|]. split; [reflexivity|]. split; [reflexivity|].
  intros Hsized Hopen Hinj. rewrite <- HS1 in Hinj.
  destruct (persisted_chunks_reassemble E limit outputDir blocks1 w Hlimit Hevp Hsized Hopen
              Hpool Hfree Hb1 Hinj) as (w1' & Hrun1' & Hread).
  rewrite Hrun1 in Hrun1'. injection Hrun1' as <-. rewrite Hread. exact HS1.
Qed.

Lemma chunks_reassemble_push_invariant_witness :
  ∃ w1 w2,
    process_stream demo_env 10 "/tmp/chunked_0"
      [bytes_of "abc"; bytes_of "defghijklmno"] (World_init 1 10) = (Ret tt, w1)
    ∧ process_stream demo_env 10 "/tmp/chunked_0"
        [bytes_of "abcdefgh"; []; bytes_of "ijklm"; bytes_of "no"] (World_init 1 10)
      = (Ret tt, w2)
    ∧ concat (fl_bytes <$> emitted_since (World_init 1 10) w1) = bytes_of "abcdefghijklmno"
    ∧ fl_bytes <$> emitted_since (World_init 1 10) w1
      = fl_bytes <$> emitted_since (World_init 1 10) w2
    ∧ fl_bytes <$> emitted_since (World_init 1 10) w1
      = [bytes_of "abcdefghij"; bytes_of "klmno"].
Proof.
  destruct (chunks_reassemble_push_invariant demo_env 10 "/tmp/chunked_0"
              (bytes_of "abcdefghijklmno")
              [bytes_of "abc"; bytes_of "defghijklmno"]
              [bytes_of "abcdefgh"; []; bytes_of "ijklm"; bytes_of "no"] (World_init 1 10))
    as (w1 & w2 & Hrun1 & Hrun2 & Hcat & Hsame & Hchunks & _).
  - unfold size_t_modulus. lia.
  - intros n. reflexivity.
  - repeat constructor. unfold buffer_ok. simpl. lia.
  - discriminate.
  - repeat constructor; unfold size_t_modulus; simpl; lia.
  - repeat constructor; unfold size_t_modulus; simpl; lia.
  - reflexivity.
  - reflexivity.
  - exists w1, w2. repeat split; assumption.
Defined.

(** C2. In a stream every emitted chunk is non-empty and no longer than the
    threshold, and every emitted chunk except the last has exactly the
    threshold's length. *)
Theorem chunk_lengths (E : Env) (limit : Z) (outputDir : string)
    (blocks : list (list byte)) (w : World) :
  0 < limit < size_t_modulus → EVP_ok E →
  pool_ok limit w → freeBuffers_ (pool w) ≠ [] →
  Forall (λ block, Z.of_nat (length block) < size_t_modulus) blocks →
  ∃ w', process_stream E limit outputDir blocks w = (Ret tt, w')
        ∧ ∀ (i : nat) (f : Flushed), emitted_since w w' !! i = Some f →
            0 < Z.of_nat (length (fl_bytes f)) <= limit
            ∧ ((S i < length (emitted_since w w'))%nat →
               Z.of_nat (length (fl_bytes f)) = limit).
Proof.
  intros Hlimit Hevp Hpool Hfree Hblocks.
  destruct (process_stream_healthy E limit outputDir blocks w Hlimit Hevp Hpool Hfree Hblocks)
    as (w' & Hrun & _ & Hch & _).
  exists w'. split; [exact Hrun|]. intros i f Hi.
  assert (Hi' : expected_chunks limit (concat blocks) !! i = Some (fl_bytes f))
    by (rewrite <- Hch, list_lookup_fmap, Hi; reflexivity).
  assert (Hlen : length (emitted_since w w') = length (expected_chunks limit (concat blocks)))
    by (rewrite <- Hch, length_fmap; reflexivity).
  unfold expected_chunks in Hi', Hlen.
  destruct (segments_lengths (Z.to_nat limit) _ (concat blocks) ltac:(lia) (Nat.le_refl _)
              i (fl_bytes f) Hi') as [H1 H2].
  split; [lia|]. intros Hmore. rewrite Hlen in Hmore. specialize (H2 Hmore). lia.
Qed.

Lemma chunk_lengths_witness :
  ∃ w', process_stream demo_env 10 "/tmp/chunked_0"
          [bytes_of "abc"; bytes_of "defghijklmno"; bytes_of "pqrstuvwxyz"] (World_init 1 10)
        = (Ret tt, w')
        ∧ ∀ (i : nat) (f : Flushed), emitted_since (World_init 1 10) w' !! i = Some f →
            0 < Z.of_nat (length (fl_bytes f)) <= 10
            ∧ ((S i < length (emitted_since (World_init 1 10) w'))%nat →
               Z.of_nat (length (fl_bytes f)) = 10).
Proof.
  apply (chunk_lengths demo_env 10 "/tmp/chunked_0").
  - unfold size_t_modulus. lia.
  - intros n. reflexivity.
  - repeat constructor. unfold buffer_ok. simpl. lia.
  - discriminate.
  - repeat constructor; unfold size_t_modulus; simpl; lia.
Defined.

(** C3. The buffers in circulation do not stay at the [bufferCount] of the
    pool's construction: in the program's own configuration, constructing
    a [Chunker] and destroying it before any byte was pushed leaves 99 of the
    100 buffers (free plus checked out), one having been deleted. No buffer
    was allocated meanwhile. *)
Theorem total_buffers_not_invariant (E : Env) (limit : Z) (outputDir : string) :
  ∃ s, run E limit [op_construct outputDir; op_destroy 0] (System_init NUM_BUFFERS CHUNK_LIMIT)
       = Some s
       ∧ total_buffers (System_init NUM_BUFFERS CHUNK_LIMIT) = 100%nat
       ∧ total_buffers s = 99%nat
       ∧ heap_new (sys_world s) = 100%nat
       ∧ heap_delete (sys_world s) = 1%nat.
Proof.
  destruct (unused_chunker_loses_buffer E limit outputDir NUM_BUFFERS CHUNK_LIMIT)
    as (s & Hrun & Htotal & Hnew & Hdel); [reflexivity|].
  exists s. split; [exact Hrun|]. split; [apply total_buffers_init|].
  split; [exact Htotal|]. split; [exact Hnew | exact Hdel].
Qed.

(** C4. Pool size 1, threshold 10, two sequential streams of 10 bytes each:
    the first stream completes and emits its chunk, but it ends with an empty
    current buffer, which its destructor deletes instead of releasing; the
    pool is then empty and the constructor of the second [Chunker] throws. *)
Theorem second_stream_finds_pool_empty :
  let first := process_stream demo_env 10 "/tmp/chunked_0" [bytes_of "abcdefghij"]
                 (World_init 1 10) in
  let second := process_stream demo_env 10 "/tmp/chunked_0" [bytes_of "klmnopqrst"]
                  (snd first) in
  fst first = Ret tt
  ∧ fl_bytes <$> flushed (snd first) = [bytes_of "abcdefghij"]
  ∧ freeBuffers_ (pool (snd first)) = []
  ∧ heap_delete (snd first) = 1%nat
  ∧ fst second = Throw "No free chunk buffers available!"
  ∧ flushed (snd second) = flushed (snd first)
  ∧ fst (process_streams demo_env 10 "/tmp/chunked_0"
           [[bytes_of "abcdefghij"]; [bytes_of "klmnopqrst"]] (World_init 1 10))
    = Throw "No free chunk buffers available!".
Proof. repeat split; vm_compute; reflexivity. Qed.

(** C5. [acquireBuffer] on a pool whose free vector is empty throws "No free
    chunk buffers available!" and leaves the pool as it is: it returns at
    once and constructs no buffer; on a non-empty free vector it removes the
    last buffer, clears it ([used = 0], bytes and capacity kept) and returns
    it, the other free buffers staying in place. *)
Theorem acquireBuffer_spec (p : BufferPool) :
  (freeBuffers_ p = [] →
   acquireBuffer p = (Throw "No free chunk buffers available!", p))
  ∧ (∀ rest buf, freeBuffers_ p = rest ++ [buf] →
       ∃ got, acquireBuffer p = (Ret got, mkBufferPool (bufferSize_ p) rest)
              ∧ used got = 0 ∧ data got = data buf ∧ capacity got = capacity buf)
  ∧ (∀ o p', acquireBuffer p = (o, p') →
       (∃ buf, o = Ret (clear buf) ∧ freeBuffers_ p = freeBuffers_ p' ++ [buf]
               ∧ bufferSize_ p' = bufferSize_ p)
       ∨ (o = Throw "No free chunk buffers available!" ∧ freeBuffers_ p = [] ∧ p' = p)).
Proof.
  split; [apply acquireBuffer_empty|]. split.
  - intros rest buf Hfree. exists (clear buf).
    rewrite (acquireBuffer_back p rest buf Hfree). auto.
  - intros o p'. unfold acquireBuffer.
    destruct (pop_back (freeBuffers_ p)) as [[rest buf]|] eqn:Hpop.
    + apply pop_back_Some in Hpop. intros [= <- <-]. left. exists buf. auto.
    + apply pop_back_None in Hpop. intros [= <- <-]. right. auto.
Qed.

Lemma acquireBuffer_spec_witness :
  acquireBuffer (BufferPool_ctor 0 10)
  = (Throw "No free chunk buffers available!", BufferPool_ctor 0 10)
  ∧ ∃ got, acquireBuffer (BufferPool_ctor 2 10) = (Ret got, BufferPool_ctor 1 10)
           ∧ used got = 0.
Proof.
  split.
  - apply (acquireBuffer_spec (BufferPool_ctor 0 10)). reflexivity.
  - destruct (acquireBuffer_spec (BufferPool_ctor 2 10)) as (_ & Hback & _).
    destruct (Hback [ChunkBuffer_ctor 10] (ChunkBuffer_ctor 10) eq_refl)
      as (got & Hgot & Hused & _).
    exists got. split; [exact Hgot | exact Hused].
Defined.

(** C6. When the output file of a chunk cannot be opened, the flush still
    returns normally: the error is reported on [cerr], no file is written
    (the bytes of the chunk are lost), and the buffer is released to the
    pool; chunker, pool and heap are as after a flush whose file did open.
    A whole stream none of whose files opens runs to its end all the same,
    handing every chunk to the finaliser and leaving the files untouched. *)
Theorem persist_failure_is_local (E : Env) (c : Chunker) (w : World) (cur : ChunkBuffer) :
  currentBuffer_ c = Some cur → used cur ≠ 0 →
  0 <= used cur <= Z.of_nat (length (data cur)) →
  EVP_fault E (attempts w) = None →
  ofs_is_open E (attempts w)
    (chunk_file_name (outputDir_ c) (hex_of_hash (EVP_sha512 E (content cur)))
       (std_time E (attempts w))) = false →
  let E_open := mkEnv (EVP_sha512 E) (EVP_fault E) (std_time E) (λ _ _, true) (λ _ _, None) in
  let fname := chunk_file_name (outputDir_ c) (hex_of_hash (EVP_sha512 E (content cur)))
                 (std_time E (attempts w)) in
  (∃ w' w_open,
     flushCurrentBuffer E (c, w) = (Ret tt, (mkChunker (outputDir_ c) None, w'))
     ∧ flushCurrentBuffer E_open (c, w) = (Ret tt, (mkChunker (outputDir_ c) None, w_open))
     ∧ cerr w' = cerr w ++ ["Error writing chunk file: " +:+ fname +:+ newline]
     ∧ cout w' = cout w
     ∧ files w' = files w
     ∧ files w_open = <[fname := content cur]> (files w)
     ∧ pool w' = mkBufferPool (bufferSize_ (pool w)) (freeBuffers_ (pool w) ++ [clear cur])
     ∧ pool w' = pool w_open
     ∧ heap_new w' = heap_new w_open
     ∧ heap_delete w' = heap_delete w_open
     ∧ attempts w' = attempts w_open)
  ∧ (∀ limit outputDir blocks w0,
       0 < limit < size_t_modulus → EVP_ok E →
       pool_ok limit w0 → freeBuffers_ (pool w0) ≠ [] →
       Forall (λ block, Z.of_nat (length block) < size_t_modulus) blocks →
       (∀ n name, ofs_is_open E n name = false) →
       ∃ w1, process_stream E limit outputDir blocks w0 = (Ret tt, w1)
             ∧ fl_bytes <$> emitted_since w0 w1 = expected_chunks limit (concat blocks)
             ∧ files w1 = files w0
             ∧ (free_count w1 + heap_delete w1 = free_count w0 + heap_delete w0)%nat).
Proof.
  intros Hc Hu Hlen Hok Hclosed E_open fname. split.
  - exists (finalised E c cur w), (finalised E_open c cur w).
    destruct (finalised_files E c cur w) as (Hfiles & Hcout & Hcerr).
    destruct (finalised_files E_open c cur w) as (Hfiles' & _ & _).
    fold fname in Hclosed. cbn zeta in Hfiles, Hcout, Hcerr, Hfiles'.
    fold fname in Hfiles, Hcout, Hcerr. rewrite Hclosed in Hfiles, Hcout, Hcerr.
    destruct (finalised_heap E c cur w) as (Hn & Hd & Ha).
    destruct (finalised_heap E_open c cur w) as (Hn' & Hd' & Ha').
    split; [apply flushCurrentBuffer_nonempty; assumption|].
    split; [apply flushCurrentBuffer_nonempty; assumption|].
    split; [exact Hcerr|]. split; [exact Hcout|]. split; [exact Hfiles|].
    split; [exact Hfiles'|]. split; [apply finalised_pool|].
    split; [rewrite !finalised_pool; reflexivity|].
    split; [congruence|]. split; congruence.
  - intros limit outputDir blocks w0 Hlimit Hevp Hpool Hfree Hblocks Hnone.
    destruct (process_stream_healthy E limit outputDir blocks w0 Hlimit Hevp Hpool Hfree Hblocks)
      as (w1 & Hrun & _ & Hchunks & _ & Hacc & _).
    exists w1. split; [exact Hrun|]. split; [exact Hchunks|]. split; [|exact Hacc].
    destruct (process_stream_history E limit outputDir blocks w0)
      as (new & _ & Hnew & Hfs & _).
    rewrite Hrun in Hfs. simpl in Hfs. rewrite Hfs.
    apply replay_unwritten. eapply record_unwritten; eassumption.
Qed.

Lemma persist_failure_is_local_witness :
  let cur := mkChunkBuffer (bytes_of "abcdefghij") 10 10 in
  let c := mkChunker "/tmp/chunked_0" (Some cur) in
  let w := with_pool (BufferPool_ctor 0 10) (World_init 1 10) in
  ∃ w', flushCurrentBuffer readonly_env (c, w) = (Ret tt, (mkChunker "/tmp/chunked_0" None, w'))
        ∧ files w' = files w
        ∧ length (cerr w') = 1%nat
        ∧ freeBuffers_ (pool w') = [clear cur].
Proof.
  intros cur c w.
  destruct (persist_failure_is_local readonly_env c w cur) as [(w' & _ & Hrun & _ & Herr & _ & Hfiles & _ & Hpool & _) _].
  - reflexivity.
  - discriminate.
  - simpl. lia.
  - reflexivity.
  - reflexivity.
  - exists w'. split; [exact Hrun|]. split; [exact Hfiles|].
    split; [rewrite Herr; reflexivity | rewrite Hpool; reflexivity].
Defined.




(** C8. The destructor finalises the current buffer as the last chunk when
    it holds bytes ([used > 0]): the first [used] bytes are written to the
    file named by their digest and the time (or the failure to open it is
    reported), the chunk is reported, and the buffer goes back to the pool
    and is not deleted. When the buffer is empty the destructor emits
    nothing: no file, no line, no history entry; the buffer is deleted and the
    pool is as before. And no operation, neither a push nor the end of a
    stream, ever emits a chunk without bytes, the emitted chunks being all
    that changes the files. *)
Theorem stream_end_flushes_nonempty_only (E : Env) (c : Chunker) (w : World) :
  (∀ cur, currentBuffer_ c = Some cur → used cur ≠ 0 →
     0 <= used cur <= Z.of_nat (length (data cur)) →
     EVP_fault E (attempts w) = None →
     let bytes := take (Z.to_nat (used cur)) (data cur) in
     let hashVal := hex_of_hash (EVP_sha512 E bytes) in
     let now := std_time E (attempts w) in
     let fname := outputDir_ c +:+ "/" +:+ hashVal +:+ "_" +:+ pretty now +:+ ".txt" in
     let opened := ofs_is_open E (attempts w) fname in
     let stored := ofs_stored E (attempts w) fname bytes in
     ∃ w', Chunker_dtor E (c, w) = (Ret tt, w')
           ∧ flushed w' = flushed w ++ [mkFlushed fname hashVal now bytes opened stored]
           ∧ Z.of_nat (length bytes) = used cur
           ∧ files w' = (if opened then <[fname := stored]> (files w) else files w)
           ∧ cout w'
             = (if opened
                then cout w ++ ["Flushed chunk -> " +:+ fname +:+ " (size: "
                                +:+ pretty (used cur) +:+ " bytes)" +:+ newline]
                else cout w)
           ∧ cerr w'
             = (if opened
                then cerr w
                else cerr w ++ ["Error writing chunk file: " +:+ fname +:+ newline])
           ∧ pool w'
             = mkBufferPool (bufferSize_ (pool w)) (freeBuffers_ (pool w) ++ [clear cur])
           ∧ heap_new w' = heap_new w
           ∧ heap_delete w' = heap_delete w
           ∧ attempts w' = S (attempts w))
  ∧ (∀ cur, currentBuffer_ c = Some cur → used cur = 0 →
       ∃ w', Chunker_dtor E (c, w) = (Ret tt, w')
             ∧ flushed w' = flushed w ∧ files w' = files w
             ∧ cout w' = cout w ∧ cerr w' = cerr w
             ∧ pool w' = pool w
             ∧ heap_new w' = heap_new w
             ∧ heap_delete w' = S (heap_delete w)
             ∧ attempts w' = attempts w)
  ∧ (∀ f, f ∈ emitted_since w (snd (Chunker_dtor E (c, w))) → fl_bytes f ≠ [])
  ∧ (∀ limit input len f,
       f ∈ emitted_since w (snd (snd (pushData E limit input len (c, w)))) → fl_bytes f ≠ [])
  ∧ (∀ limit outputDir blocks f,
       f ∈ emitted_since w (snd (process_stream E limit outputDir blocks w)) →
       fl_bytes f ≠ [])
  ∧ files (snd (Chunker_dtor E (c, w)))
    = replay (emitted_since w (snd (Chunker_dtor E (c, w)))) (files w)
  ∧ (∀ limit input len,
       files (snd (snd (pushData E limit input len (c, w))))
       = replay (emitted_since w (snd (snd (pushData E limit input len (c, w))))) (files w)).
Proof.
  split; [|split; [|split; [|split; [|split; [|split]]]]].
  - intros cur Hc Hu Hlen Hok bytes hashVal now fname opened stored. unfold Chunker_dtor.
    rewrite (flushCurrentBuffer_nonempty E c w cur Hc Hu Hlen Hok).
    cbn [currentBuffer_ unique_ptr_dtor].
    exists (finalised E c cur w).
    destruct (finalised_files E c cur w) as (Hfiles & Hcout & Hcerr).
    destruct (finalised_heap E c cur w) as (Hnew & Hdel & Hatt).
    split; [reflexivity|].
    split; [unfold finalised; cbn [flushed with_attempt with_pool];
            apply write_chunk_file_flushed|].
    split; [unfold bytes; rewrite length_take; lia|].
    split; [exact Hfiles|]. split; [exact Hcout|]. split; [exact Hcerr|].
    split; [apply finalised_pool|]. auto.
  - intros cur Hc Hzero. rewrite (Chunker_dtor_empty E c w cur Hc Hzero).
    eexists. split; [reflexivity|]. cbn. auto 10.
  - intros f. destruct (Chunker_dtor_history E c w) as (new & Hfl & Hok & _).
    rewrite (emitted_since_app _ _ _ Hfl). intros Hin.
    apply (proj1 (Forall_forall _ _) Hok f Hin).
  - intros limit input len f.
    destruct (pushData_history E limit input len (c, w)) as (_ & new & Hfl & Hok & _).
    simpl in Hfl. rewrite (emitted_since_app _ _ _ Hfl). intros Hin.
    apply (proj1 (Forall_forall _ _) Hok f Hin).
  - intros limit outputDir blocks f.
    destruct (process_stream_history E limit outputDir blocks w) as (new & Hfl & Hok & _).
    rewrite (emitted_since_app _ _ _ Hfl). intros Hin.
    apply (proj1 (Forall_forall _ _) Hok f Hin).
  - destruct (Chunker_dtor_history E c w) as (new & Hfl & _ & Hfs & _).
    rewrite (emitted_since_app _ _ _ Hfl). exact Hfs.
  - intros limit input len.
    destruct (pushData_history E limit input len (c, w)) as (_ & new & Hfl & _ & Hfs & _).
    simpl in Hfl, Hfs. rewrite (emitted_since_app _ _ _ Hfl). exact Hfs.
Qed.

Lemma stream_end_flushes_nonempty_only_witness :
  let w := with_pool (BufferPool_ctor 0 10) (World_init 1 10) in
  let cur := mkChunkBuffer (bytes_of "klmnofghij") 10 5 in
  let fname := "/tmp/chunked_0/"
               +:+ "1febe483ff5714a51e9593630a89e63dd0baf0d6c1dc17dd0e73b96e24ec1066"
               +:+ "786ce25c7dccc2849c508fceb1dda92956cda3ef6b89a409e2517f7d7ebcc208"
               +:+ "_1700000000.txt" in
  (∃ w', Chunker_dtor demo_env (mkChunker "/tmp/chunked_0" (Some cur), w) = (Ret tt, w')
         ∧ fl_bytes <$> flushed w' = [bytes_of "klmno"]
         ∧ files w' = {[ fname := bytes_of "klmno" ]}
         ∧ freeBuffers_ (pool w') = [clear cur]
         ∧ heap_delete w' = 0%nat)
  ∧ (∃ w', Chunker_dtor demo_env
             (mkChunker "/tmp/chunked_0" (Some (mkChunkBuffer (bytes_of "abcdefghij") 10 0)), w)
           = (Ret tt, w')
           ∧ flushed w' = [] ∧ files w' = ∅
           ∧ freeBuffers_ (pool w') = []
           ∧ heap_delete w' = 1%nat).
Proof.
  intros w cur fname. split.
  - destruct (stream_end_flushes_nonempty_only demo_env
                (mkChunker "/tmp/chunked_0" (Some cur)) w) as (Hfull & _).
    destruct (Hfull cur eq_refl)
      as (w' & Hrun & Hfl & _ & Hfiles & _ & _ & Hpool & _ & Hdel & _);
      [discriminate | simpl; lia | reflexivity |].
    exists w'. split; [exact Hrun|].
    split; [rewrite Hfl; reflexivity|].
    split.
    + rewrite Hfiles.
      change (hex_of_hash (EVP_sha512 demo_env (take (Z.to_nat (used cur)) (data cur))))
        with (hex_of_hash (SHA512.digest (bytes_of "klmno"))).
      rewrite sha512_klmno_hex. reflexivity.
    + split; [rewrite Hpool; reflexivity | exact Hdel].
  - destruct (stream_end_flushes_nonempty_only demo_env
                (mkChunker "/tmp/chunked_0" (Some (mkChunkBuffer (bytes_of "abcdefghij") 10 0))) w)
      as (_ & Hempty & _).
    destruct (Hempty (mkChunkBuffer (bytes_of "abcdefghij") 10 0) eq_refl eq_refl)
      as (w' & Hrun & Hfl & Hfiles & _ & _ & Hpool & _ & Hdel & _).
    exists w'. split; [exact Hrun|]. split; [exact Hfl|]. split; [exact Hfiles|].
    split; [rewrite Hpool; reflexivity | exact Hdel].
Defined.

(** C9, as the specification states it, fails: two chunks with the same
    content finalised within the same second get the same file name, and the
    second write goes to the file the first one persisted. *)
Lemma later_write_replaces_chunk_file :
  let r := process_stream demo_env 10 "/tmp/chunked_0"
             [bytes_of "aaaaaaaaaaaaaaaaaaaa"] (World_init 1 10) in
  fst r = Ret tt
  ∧ fl_bytes <$> flushed (snd r) = [bytes_of "aaaaaaaaaa"; bytes_of "aaaaaaaaaa"]
  ∧ fl_written <$> flushed (snd r) = [true; true]
  ∧ size (files (snd r)) = 1%nat
  ∧ ¬ never_rewrites (flushed (snd r)).
Proof.
  intros r.
  assert (Hlen : length (flushed (snd r)) = 2%nat) by (vm_compute; reflexivity).
  assert (Hwritten : fl_written <$> flushed (snd r) = [true; true])
    by (vm_compute; reflexivity).
  assert (Hnames : (fl_name <$> flushed (snd r)) !! 0%nat
                   = (fl_name <$> flushed (snd r)) !! 1%nat)
    by (vm_compute; reflexivity).
  split; [vm_compute; reflexivity|]. split; [vm_compute; reflexivity|].
  split; [exact Hwritten|]. split; [vm_compute; reflexivity|].
  intros Hnever.
  destruct (flushed (snd r)) as [|f0 [|f1 [|f2 h]]]; try discriminate Hlen.
  simpl in Hwritten, Hnames. injection Hwritten as Hw0 Hw1. injection Hnames as Hnames.
  apply (Hnever 0%nat 1%nat f0 f1 eq_refl eq_refl); [lia | exact Hw0 | exact Hw1 | exact Hnames].
Qed.

(** C9, amended. A flush writes at most one file, the one whose name is
    made of the output directory, the digest of the chunk and the timestamp;
    every file of another name is left as it is. The name coincides with that
    of an earlier chunk of the same directory only if digest and timestamp
    both coincide, and then, for a digest that separates the two contents,
    the earlier chunk had the same bytes. Over a whole stream the files change
    by the writes of the emitted chunks, one each in flush order, and by
    nothing else. *)
Theorem chunk_file_written_once_by_name (E : Env) (c : Chunker) (w : World)
    (cur : ChunkBuffer) :
  currentBuffer_ c = Some cur → used cur ≠ 0 →
  0 <= used cur <= Z.of_nat (length (data cur)) →
  EVP_fault E (attempts w) = None → sha512_sized E →
  let hashVal := hex_of_hash (EVP_sha512 E (content cur)) in
  let now := std_time E (attempts w) in
  let fname := chunk_file_name (outputDir_ c) hashVal now in
  (∃ w', flushCurrentBuffer E (c, w) = (Ret tt, (mkChunker (outputDir_ c) None, w'))
         ∧ files w' = (if ofs_is_open E (attempts w) fname
                       then <[fname := ofs_stored E (attempts w) fname (content cur)]> (files w)
                       else files w)
         ∧ (∀ other, other ≠ fname → files w' !! other = files w !! other)
         ∧ flushed w'
           = flushed w ++ [mkFlushed fname hashVal now (content cur)
                             (ofs_is_open E (attempts w) fname)
                             (ofs_stored E (attempts w) fname (content cur))])
  ∧ (∀ earlier, record_ok E (outputDir_ c) earlier → fl_name earlier = fname →
       fl_digest earlier = hashVal ∧ fl_time earlier = now
       ∧ (collision_free E (fl_bytes earlier) (content cur) →
          fl_bytes earlier = content cur))
  ∧ (∀ limit outputDir blocks w0,
       files (snd (process_stream E limit outputDir blocks w0))
       = replay (emitted_since w0 (snd (process_stream E limit outputDir blocks w0)))
           (files w0)).
Proof.
  intros Hc Hu Hlen Hok Hsized hashVal now fname. split; [|split].
  - exists (finalised E c cur w).
    destruct (finalised_files E c cur w) as (Hfiles & _ & _).
    cbn zeta in Hfiles. fold hashVal in Hfiles. fold now in Hfiles. fold fname in Hfiles.
    split; [apply flushCurrentBuffer_nonempty; assumption|].
    split; [exact Hfiles|]. split.
    + intros other Hother. rewrite Hfiles.
      destruct (ofs_is_open E (attempts w) fname); [|reflexivity].
      apply lookup_insert_ne. congruence.
    + unfold finalised. simpl. apply write_chunk_file_flushed.
  - intros earlier (_ & Hdigest & Hname & _) Hsame.
    rewrite Hname in Hsame. unfold fname in Hsame.
    apply chunk_file_name_inj in Hsame as [Hd Ht].
    2:{ rewrite Hdigest. unfold hashVal. rewrite !hex_of_hash_length, !Hsized. reflexivity. }
    split; [exact Hd|]. split; [exact Ht|].
    intros Hfree. apply Hfree. apply hex_of_hash_inj. rewrite <- Hdigest. exact Hd.
  - intros limit outputDir blocks w0.
    destruct (process_stream_history E limit outputDir blocks w0)
      as (new & Hfl & _ & Hfs & _).
    rewrite (emitted_since_app _ _ _ Hfl). exact Hfs.
Qed.

Lemma chunk_file_written_once_by_name_witness :
  let cur := mkChunkBuffer (bytes_of "klmnofghij") 10 5 in
  let c := mkChunker "/tmp/chunked_0" (Some cur) in
  let w := with_pool (BufferPool_ctor 0 10) (World_init 1 10) in
  ∃ w', flushCurrentBuffer demo_env (c, w) = (Ret tt, (mkChunker "/tmp/chunked_0" None, w'))
        ∧ fl_bytes <$> flushed w' = [bytes_of "klmno"].
Proof.
  intros cur c w.
  destruct (chunk_file_written_once_by_name demo_env c w cur)
    as [(w' & Hrun & _ & _ & Hfl) _].
  - reflexivity.
  - discriminate.
  - simpl. lia.
  - reflexivity.
  - exact sha512_digest_length.
  - exists w'. split; [exact Hrun|]. rewrite Hfl. reflexivity.
Defined.

(** C10. When the current buffer is empty, [flushCurrentBuffer] returns at
    once and releases nothing; the destructor of such a [Chunker] then
    deletes the buffer. The free vector is as before, no chunk is emitted, and
    the buffers in circulation are one fewer from then on, whatever
    operations follow. This is what happens to a stream that ends on a chunk
    boundary or never received a byte: it returns normally and leaves the
    pool one buffer short. *)
Theorem empty_buffer_deleted_not_released (E : Env) (limit : Z) (s : System) (i : nat)
    (c : Chunker) (cur : ChunkBuffer) :
  sys_chunkers s !! i = Some c → currentBuffer_ c = Some cur → used cur = 0 →
  flushCurrentBuffer E (c, sys_world s) = (Ret tt, (c, sys_world s))
  ∧ (∃ s', step E limit (op_destroy i) s = Some s'
           ∧ pool (sys_world s') = pool (sys_world s)
           ∧ heap_delete (sys_world s') = S (heap_delete (sys_world s))
           ∧ flushed (sys_world s') = flushed (sys_world s)
           ∧ files (sys_world s') = files (sys_world s)
           ∧ (total_buffers s' + 1 = total_buffers s)%nat
           ∧ ∀ ops s'', run E limit ops s' = Some s'' →
               (total_buffers s'' < total_buffers s)%nat)
  ∧ (∀ outputDir blocks w,
       0 < limit < size_t_modulus → EVP_ok E →
       pool_ok limit w → freeBuffers_ (pool w) ≠ [] →
       Forall (λ block, Z.of_nat (length block) < size_t_modulus) blocks →
       Z.of_nat (length (concat blocks)) mod limit = 0 →
       ∃ w', process_stream E limit outputDir blocks w = (Ret tt, w')
             ∧ (free_count w' + 1 = free_count w)%nat
             ∧ heap_delete w' = S (heap_delete w)).
Proof.
  intros Hi Hc Hzero. split; [apply (flushCurrentBuffer_empty E c _ cur Hc Hzero)|].
  split.
  - destruct s as [w cs held]. simpl in *.
    rewrite Hi, (Chunker_dtor_empty E c w cur Hc Hzero).
    eexists. split; [reflexivity|]. simpl.
    assert (Htotal : (total_buffers (mkSystem (unique_ptr_dtor (Some cur) w) (delete i cs) held)
                      + 1
                      = total_buffers (mkSystem w cs held))%nat).
    { pose proof (sum_checked_out_delete cs i c Hi) as Hsum.
      unfold total_buffers, free_count, checked_out in *. rewrite Hc in Hsum. simpl. lia. }
    repeat split; try exact Htotal.
    intros ops s'' Hrun. destruct (run_conserves E limit ops _ _ Hrun) as (_ & Hacc & Hmono).
    cbn [sys_world heap_delete unique_ptr_dtor] in Hacc, Hmono, Htotal. lia.
  - intros outputDir blocks w Hlimit Hevp Hpool Hfree Hblocks Hboundary.
    destruct (stream_buffer_balance E limit outputDir blocks w Hlimit Hevp Hpool Hfree Hblocks)
      as (w' & Hrun & Hbalance).
    exists w'. split; [exact Hrun|].
    destruct (decide _) as [_|Hne]; [exact Hbalance | contradiction].
Qed.

Lemma empty_buffer_deleted_not_released_witness :
  let cur := mkChunkBuffer (bytes_of "abcdefghij") 10 0 in
  let c := mkChunker "/tmp/chunked_0" (Some cur) in
  let w := mkWorld (BufferPool_ctor 0 10) ∅ [] [] 1 1 0 [] in
  let s := mkSystem w [c] [] in
  flushCurrentBuffer demo_env (c, w) = (Ret tt, (c, w))
  ∧ ∃ s', step demo_env 10 (op_destroy 0) s = Some s'
          ∧ heap_delete (sys_world s') = 1%nat
          ∧ (total_buffers s' + 1 = total_buffers s)%nat.
Proof.
  intros cur c w s.
  destruct (empty_buffer_deleted_not_released demo_env 10 s 0 c cur eq_refl eq_refl eq_refl)
    as (Hflush & (s' & Hstep & _ & Hdel & _ & _ & Htotal & _) & _).
  split; [exact Hflush|]. exists s'. split; [exact Hstep|]. split; [exact Hdel | exact Htotal].
Defined.

(** * Further properties of the program *)

(** X1. [stream_file] feeds the [Chunker] exactly the bytes of a file that is
    read to its end, in order, whatever its length relative to the 64 KiB
    blocks it is read in: on a healthy [Chunker] it returns [true], full
    chunks were finalised, the rest is pending in the current buffer, and the
    pool holds the buffers it held before. A file that cannot be opened gives
    [false] and one line on [cerr]; nothing else changes. *)
Theorem stream_file_feeds_the_file (host : Host) (E : Env) (limit : Z) (filePath : string)
    (st : State) :
  0 < limit < size_t_modulus → EVP_ok E → steady limit st →
  reads_to_end host filePath →
  match ifstream_open host filePath with
  | Some ifs =>
      ∃ st', stream_file host E limit filePath st = (Ret true, st')
             ∧ pushes limit (readable ifs) st st'
  | None =>
      stream_file host E limit filePath st
      = (Ret false,
         (fst st, put_cerr ("Error: Could not open " +:+ filePath +:+ newline) (snd st)))
  end.
Proof.
  intros Hlimit Hevp Hsteady Hread.
  destruct (stream_file_pushes host E limit Hlimit Hevp filePath st Hread Hsteady)
    as (st' & Hrun & Hp).
  unfold file_bytes in Hp.
  destruct (ifstream_open host filePath) as [ifs|] eqn:Hopen.
  - exists st'. split; [exact Hrun | exact Hp].
  - unfold stream_file. rewrite Hopen. destruct st. reflexivity.
Qed.

Lemma stream_file_feeds_the_file_witness :
  ∃ st', stream_file demo_host demo_env 10 "a.txt" fresh_state = (Ret true, st')
         ∧ pushes 10 (bytes_of "abcdefghijklmno") fresh_state st'.
Proof.
  exact (stream_file_feeds_the_file demo_host demo_env 10 "a.txt" fresh_state
           small_threshold_range demo_env_ok fresh_state_steady
           (demo_host_reads_to_end "a.txt" ltac:(discriminate) ltac:(discriminate))).
Defined.

(** X2. [stream_command_output] on a command whose output reaches its end
    feeds the [Chunker] all that output and returns [true] whatever the exit
    code of the command; a non-zero exit code only adds a warning as the last
    line on [cerr]. *)
Theorem stream_command_output_any_exit_code (host : Host) (E : Env) (limit : Z)
    (command : string) (output : list byte) (rc : Z) (st : State) :
  0 < limit < size_t_modulus → EVP_ok E → steady limit st →
  popen_read host command = Some (mkIstream output end_of_file, rc) →
  ∃ st', stream_command_output host E limit command st = (Ret true, st')
         ∧ pushes limit output st st'
         ∧ (rc ≠ 0 →
            last (cerr (snd st'))
            = Some ("Warning: command exited with code " +:+ pretty rc +:+ ": "
                    +:+ command +:+ newline)).
Proof.
  intros Hlimit Hevp Hsteady Hopen. unfold stream_command_output. rewrite Hopen.
  destruct st as [c w]. unfold bind at 1, run_command. cbn [readable].
  assert (Hp0 : pushes limit [] (c, w) (c, put_files (popen_effect host command (files w)) w))
    by (apply pushes_put_files; exact Hsteady).
  destruct (read_loop_pushes E limit Hlimit Hevp (read_budget output) output stack_buffer
              false (c, put_files (popen_effect host command (files w)) w)
              stack_buffer_length ltac:(unfold read_budget; lia) ltac:(apply Hp0))
    as ([c' w'] & Hrun & Hp).
  unfold bind at 1. rewrite Hrun. unfold bind, ret.
  assert (Hp' : pushes limit output (c, w) (c', w'))
    by (change output with ([] ++ output); eapply pushes_trans; [exact Hp0 | exact Hp]).
  destruct (Z.eqb_spec rc 0) as [Hrc|Hrc].
  - eexists. split; [reflexivity|]. split; [exact Hp' | contradiction].
  - eexists. split; [reflexivity|]. split.
    + rewrite <- (app_nil_r output). eapply pushes_trans; [exact Hp'|].
      apply pushes_put_cerr. apply Hp'.
    + intros _. cbn [snd put_cerr cerr]. apply last_snoc.
Qed.

Lemma stream_command_output_any_exit_code_witness :
  ∃ st', stream_command_output demo_host demo_env 10
           ("pdftotext " +:+ dquote +:+ "x.PDF" +:+ dquote +:+ " -") fresh_state
         = (Ret true, st')
         ∧ pushes 10 (bytes_of "pdf text") fresh_state st'
         ∧ (3 ≠ 0 →
            last (cerr (snd st'))
            = Some ("Warning: command exited with code " +:+ pretty 3 +:+ ": "
                    +:+ ("pdftotext " +:+ dquote +:+ "x.PDF" +:+ dquote +:+ " -")
                    +:+ newline)).
Proof.
  exact (stream_command_output_any_exit_code demo_host demo_env 10
           ("pdftotext " +:+ dquote +:+ "x.PDF" +:+ dquote +:+ " -")
           (bytes_of "pdf text") 3 fresh_state
           small_threshold_range demo_env_ok fresh_state_steady eq_refl).
Defined.

(** X3. [stream_parquet] on a file whose reader opens feeds the [Chunker] the
    text of the rows of the readable row groups, row group after row group and
    row after row, and returns [true]; a row group that cannot be read is
    skipped. *)
Theorem stream_parquet_feeds_the_rows (host : Host) (E : Env) (limit : Z) (filePath : string)
    (row_groups : list (option Table)) (st : State) :
  0 < limit < size_t_modulus → EVP_ok E → steady limit st →
  parquet_open host filePath = parquet_reader row_groups →
  Z.of_nat (length (list_byte_of_string (row_groups_text row_groups))) < size_t_modulus →
  ∃ st', stream_parquet host E limit filePath st = (Ret true, st')
         ∧ pushes limit (list_byte_of_string (row_groups_text row_groups)) st st'.
Proof.
  intros Hlimit Hevp Hsteady Hopen Hsize.
  destruct (stream_parquet_pushes host E limit Hlimit Hevp filePath st) as (st' & Hrun & Hp);
    [unfold parquet_bytes; rewrite Hopen; exact Hsize | exact Hsteady |].
  unfold parquet_bytes in Hp. rewrite Hopen in Hrun, Hp. exists st'. auto.
Qed.

Lemma stream_parquet_feeds_the_rows_witness :
  ∃ st', stream_parquet demo_host demo_env 10 "t.parquet" fresh_state = (Ret true, st')
         ∧ pushes 10
             (list_byte_of_string
                (row_groups_text
                   [Some (mkTable 2 [[[scalar_valid "1"; scalar_null]]; []]); None]))
             fresh_state st'.
Proof.
  apply (stream_parquet_feeds_the_rows demo_host demo_env 10 "t.parquet"
           [Some (mkTable 2 [[[scalar_valid "1"; scalar_null]]; []]); None] fresh_state
           small_threshold_range demo_env_ok fresh_state_steady eq_refl).
  vm_compute. reflexivity.
Defined.

(** X4. [stream_parquet] reads the first chunk of every column and no other:
    dropping the later chunks of the columns of a table changes nothing in
    what the loop over its rows does. *)
Theorem push_rows_first_chunk_only (E : Env) (limit : Z)
    (columns : list (list (list scalar))) (rows : list nat) (st : State) :
  push_rows E limit (take 1 <$> columns) rows st = push_rows E limit columns rows st.
Proof.
  revert st. induction rows as [|row_idx rows IH]; intros st; [reflexivity|].
  cbn [push_rows]. unfold render_row. rewrite render_cells_first_chunk.
  unfold bind. destruct (pushData _ _ _ _ st) as [[[]| | | |] st']; try reflexivity.
  apply IH.
Qed.

(** X5. The extension [main] derives from a path is what follows the last
    dot, in lower case, whatever precedes that dot; a path without a dot has
    the empty extension. *)
Theorem extension_of_last_dot (stem ext : string) :
  no_dot ext = true →
  extension_of (stem +:+ "." +:+ ext) = string_map tolower ext
  ∧ extension_of ext = EmptyString.
Proof.
  intros Hext. unfold extension_of.
  rewrite (rfind_last_dot stem ext Hext), (rfind_no_dot ext Hext).
  change ("." +:+ ext) with (String "." ext). rewrite substr_past. auto.
Qed.

Lemma extension_of_last_dot_witness :
  extension_of ("backup.d/archive.tar" +:+ "." +:+ "GZ") = string_map tolower "GZ"
  ∧ extension_of "GZ" = EmptyString.
Proof. exact (extension_of_last_dot "backup.d/archive.tar" "GZ" eq_refl). Defined.

(** X6. With no more arguments than the pool has buffers, each of them read
    to its end, [main] exits with code 0 and the chunks it finalised are,
    argument after argument, the threshold-sized segments of the bytes of that
    argument: no chunk holds bytes of two arguments, and an argument that
    cannot be opened or converted contributes no chunk and does not stop the
    run. *)
Theorem main_chunks_per_argument (host : Host) (E : Env) (limit bufferCount : Z)
    (filePaths : list string) :
  0 < limit < size_t_modulus → EVP_ok E →
  (∀ errno, mkdir host ("/tmp/chunked_" +:+ pretty (main_time host)) = mkdir_errno errno
            → errno = EEXIST) →
  Forall (input_ok host) filePaths →
  (length filePaths <= Z.to_nat bufferCount)%nat →
  fst (main_from host E limit bufferCount filePaths) = Ret 0
  ∧ fl_bytes <$> flushed (snd (main_from host E limit bufferCount filePaths))
    = concat ((λ filePath, expected_chunks limit (input_bytes host filePath)) <$> filePaths).
Proof.
  intros Hlimit Hevp Hmkdir Hsizes Hcount.
  destruct (main_from_healthy host E limit Hlimit Hevp bufferCount filePaths Hmkdir Hsizes)
    as (Hexit & Hchunks & _).
  destruct (pool_lasts_enough host limit (Z.to_nat bufferCount) filePaths Hcount)
    as [Hlasts Hall].
  rewrite Hlasts in Hexit. rewrite Hall in Hchunks. auto.
Qed.

Lemma main_chunks_per_argument_witness :
  fst (main demo_host demo_env ["a.txt"; "x.PDF"; "nope.txt"]) = Ret 0
  ∧ fl_bytes <$> flushed (snd (main demo_host demo_env ["a.txt"; "x.PDF"; "nope.txt"]))
    = concat ((λ filePath, expected_chunks CHUNK_LIMIT (input_bytes demo_host filePath))
                <$> ["a.txt"; "x.PDF"; "nope.txt"]).
Proof.
  apply (main_chunks_per_argument demo_host demo_env CHUNK_LIMIT NUM_BUFFERS
           ["a.txt"; "x.PDF"; "nope.txt"] CHUNK_LIMIT_range demo_env_ok demo_host_mkdir).
  - repeat (apply List.Forall_cons; [apply demo_host_input_ok; repeat constructor|]).
    apply List.Forall_nil.
  - unfold NUM_BUFFERS. cbn [length]. lia.
Defined.

(** X7. When each of the first [bufferCount] arguments yields a number of
    bytes that is a multiple of the threshold (none at all included: an empty
    file, a file that cannot be opened), each of them costs the pool a buffer,
    and [main] ends on the next argument with the exception of the pool,
    [No free chunk buffers available!], after the chunks of the first
    [bufferCount] arguments. *)
Theorem main_aborts_on_drained_pool (host : Host) (E : Env) (limit bufferCount : Z)
    (filePaths : list string) :
  0 < limit < size_t_modulus → EVP_ok E →
  (∀ errno, mkdir host ("/tmp/chunked_" +:+ pretty (main_time host)) = mkdir_errno errno
            → errno = EEXIST) →
  Forall (input_ok host) filePaths →
  Forall (λ filePath, ends_on_boundary host limit filePath = true)
         (take (Z.to_nat bufferCount) filePaths) →
  (Z.to_nat bufferCount < length filePaths)%nat →
  fst (main_from host E limit bufferCount filePaths)
  = Throw "No free chunk buffers available!"
  ∧ fl_bytes <$> flushed (snd (main_from host E limit bufferCount filePaths))
    = concat ((λ filePath, expected_chunks limit (input_bytes host filePath))
                <$> take (Z.to_nat bufferCount) filePaths).
Proof.
  intros Hlimit Hevp Hmkdir Hsizes Hboundary Hcount.
  destruct (main_from_healthy host E limit Hlimit Hevp bufferCount filePaths Hmkdir Hsizes)
    as (Hexit & Hchunks & _).
  destruct (pool_lasts_boundaries host limit (Z.to_nat bufferCount) filePaths Hboundary Hcount)
    as [Hlasts Hall].
  rewrite Hlasts in Hexit. rewrite Hall in Hchunks. auto.
Qed.

Lemma main_aborts_on_drained_pool_witness :
  fst (main_from demo_host demo_env 10 2 ["nope.txt"; "empty.txt"; "a.txt"])
  = Throw "No free chunk buffers available!"
  ∧ fl_bytes <$> flushed (snd (main_from demo_host demo_env 10 2
                                 ["nope.txt"; "empty.txt"; "a.txt"]))
    = concat ((λ filePath, expected_chunks 10 (input_bytes demo_host filePath))
                <$> take (Z.to_nat 2) ["nope.txt"; "empty.txt"; "a.txt"]).
Proof.
  apply (main_aborts_on_drained_pool demo_host demo_env 10 2
           ["nope.txt"; "empty.txt"; "a.txt"] small_threshold_range demo_env_ok
           demo_host_mkdir).
  - repeat (apply List.Forall_cons; [apply demo_host_input_ok; repeat constructor|]).
    apply List.Forall_nil.
  - repeat constructor.
  - cbn [length]. lia.
Defined.

(** X8. [pushData(data, len)] on a healthy [Chunker] whose buffer holds
    [used] bytes takes the first [len] bytes of the array, finalises
    [(used + len) / threshold] chunks and leaves [(used + len) mod threshold]
    bytes in the current buffer: the buffer is never left full. *)
Theorem pushData_chunk_count (E : Env) (limit : Z) (input : list byte) (len : Z)
    (c : Chunker) (w : World) (cur : ChunkBuffer) :
  0 < limit < size_t_modulus → EVP_ok E →
  0 <= len < size_t_modulus → len <= Z.of_nat (length input) →
  steady limit (c, w) → currentBuffer_ c = Some cur →
  ∃ c' w' cur',
    pushData E limit input len (c, w) = (Ret tt, (c', w'))
    ∧ currentBuffer_ c' = Some cur'
    ∧ used cur' = (used cur + len) mod limit
    ∧ Z.of_nat (length (flushed w'))
      = Z.of_nat (length (flushed w)) + (used cur + len) / limit
    ∧ concat (fl_bytes <$> emitted_since w w') ++ content cur'
      = content cur ++ take (Z.to_nat len) input.
Proof.
  intros Hlimit Hevp Hlen Hinput Hsteady Hc.
  destruct (pushData_pushes E limit Hlimit Hevp input len (c, w) Hlen Hinput Hsteady)
    as ([c' w'] & Hrun & Hst' & _ & _ & _ & _ & new & Hfl & Hall & Hcat).
  cbn [fst snd] in *.
  destruct Hsteady as (cur0 & Hc0 & Hused & Hbuf & _). cbn [fst] in Hc0.
  assert (cur0 = cur) by congruence. subst cur0.
  destruct Hst' as (cur' & Hc' & Hused' & Hbuf' & _). cbn [fst] in Hc'.
  unfold pending in Hcat. rewrite Hc, Hc' in Hcat.
  unfold buffer_ok in Hbuf, Hbuf'.
  assert (Hsize : limit * Z.of_nat (length new) + used cur' = used cur + len).
  { apply (f_equal length) in Hcat. rewrite !length_app in Hcat.
    apply (f_equal Z.of_nat) in Hcat. rewrite !Nat2Z.inj_add in Hcat.
    rewrite (full_chunks_length limit new Hall) in Hcat.
    unfold content in Hcat. rewrite !length_take in Hcat. lia. }
  exists c', w', cur'. split; [exact Hrun|]. split; [exact Hc'|].
  split; [apply (Z.mod_unique_pos _ _ (Z.of_nat (length new))); lia|].
  split.
  - rewrite Hfl, length_app, Nat2Z.inj_add. f_equal.
    apply (Z.div_unique_pos _ _ _ (used cur')); lia.
  - rewrite (emitted_since_app w w' new Hfl). exact Hcat.
Qed.

Lemma pushData_chunk_count_witness :
  ∃ c' w' cur',
    pushData demo_env 10 (bytes_of "abcdefghijklmnopqrstuvwxy") 25 fresh_state
    = (Ret tt, (c', w'))
    ∧ currentBuffer_ c' = Some cur'
    ∧ used cur' = (used (ChunkBuffer_ctor 10) + 25) mod 10
    ∧ Z.of_nat (length (flushed w'))
      = Z.of_nat (length (flushed (snd fresh_state)))
        + (used (ChunkBuffer_ctor 10) + 25) / 10
    ∧ concat (fl_bytes <$> emitted_since (snd fresh_state) w') ++ content cur'
      = content (ChunkBuffer_ctor 10)
        ++ take (Z.to_nat 25) (bytes_of "abcdefghijklmnopqrstuvwxy").
Proof.
  apply (pushData_chunk_count demo_env 10 (bytes_of "abcdefghijklmnopqrstuvwxy") 25
           (fst fresh_state) (snd fresh_state) (ChunkBuffer_ctor 10)
           small_threshold_range demo_env_ok).
  - unfold size_t_modulus. lia.
  - vm_compute. discriminate.
  - exact fresh_state_steady.
  - reflexivity.
Defined.

(** X9. With a threshold that is positive and fits [size_t], [pushData]
    never ends with the pool's [No free chunk buffers available!], whatever
    the state of the pool and of the environment: whenever it acquires a
    buffer it has just released one. Only the constructor of a [Chunker] can
    find the pool empty. *)
Theorem pushData_never_exhausts_pool (E : Env) (limit : Z) (input : list byte) (len : Z)
    (c : Chunker) (w : World) :
  0 < limit < size_t_modulus → used_in_range c →
  fst (pushData E limit input len (c, w)) ≠ Throw "No free chunk buffers available!".
Proof.
  intros Hlimit Hrange. unfold pushData. apply pushData_loop_supplied; assumption.
Qed.

Lemma pushData_never_exhausts_pool_witness :
  fst (pushData demo_env 10 (bytes_of "abcdefghijklmnopqrstuvwxy") 25 fresh_state)
  ≠ Throw "No free chunk buffers available!".
Proof.
  apply (pushData_never_exhausts_pool demo_env 10 (bytes_of "abcdefghijklmnopqrstuvwxy") 25
           (fst fresh_state) (snd fresh_state) small_threshold_range).
  intros cur [= <-]. cbn [used ChunkBuffer_ctor]. unfold size_t_modulus. lia.
Defined.

(** X10. When an EVP call fails while a non-empty buffer is finalised,
    [flushCurrentBuffer] throws before anything is written or reported: no
    file, no line on [cout] or [cerr], no history entry, and the [Chunker]
    keeps its buffer with the bytes in it. At the end of a stream the same
    failure leaves the destructor as an exception, which terminates the
    process: the pending bytes are lost. *)
Theorem digest_failure_loses_the_chunk (E : Env) (c : Chunker) (w : World)
    (cur : ChunkBuffer) (fault : EVP_failure) :
  currentBuffer_ c = Some cur →
  0 < used cur <= Z.of_nat (length (data cur)) →
  EVP_fault E (attempts w) = Some fault →
  (∃ what, flushCurrentBuffer E (c, w) = (Throw what, (c, with_attempt w)))
  ∧ Chunker_dtor E (c, w) = (Terminate, with_attempt w)
  ∧ files (with_attempt w) = files w
  ∧ flushed (with_attempt w) = flushed w
  ∧ cout (with_attempt w) = cout w
  ∧ cerr (with_attempt w) = cerr w.
Proof.
  intros Hc Hused Hfault.
  assert (Hflush : ∃ what, flushCurrentBuffer E (c, w) = (Throw what, (c, with_attempt w))).
  { unfold flushCurrentBuffer. rewrite Hc, (read_bytes_Some (data cur) (used cur) ltac:(lia)).
    destruct (Z.eqb_spec (used cur) 0); [lia|].
    unfold compute_sha512. rewrite Hfault. destruct fault; eauto. }
  split; [exact Hflush|]. destruct Hflush as (what & Hflush).
  unfold Chunker_dtor. rewrite Hflush. auto.
Qed.

Lemma digest_failure_loses_the_chunk_witness :
  (∃ what, flushCurrentBuffer faulty_env
             (mkChunker "/tmp/chunked_0" (Some (mkChunkBuffer (bytes_of "abc") 3 3)),
              World_init 0 10)
           = (Throw what,
              (mkChunker "/tmp/chunked_0" (Some (mkChunkBuffer (bytes_of "abc") 3 3)),
               with_attempt (World_init 0 10))))
  ∧ Chunker_dtor faulty_env
      (mkChunker "/tmp/chunked_0" (Some (mkChunkBuffer (bytes_of "abc") 3 3)),
       World_init 0 10)
    = (Terminate, with_attempt (World_init 0 10))
  ∧ files (with_attempt (World_init 0 10)) = files (World_init 0 10)
  ∧ flushed (with_attempt (World_init 0 10)) = flushed (World_init 0 10)
  ∧ cout (with_attempt (World_init 0 10)) = cout (World_init 0 10)
  ∧ cerr (with_attempt (World_init 0 10)) = cerr (World_init 0 10).
Proof.
  apply (digest_failure_loses_the_chunk faulty_env
           (mkChunker "/tmp/chunked_0" (Some (mkChunkBuffer (bytes_of "abc") 3 3)))
           (World_init 0 10) (mkChunkBuffer (bytes_of "abc") 3 3) EVP_DigestUpdate_failed
           eq_refl).
  - simpl. lia.
  - reflexivity.
Defined.

(** X11. The pool is a stack: a released buffer is the next one acquired, and
    it comes back cleared; after releasing two buffers and acquiring two, the
    buffers come back in reverse order and the pool is as it was. *)
Theorem pool_is_a_stack (b1 b2 : ChunkBuffer) (p : BufferPool) :
  ∃ p1 p2,
    releaseBuffer (Some b1) p = (Ret tt, p1)
    ∧ releaseBuffer (Some b2) p1 = (Ret tt, p2)
    ∧ acquireBuffer p2 = (Ret (clear b2), p1)
    ∧ acquireBuffer p1 = (Ret (clear b1), p).
Proof.
  destruct p as [size free]. eexists _, _. split; [reflexivity|]. split; [reflexivity|].
  cbn [bufferSize_ freeBuffers_]. split.
  - rewrite (acquireBuffer_back (mkBufferPool size ((free ++ [clear b1]) ++ [clear b2]))
               (free ++ [clear b1]) (clear b2) eq_refl).
    reflexivity.
  - rewrite (acquireBuffer_back (mkBufferPool size (free ++ [clear b1])) free (clear b1)
               eq_refl).
    reflexivity.
Qed.

(** X12. Whatever the state [pushData] is called in and however it ends,
    each chunk it finalised left exactly one line: on [cout], with the name
    of the file and the size of the chunk, when the file was written; on
    [cerr], with the name of the file, when the file did not open. Nothing
    else is printed. *)
Theorem pushData_reports_every_chunk (E : Env) (limit : Z) (input : list byte) (len : Z)
    (st : State) :
  reported st (snd (pushData E limit input len st)).
Proof.
  exact (respects_pushData _ reported_refl reported_trans E limit
           (flushCurrentBuffer_reported E) acquire_currentBuffer_reported
           append_currentBuffer_reported input len st).
Qed.



(** X14. When the commands [main] starts leave the files of the machine as
    they are, then whatever the environment and the arguments, and however
    the run ends, [main] changes the files only by writing chunk files: the
    files at the end are those at the start with the writes of the finalised
    chunks replayed, each of these goes to
    [/tmp/chunked_<start time>/<digest of the content>_<time>.txt], the
    content is not empty, and what the file holds is that content or, after a
    write that fell short, a beginning of it. No input file and no other file
    is written, truncated or removed. The condition is one on the host: the
    path of an argument goes into the command line as it is, so a path chosen
    for it makes the shell run any command. *)
Theorem main_writes_only_chunk_files (host : Host) (E : Env) (limit bufferCount : Z)
    (filePaths : list string) :
  commands_keep_files host →
  let w := snd (main_from host E limit bufferCount filePaths) in
  Forall (record_ok E ("/tmp/chunked_" +:+ pretty (main_time host))) (flushed w)
  ∧ Forall (stored_ok E) (flushed w)
  ∧ files w = replay (flushed w) (disk host)
  ∧ ∀ name, (∀ f, f ∈ flushed w → fl_name f ≠ name) → files w !! name = disk host !! name.
Proof.
  intros Hkeep.
  set (g_outputDir := "/tmp/chunked_" +:+ pretty (main_time host)).
  assert (Hmain : Forall (record_ok E g_outputDir)
                    (flushed (snd (main_from host E limit bufferCount filePaths)))
                  ∧ Forall (stored_ok E)
                      (flushed (snd (main_from host E limit bufferCount filePaths)))
                  ∧ files (snd (main_from host E limit bufferCount filePaths))
                    = replay (flushed (snd (main_from host E limit bufferCount filePaths)))
                        (disk host)).
  { unfold main_from. fold g_outputDir.
    set (w0 := mkWorld (mkBufferPool limit []) (disk host) [] [] 0 0 0 []).
    assert (Hrun : Forall (record_ok E g_outputDir)
                     (flushed (snd (main_run host E limit bufferCount g_outputDir filePaths w0)))
                   ∧ Forall (stored_ok E)
                       (flushed (snd (main_run host E limit bufferCount g_outputDir
                                        filePaths w0)))
                   ∧ files (snd (main_run host E limit bufferCount g_outputDir filePaths w0))
                     = replay
                         (flushed (snd (main_run host E limit bufferCount g_outputDir
                                          filePaths w0)))
                         (disk host)).
    { unfold main_run.
      match goal with
      | |- context [process_files host E limit g_outputDir filePaths ?w2] =>
          destruct (process_files_history host E limit Hkeep g_outputDir filePaths w2)
            as (new & Hfl & Hok & Hfs & Hst);
          destruct (process_files host E limit g_outputDir filePaths w2) as [o w3]
      end.
      cbn [snd flushed files put_cout app] in Hfl, Hfs.
      destruct o as [[]| | | |]; cbn [snd flushed files put_cout]; rewrite Hfl, Hfs; auto. }
    destruct (mkdir host g_outputDir) as [|errno]; [exact Hrun|].
    destruct (errno =? EEXIST); [exact Hrun|].
    cbn. split; [constructor | split; [constructor | reflexivity]]. }
  cbv zeta. destruct Hmain as (Hok & Hst & Hfs).
  split; [exact Hok|]. split; [exact Hst|]. split; [exact Hfs|].
  intros name Hname. rewrite Hfs. clear Hfs Hok Hst.
  revert Hname. generalize (disk host).
  induction (flushed (snd (main_from host E limit bufferCount filePaths))) as [|f new IH];
    intros fs Hname; [reflexivity|].
  unfold replay. cbn [foldl].
  fold (replay new (if fl_written f then <[fl_name f:=fl_stored f]> fs else fs)).
  rewrite IH by (intros f' Hf'; apply Hname; right; exact Hf').
  destruct (fl_written f); [|reflexivity].
  apply lookup_insert_ne. apply Hname. left.
Qed.

Lemma main_writes_only_chunk_files_witness :
  let w := snd (main_from demo_host demo_env 10 5 ["a.txt"; "x.PDF"]) in
  Forall (record_ok demo_env ("/tmp/chunked_" +:+ pretty (main_time demo_host))) (flushed w)
  ∧ Forall (stored_ok demo_env) (flushed w)
  ∧ files w = replay (flushed w) (disk demo_host)
  ∧ ∀ name, (∀ f, f ∈ flushed w → fl_name f ≠ name)
            → files w !! name = disk demo_host !! name.
Proof.
  exact (main_writes_only_chunk_files demo_host demo_env 10 5 ["a.txt"; "x.PDF"]
           demo_host_keeps_files).
Defined.

(** X15. The text [compute_sha512] makes of a digest loses nothing: read back
    two characters at a time it gives the bytes of the digest, so two digests
    that differ never share a text. *)
Theorem digest_text_round_trip (hash : list byte) :
  unhex_hash (hex_of_hash hash) = hash
  ∧ ∀ hash', hex_of_hash hash = hex_of_hash hash' → hash = hash'.
Proof.
  split; [apply unhex_hex_of_hash|]. intros hash' Hsame. apply hex_of_hash_inj. exact Hsame.
Qed.

(** X16. A read error ends [stream_file] never, and neither does a file
    without end: the loop tests [eof()] only, and [eof()] stays false. On a
    healthy [Chunker] every budget of the read loop runs out, whatever its
    size. *)
Theorem stream_file_spins_on_read_error (host : Host) (E : Env) (limit : Z)
    (filePath : string) (ifs : istream) (st : State) :
  0 < limit < size_t_modulus → EVP_ok E → steady limit st →
  ifstream_open host filePath = Some ifs → ending ifs ≠ end_of_file →
  (∀ budget, fst (read_loop E limit budget ifs stack_buffer false st) = Diverge)
  ∧ fst (stream_file host E limit filePath st) = Diverge.
Proof.
  intros Hlimit Hevp Hsteady Hopen Hfails.
  assert (Hspin : ∀ budget,
            fst (read_loop E limit budget ifs stack_buffer false st) = Diverge).
  { intros budget.
    apply (read_loop_spins E limit Hlimit Hevp budget ifs stack_buffer st Hfails
             stack_buffer_length Hsteady). }
  split; [exact Hspin|].
  unfold stream_file. rewrite Hopen. unfold bind.
  specialize (Hspin (read_budget (readable ifs))).
  destruct (read_loop _ _ _ _ _ _ st) as [o st']. cbn [fst] in *. rewrite Hspin. reflexivity.
Qed.

Lemma stream_file_spins_on_read_error_witness :
  (∀ budget,
     fst (read_loop demo_env 10 budget (mkIstream [] read_error) stack_buffer false
            fresh_state) = Diverge)
  ∧ fst (stream_file demo_host demo_env 10 "/tmp" fresh_state) = Diverge.
Proof.
  apply (stream_file_spins_on_read_error demo_host demo_env 10 "/tmp"
           (mkIstream [] read_error) fresh_state small_threshold_range demo_env_ok
           fresh_state_steady eq_refl).
  discriminate.
Defined.

(** X17. [stream_command_output] returns never when the output of the
    command does not reach its end, be it that a read from the pipe fails or
    that the command writes without end: the loop tests [feof] only. On a
    healthy [Chunker] every budget of the read loop runs out, whatever its
    size, and neither [pclose] nor the warning on the exit code is reached. *)
Theorem stream_command_output_spins (host : Host) (E : Env) (limit : Z)
    (command : string) (pipe : istream) (rc : Z) (c : Chunker) (w : World) :
  0 < limit < size_t_modulus → EVP_ok E → steady limit (c, w) →
  popen_read host command = Some (pipe, rc) → ending pipe ≠ end_of_file →
  (∀ budget,
     fst (read_loop E limit budget pipe stack_buffer false
            (c, put_files (popen_effect host command (files w)) w)) = Diverge)
  ∧ fst (stream_command_output host E limit command (c, w)) = Diverge.
Proof.
  intros Hlimit Hevp Hsteady Hopen Hfails.
  assert (Hspin : ∀ budget,
            fst (read_loop E limit budget pipe stack_buffer false
                   (c, put_files (popen_effect host command (files w)) w)) = Diverge).
  { intros budget.
    apply (read_loop_spins E limit Hlimit Hevp budget pipe stack_buffer _ Hfails
             stack_buffer_length).
    apply (pushes_put_files limit (popen_effect host command (files w)) c w Hsteady). }
  split; [exact Hspin|].
  unfold stream_command_output. rewrite Hopen. unfold bind at 1, run_command.
  unfold bind at 1.
  specialize (Hspin (read_budget (readable pipe))).
  destruct (read_loop _ _ _ _ _ _ _) as [o st']. cbn [fst] in *. rewrite Hspin. reflexivity.
Qed.

Lemma stream_command_output_spins_witness :
  (∀ budget,
     fst (read_loop demo_env 10 budget (mkIstream (bytes_of "par") read_error) stack_buffer
            false
            (fst fresh_state,
             put_files (popen_effect demo_host
                          ("unrtf --text " +:+ dquote +:+ "broken.rtf" +:+ dquote)
                          (files (snd fresh_state)))
               (snd fresh_state))) = Diverge)
  ∧ fst (stream_command_output demo_host demo_env 10
           ("unrtf --text " +:+ dquote +:+ "broken.rtf" +:+ dquote) fresh_state) = Diverge.
Proof.
  apply (stream_command_output_spins demo_host demo_env 10
           ("unrtf --text " +:+ dquote +:+ "broken.rtf" +:+ dquote)
           (mkIstream (bytes_of "par") read_error) 0 (fst fresh_state) (snd fresh_state)
           small_threshold_range demo_env_ok fresh_state_steady eq_refl).
  discriminate.
Defined.

(** X18. [stream_command_output] hands the text of the command to the shell,
    and what the command does to the files is done: however the call ends, the
    files after it are those the command left, with the writes of the chunks
    finalised during the call replayed on them (the model lets the command do
    its work when it is started). As the argument of the program is part of
    that text, an argument can make the run remove or replace any file. *)
Theorem stream_command_output_runs_the_command (host : Host) (E : Env) (limit : Z)
    (command : string) (pipe : istream) (rc : Z) (c : Chunker) (w : World) :
  popen_read host command = Some (pipe, rc) →
  let w' := snd (snd (stream_command_output host E limit command (c, w))) in
  ∃ new, flushed w' = flushed w ++ new
         ∧ Forall (record_ok E (outputDir_ c)) new
         ∧ Forall (stored_ok E) new
         ∧ files w' = replay new (popen_effect host command (files w)).
Proof.
  intros Hopen. unfold stream_command_output. rewrite Hopen.
  unfold bind at 1, run_command.
  set (m := (read_loop E limit (read_budget (readable pipe)) pipe stack_buffer false ;;
             (if rc =? 0 then ret tt
              else log_cerr ("Warning: command exited with code " +:+ pretty rc +:+ ": "
                             +:+ command +:+ newline)) ;;
             ret true)).
  assert (Hm : respects (history_grows E) m).
  { apply respects_bind; [apply history_grows_trans| |intros _].
    - apply (respects_read_loop _ (history_grows_refl E) (history_grows_trans E) E limit
               (pushData_history E limit)).
    - apply respects_bind; [apply history_grows_trans| |intros _].
      + destruct (rc =? 0); [apply respects_ret; apply history_grows_refl
                            | apply log_cerr_history].
      + apply respects_ret. apply history_grows_refl. }
  destruct (Hm (c, put_files (popen_effect host command (files w)) w))
    as (_ & new & Hfl & Hok & Hfs & Hst).
  cbv zeta. exists new. auto.
Qed.

Lemma stream_command_output_runs_the_command_witness :
  let command := "unrtf --text " +:+ dquote +:+ "$(rm precious).rtf" +:+ dquote in
  let w := put_files (disk shell_host) (snd fresh_state) in
  let w' := snd (snd (stream_command_output shell_host demo_env 10 command
                        (fst fresh_state, w))) in
  (∃ new, flushed w' = flushed w ++ new
          ∧ Forall (record_ok demo_env (outputDir_ (fst fresh_state))) new
          ∧ Forall (stored_ok demo_env) new
          ∧ files w' = replay new (popen_effect shell_host command (files w)))
  ∧ files w !! "precious" = Some (bytes_of "data")
  ∧ flushed w' = []
  ∧ files w' !! "precious" = None
  ∧ fst (main_from shell_host demo_env 10 5 ["$(rm precious).rtf"]) = Ret 0
  ∧ files (snd (main_from shell_host demo_env 10 5 ["$(rm precious).rtf"])) = ∅.
Proof.
  intros command w w'. split.
  - exact (stream_command_output_runs_the_command shell_host demo_env 10 command
             (mkIstream [] end_of_file) 0 (fst fresh_state) w eq_refl).
  - split; [vm_compute; reflexivity|]. split; [vm_compute; reflexivity|].
    split; [vm_compute; reflexivity|]. split; vm_compute; reflexivity.
Defined.
